(** * Heterogeneous_SNNs: reservoir analysis and bifurcation scripts

    A shallow embedding of [snn_function_generation.py] and of the
    command-line handling shared by the [bifurcation_*.py] scripts.

    Conventions.
    - Python [float]s and NumPy [float64] arrays are idealised as real
      numbers [R]: every statement below is a statement in exact arithmetic.
      The one non-real float that the analysis can produce without raising,
      the [nan] of a division by a zero maximum in [mse], is kept apart
      ([pyfloat]).  In [dist] and the connection table, where the exponent
      is a parameter and powers can leave the range of float64, the limits
      of that range are modelled as well ([float64]): a result within the
      range is still the exact real.
    - Python [int]s are integers [Z].
    - A Python exception is a value [Raise e] in the [result] monad.
    - A 1-D array is a [list R]; a 2-D array is the list of its rows, all of
      one length.  A list of rows does not record the number of columns of an
      array without rows, so an array with a zero dimension is outside the
      modelled domain wherever its shape matters.
    - External collaborators (the network simulator, SciPy's Gaussian filter,
      [np.linalg.inv], the eigenvalue routine behind the dimensionality)
      are interfaces that the functions take as arguments.
    - [print] is recorded as an event; the plots are not modelled. *)

From Stdlib Require Import Reals Lra Lia ZArith String Ascii Bool List.
Import ListNotations.

Set Implicit Arguments.

(* ===================================================================== *)
(** * Exceptions and the error monad *)
(* ===================================================================== *)

Inductive exn : Type :=
| ValueError (msg : string)
| IndexError
| ZeroDivisionError
| OverflowError
| TypeError
| LinAlgError.

Inductive result (A : Type) : Type :=
| Ok (a : A)
| Raise (e : exn).

Arguments Ok {A} a.
Arguments Raise {A} e.

Definition bind {A B : Type} (m : result A) (k : A -> result B) : result B :=
  match m with
  | Ok a => k a
  | Raise e => Raise e
  end.

Declare Scope py_scope.
Delimit Scope py_scope with py.
Notation "x <- m ;; k" := (bind m (fun x => k))
  (at level 61, m at next level, right associativity) : py_scope.
Open Scope py_scope.


Fixpoint mapM {A B : Type} (f : A -> result B) (l : list A) : result (list B) :=
  match l with
  | [] => Ok []
  | a :: l' => b <- f a ;; bs <- mapM f l' ;; Ok (b :: bs)
  end.

(* ===================================================================== *)
(** * Command-line handling of the bifurcation scripts *)
(* ===================================================================== *)

Module Bifurcation.

Local Open Scope string_scope.

(** Python's [sub in s] on strings. *)
Fixpoint py_in (sub s : string) : bool :=
  match s with
  | EmptyString => String.prefix sub EmptyString
  | String _ s' => String.prefix sub s || py_in sub s'
  end.

(** [l[-1]]: the last element, [IndexError] on the empty list. *)
Fixpoint py_last {A : Type} (l : list A) : result A :=
  match l with
  | [] => Raise IndexError
  | [a] => Ok a
  | _ :: l' => py_last l'
  end.

Definition default_auto_dir : string := "~/PycharmProjects/auto-07p".

(** [path = sys.argv[-1]]
    [auto_dir = path if type(path) is str and ".py" not in path else "~/PycharmProjects/auto-07p"]
    The entries of [sys.argv] are strings, so [type(path) is str] holds. *)
Definition auto_dir (argv : list string) : result string :=
  path <- py_last argv ;;
  Ok (if negb (py_in ".py" path) then path else default_auto_dir).

End Bifurcation.

(* ===================================================================== *)
(** * Connection-distance function *)
(* ===================================================================== *)

Local Open Scope R_scope.

(** ** The range of float64

    A float result is the exact real as long as that is within the range of
    float64; beyond it, it is what IEEE arithmetic gives.  A magnitude of at
    least [f64_overflow], which is [2^1024 - 2^970], half a unit in the last
    place above the largest float, rounds to infinity; a magnitude of at most
    [f64_underflow], which is [2^-1075], half the least positive float,
    rounds to zero; [f64_min_normal] is [2^-1022].  The sign of a zero is
    not kept. *)
Definition f64_overflow : R := IZR (2 ^ 1024 - 2 ^ 970).
Definition f64_underflow : R := / IZR (2 ^ 1075).
Definition f64_min_normal : R := / IZR (2 ^ 1022).

Inductive float64 : Type :=
| Fin (r : R)
| PosInf
| NegInf
| NotANumber.

(** The float64 that the exact result [q] of an operation rounds to. *)
Definition f64_round (q : R) : float64 :=
  if Rle_dec f64_overflow q then PosInf
  else if Rle_dec q (- f64_overflow) then NegInf
  else if Rle_dec (Rabs q) f64_underflow then Fin 0
  else Fin q.

(** [float(x)] for a Python [int]: ["int too large to convert to float"]
    beyond the range. *)
Definition py_float (x : Z) : result R :=
  if Rle_dec f64_overflow (Rabs (IZR x)) then Raise OverflowError
  else Ok (IZR x).

(** Python's [a ** b] on floats for [a > 0]: an overflow of the power is an
    [OverflowError], an underflow gives [0.0]. *)
Definition float_pow (a b : R) : result R :=
  match f64_round (Rpower a b) with
  | Fin v => Ok v
  | _ => Raise OverflowError
  end.

(** [x ** b] for a Python [int] [x > 0] and a float [b]: the integer is
    converted to a float first. *)
Definition py_pow (x : Z) (b : R) : result R :=
  a <- py_float x ;; float_pow a b.

(** Python's [a / b] on floats: a zero divisor raises; a quotient beyond
    the range is infinite, without an exception. *)
Definition py_div (a b : R) : result float64 :=
  if Req_dec_T b 0 then Raise ZeroDivisionError else Ok (f64_round (a / b)).

(** [np.exp(n)] for a Python [int] [n]: NumPy converts an integer in the
    range of [int64] or [uint64] to a float64 and does not raise, whatever
    the magnitude of the result; a larger integer becomes a Python object,
    for which [np.exp] has no loop ([TypeError]). *)
Definition np_exp (n : Z) : result float64 :=
  if ((- 2 ^ 63 <=? n) && (n <? 2 ^ 64))%Z then Ok (f64_round (exp (IZR n)))
  else Raise TypeError.

(** [dist(x, method, zero_val, inverse_pow)] for a Python [int] [x], as
    the signature declares it, and finite floats [zero_val] and
    [inverse_pow]. *)
Definition dist (x : Z) (method : string) (zero_val inverse_pow : R)
  : result float64 :=
  if String.eqb method "inverse" then
    if (x >? 0)%Z then v <- py_pow x inverse_pow ;; py_div 1 v
    else Ok (Fin zero_val)
  else if String.eqb method "exp" then
    if (x >? 0)%Z then np_exp (- x) else Ok (Fin zero_val)
  else Raise (ValueError "Invalid method.").

(* ===================================================================== *)
(** * NumPy arrays *)
(* ===================================================================== *)

Definition vector := list R.
Definition matrix := list (list R).

Definition Rsum (l : list R) : R := fold_right Rplus 0 l.

(** [sum_{k < n} f k] *)
Definition bigsum (n : nat) (f : nat -> R) : R := Rsum (map f (seq 0 n)).

Definition nrows (A : matrix) : nat := length A.
Definition ncols (A : matrix) : nat := length (hd [] A).
Definition shape (A : matrix) : nat * nat := (nrows A, ncols A).

(** [A[i, j]] for in-range indices. *)
Definition get (A : matrix) (i j : nat) : R := nth j (nth i A []) 0.

(** The [r x c] array whose entry [(i, j)] is [f i j]. *)
Definition mat_init (r c : nat) (f : nat -> nat -> R) : matrix :=
  map (fun i => map (fun j => f i j) (seq 0 c)) (seq 0 r).

(** Every row has [c] entries and there are [r] rows: a NumPy array of
    shape [(r, c)]. *)
Definition rect (r c : nat) (A : matrix) : Prop :=
  length A = r /\ Forall (fun row => length row = c) A.

Definition np_zeros2 (r c : nat) : matrix := mat_init r c (fun _ _ => 0).
Definition np_eye (n : nat) : matrix :=
  mat_init n n (fun i j => if Nat.eqb i j then 1 else 0).

(** [A.T] *)
Definition transpose (A : matrix) : matrix :=
  mat_init (ncols A) (nrows A) (fun i j => get A j i).

(** Elementwise [A + B], [A - B] of arrays of one shape, and [a * A]. *)
Definition mat_add (A B : matrix) : matrix :=
  mat_init (nrows A) (ncols A) (fun i j => get A i j + get B i j).
Definition mat_sub (A B : matrix) : matrix :=
  mat_init (nrows A) (ncols A) (fun i j => get A i j - get B i j).
Definition mat_scale (a : R) (A : matrix) : matrix :=
  mat_init (nrows A) (ncols A) (fun i j => a * get A i j).

Definition shape_eqb (A B : matrix) : bool :=
  Nat.eqb (nrows A) (nrows B) && Nat.eqb (ncols A) (ncols B).

Definition shape_error : exn := ValueError "operands have mismatching shapes".

(** [A @ B] for 2-D operands. *)
Definition matmul (A B : matrix) : result matrix :=
  if Nat.eqb (ncols A) (nrows B) then
    Ok (mat_init (nrows A) (ncols B)
          (fun i j => bigsum (ncols A) (fun k => get A i k * get B k j)))
  else Raise shape_error.

(** [A @ v] for a 2-D [A] and a 1-D [v]. *)
Definition matvec (A : matrix) (v : vector) : result vector :=
  if Nat.eqb (ncols A) (length v) then
    Ok (map (fun i => bigsum (ncols A) (fun k => get A i k * nth k v 0))
            (seq 0 (nrows A)))
  else Raise shape_error.

(** [v @ A] for a 1-D [v] and a 2-D [A]. *)
Definition vecmat (v : vector) (A : matrix) : result vector :=
  if Nat.eqb (length v) (nrows A) then
    Ok (map (fun j => bigsum (length v) (fun k => nth k v 0 * get A k j))
            (seq 0 (ncols A)))
  else Raise shape_error.

(** [np.mean(ms, axis=0)] for a Python list [ms] of 2-D arrays.  Arrays of
    different shapes cannot be stacked ([ValueError]).  On the empty list
    NumPy yields the scalar [nan]; the script then stops with a
    [LinAlgError] at [np.linalg.inv] (line 212) before anything else is
    observable, which is the outcome reported here. *)
Definition np_mean0 (ms : list matrix) : result matrix :=
  match ms with
  | [] => Raise LinAlgError
  | m :: _ =>
      if forallb (shape_eqb m) ms then
        Ok (mat_init (nrows m) (ncols m)
              (fun i j => Rsum (map (fun a => get a i j) ms) / INR (length ms)))
      else Raise shape_error
  end.

(** Arrays of dimension at most two, as [mse] receives them. *)
Inductive ndarray : Type :=
| Scalar (a : R)
| Vec (v : vector)
| Mat (m : matrix).

Definition arr_map (f : R -> R) (x : ndarray) : ndarray :=
  match x with
  | Scalar a => Scalar (f a)
  | Vec v => Vec (map f v)
  | Mat m => Mat (map (map f) m)
  end.

(** [x.flatten()] *)
Definition flatten (x : ndarray) : list R :=
  match x with
  | Scalar a => [a]
  | Vec v => v
  | Mat m => concat m
  end.

Definition squeeze_vec (v : vector) : ndarray :=
  match v with
  | [a] => Scalar a
  | _ => Vec v
  end.

(** [x.squeeze()]: axes of length one are dropped. *)
Definition squeeze (x : ndarray) : ndarray :=
  match x with
  | Scalar a => Scalar a
  | Vec v => squeeze_vec v
  | Mat m =>
      match m with
      | [row] => squeeze_vec row
      | _ =>
          if forallb (fun row => Nat.eqb (length row) 1) m
          then match m with
               | [] => Mat m
               | _ => Vec (map (fun row => hd 0 row) m)
               end
          else Mat m
      end
  end.

(** [np.max] of a flattened array. *)
Definition np_max (l : list R) : result R :=
  match l with
  | [] => Raise (ValueError "zero-size array to reduction operation maximum which has no identity")
  | a :: l' => Ok (fold_left Rmax l' a)
  end.

(** [np.mean] of a flattened array. *)
Definition np_mean (l : list R) : R := Rsum l / INR (length l).

(** Broadcasting of a binary operation along one axis: equal lengths pair
    up, a length-one operand is repeated, anything else is an error. *)
Definition broadcast1 {A B C : Type} (f : A -> B -> result C)
    (u : list A) (v : list B) : result (list C) :=
  if Nat.eqb (length u) (length v) then
    mapM (fun p => f (fst p) (snd p)) (combine u v)
  else match u, v with
       | [a], _ => mapM (fun b => f a b) v
       | _, [b] => mapM (fun a => f a b) u
       | _, _ => Raise shape_error
       end.

Definition broadcast_vec (f : R -> R -> R) (u v : vector) : result vector :=
  broadcast1 (fun a b => Ok (f a b)) u v.

(** [f(x, y)] elementwise with NumPy broadcasting. *)
Definition broadcast (f : R -> R -> R) (x y : ndarray) : result ndarray :=
  match x, y with
  | Scalar a, _ => Ok (arr_map (f a) y)
  | _, Scalar b => Ok (arr_map (fun a => f a b) x)
  | Vec u, Vec v => bind (broadcast_vec f u v) (fun w => Ok (Vec w))
  | Vec u, Mat m => bind (mapM (broadcast_vec f u) m) (fun w => Ok (Mat w))
  | Mat m, Vec v =>
      bind (mapM (fun row => broadcast_vec f row v) m) (fun w => Ok (Mat w))
  | Mat m, Mat m' =>
      bind (broadcast1 (broadcast_vec f) m m') (fun w => Ok (Mat w))
  end.

(** A Python float: a real number or [nan]. *)
Inductive pyfloat : Type :=
| Finite (r : R)
| NaN.

Definition is_zero (r : R) : bool := if Req_dec_T r 0 then true else false.

(** [mse(x, y)].  NumPy's array division does not raise on a zero divisor:
    when a maximum is zero, the entry that attains it becomes [0/0 = nan],
    which reaches the mean, so the returned float is [nan]. *)
Definition mse (x y : ndarray) : result pyfloat :=
  mx <- np_max (flatten x) ;;
  my <- np_max (flatten y) ;;
  d <- broadcast Rminus (arr_map (fun a => a / mx) (squeeze x))
                        (arr_map (fun a => a / my) (squeeze y)) ;;
  Ok (if is_zero mx || is_zero my then NaN
      else Finite (np_mean (map (fun e => e ^ 2) (flatten d)))).

(* ===================================================================== *)
(** * Kernel estimation and evaluation (lines 190-229 of the script) *)
(* ===================================================================== *)

(** [l[i]] on a Python list; a negative index counts from the end. *)
Definition py_index {A : Type} (l : list A) (i : Z) : result A :=
  let n := Z.of_nat (length l) in
  let k := if (i <? 0)%Z then (i + n)%Z else i in
  if ((0 <=? k) && (k <? n))%Z then
    match nth_error l (Z.to_nat k) with
    | Some a => Ok a
    | None => Raise IndexError
    end
  else Raise IndexError.

(** [get_c(X, alpha) = X @ X.T + alpha*np.eye(X.shape[0])] *)
Definition get_c (X : matrix) (alpha : R) : result matrix :=
  XXt <- matmul X (transpose X) ;;
  Ok (mat_add XXt (mat_scale alpha (np_eye (nrows X)))).

(** The estimated quantities of lines 210-215. *)
Record kernel : Type := {
  s_mean : matrix;
  s_var : matrix;
  C_inv : matrix;
  w : matrix;
  K : matrix;
  G : matrix
}.

(** What the loop of lines 223-229 appends for one target. *)
Record target_eval : Type := {
  train_prediction : vector;
  train_distortion : vector;
  readout : vector;
  test_prediction : list vector;
  mses : list pyfloat
}.

Record report : Type := {
  dims : list pyfloat;
  fit : kernel;
  evals : list target_eval
}.

Section Analysis.

(** [np.linalg.inv], and the participation ratio that lines 202-204 obtain
    from [np.cov] and [np.linalg.eigvals]: library routines, which may
    raise; the ratio may also be [nan]. *)
Variable linalg_inv : matrix -> result matrix.
Variable network_dim : matrix -> result pyfloat.

(** Lines 197-207: one dimensionality and one covariance per training
    trial, in trial order. *)
Definition covariances (train_signals : list matrix) (gamma : R)
  : result (list (pyfloat * matrix)) :=
  mapM (fun s =>
          d <- network_dim s ;;
          c <- get_c s gamma ;;
          Ok (d, c)) train_signals.

(** Lines 210-215. *)
Definition estimate_kernel (train_signals cs : list matrix) : result kernel :=
  s_mean <- np_mean0 train_signals ;;
  s_var <- np_mean0 (map (fun s_i => mat_sub s_i s_mean) train_signals) ;;
  C_mean <- np_mean0 cs ;;
  C_inv <- linalg_inv C_mean ;;
  w <- matmul C_inv s_mean ;;
  K <- matmul (transpose s_mean) w ;;
  G <- matmul (transpose s_var) w ;;
  Ok {| s_mean := s_mean; s_var := s_var; C_inv := C_inv;
        w := w; K := K; G := G |}.

(** The body of the loop of lines 223-229. *)
Definition evaluate_target (k : kernel) (test_signals : list matrix)
    (target : vector) : result target_eval :=
  tp <- matvec (K k) target ;;
  td <- matvec (G k) target ;;
  w_readout <- matvec (w k) target ;;
  preds <- mapM (fun test_sig => vecmat w_readout test_sig) test_signals ;;
  ms <- mapM (fun test_sig => mse (Vec target) (Mat test_sig)) test_signals ;;
  Ok {| train_prediction := tp; train_distortion := td; readout := w_readout;
        test_prediction := preds; mses := ms |}.

Definition evaluate (k : kernel) (targets : list vector)
    (test_signals : list matrix) : result (list target_eval) :=
  mapM (evaluate_target k test_signals) targets.

(** Lines 190-229: split the recorded trials, estimate, evaluate.  The
    phases of lines 193-194 are selected with the same indices from an array
    as long as [signals] and only feed the plots. *)
Definition analysis (signals : list matrix) (train_trials test_trials : list Z)
    (targets : list vector) (gamma : R) : result report :=
  train_signals <- mapM (py_index signals) train_trials ;;
  test_signals <- mapM (py_index signals) test_trials ;;
  dcs <- covariances train_signals gamma ;;
  k <- estimate_kernel train_signals (map snd dcs) ;;
  ev <- evaluate k targets test_signals ;;
  Ok {| dims := map fst dcs; fit := k; evals := ev |}.

End Analysis.

(** The inverse in exact arithmetic: adjugate over determinant, the
    determinant by expansion along the first row.  [LinAlgError] for a
    matrix that is not square or is singular. *)
Definition drop_nth {A : Type} (k : nat) (l : list A) : list A :=
  firstn k l ++ skipn (S k) l.

Definition minor (A : matrix) (i j : nat) : matrix :=
  map (drop_nth j) (drop_nth i A).

Fixpoint det (n : nat) (A : matrix) : R :=
  match n with
  | O => 1
  | S n' => bigsum n (fun j => (-1) ^ j * get A 0 j * det n' (minor A 0 j))
  end.

Definition np_linalg_inv (A : matrix) : result matrix :=
  let n := nrows A in
  if forallb (fun row => Nat.eqb (length row) n) A then
    if is_zero (det n A) then Raise LinAlgError
    else Ok (mat_init n n
               (fun i j => (-1) ^ (i + j) * det (n - 1) (minor A j i) / det n A))
  else Raise LinAlgError.

(* ===================================================================== *)
(** * Stimulus generation and the trial loop ([get_signals]) *)
(* ===================================================================== *)

(** [int(np.round(a / b))] for integers [a] and [b <> 0]: the quotient
    rounded to the nearest integer, a tie to the even one.  The code rounds
    the float64 nearest to the quotient.  For [|a| < 2^52] that float lies
    on the same side of every half-integer as the quotient itself, so that
    both round to the same integer; larger operands (the script has
    [cycle_steps = 25000] and [sr = 10]) are outside the modelled domain. *)
Definition round_div (a b : Z) : Z :=
  let q := (a / b)%Z in
  let r := (a mod b)%Z in
  match (2 * Z.abs r ?= Z.abs b)%Z with
  | Lt => q
  | Gt => (q + 1)%Z
  | Eq => if Z.even q then q else (q + 1)%Z
  end.

(** A slice bound against an axis of length [len]: a negative bound
    counts from the end, and the result is clipped to [0 .. len]. *)
Definition clamp_index (len i : Z) : Z :=
  let k := if (i <? 0)%Z then (i + len)%Z else i in
  Z.max 0 (Z.min len k).

(** [l[lo:]] *)
Definition py_slice_from {A : Type} (l : list A) (lo : Z) : list A :=
  skipn (Z.to_nat (clamp_index (Z.of_nat (length l)) lo)) l.

(** An integer index into an axis of length [len]; out of bounds is an
    [IndexError]. *)
Definition norm_index (len i : Z) : result nat :=
  let k := if (i <? 0)%Z then (i + len)%Z else i in
  if ((0 <=? k) && (k <? len))%Z then Ok (Z.to_nat k) else Raise IndexError.

(** The elements at positions [skip], [skip + k], [skip + 2k], ... *)
Fixpoint take_every {A : Type} (k skip : nat) (l : list A) : list A :=
  match l with
  | [] => []
  | a :: l' =>
      match skip with
      | O => a :: take_every k (k - 1) l'
      | S s => take_every k s l'
      end
  end.

(** [l[::step]] *)
Definition py_stride {A : Type} (l : list A) (step : Z) : result (list A) :=
  if (step =? 0)%Z then Raise (ValueError "slice step cannot be zero")
  else if (0 <? step)%Z then Ok (take_every (Z.to_nat step) 0 l)
  else Ok (take_every (Z.to_nat (- step)) 0 (rev l)).

(** The channel that an index in [-N .. N-1] addresses on an axis of
    length [N]. *)
Definition channel_of (N idx : Z) : Z :=
  if (idx <? 0)%Z then (idx + N)%Z else idx.

(** The network simulator: [net.reset(y0)], and [net.run(inputs=inp,
    sampling_steps=sr, ...)] followed by [obs.to_numpy("out")], which yields
    a samples-by-channels array or propagates the simulator's exception;
    both act on the simulator's internal state. *)
Record Network : Type := {
  net_state : Type;
  net_reset : net_state -> net_state -> net_state;
  net_run : net_state -> matrix -> Z -> result matrix * net_state
}.

(** [gaussian_filter1d(m, sigma=sigma, axis=0)]: the result has the shape of
    its argument. *)
Record Smoother : Type := {
  gaussian_filter1d : R -> matrix -> matrix;
  gaussian_filter1d_rect :
    forall (sigma : R) (r c : nat) (m : matrix),
      rect r c m -> rect r c (gaussian_filter1d sigma m)
}.

(** What a call of [get_signals] does to the outside world, in order. *)
Inductive event : Type :=
| CallReset
| CallRun (inp : matrix) (sr : Z)
| Printed (trial n_trials : nat).

Definition run_inputs (evs : list event) : list matrix :=
  flat_map (fun ev => match ev with CallRun inp _ => [inp] | _ => [] end) evs.

(** The calls that a simulator receives: [net.reset(y0)] with its
    argument, and [net.run(inputs=inp, sampling_steps=sr, ...)] with the
    state that the network is in when it is called. *)
Inductive call (S : Type) : Type :=
| DidReset (y0 : S)
| DidRun (before : S) (inp : matrix) (sr : Z).

(** The network [net] observed: it behaves as [net] and keeps, beside the
    state of [net], the calls that it has received, in their order. *)
Definition recording (net : Network) : Network :=
  {| net_state := net_state net * list (call (net_state net));
     net_reset := fun st y0 =>
       (net_reset net (fst st) (fst y0), snd st ++ [DidReset (fst y0)]);
     net_run := fun st inp sr =>
       let '(obs, st') := net_run net (fst st) inp sr in
       (obs, (st', snd st ++ [DidRun (fst st) inp sr])) |}.

(** In [log] every call of [run] uses the stride [sr], comes directly after
    a call of [reset] with the argument [y0], and starts from the state
    that this reset has produced. *)
Definition run_after_reset (net : Network) (y0 : net_state net) (sr : Z)
    (log : list (call (net_state net))) : Prop :=
  forall pre before inp sr' post,
    log = pre ++ DidRun before inp sr' :: post ->
    sr' = sr
    /\ exists pre' s, pre = pre' ++ [DidReset y0] /\ before = net_reset net s y0.

Section GetSignals.

Variable net : Network.
Variable filt : Smoother.

(** The module-level constants that [get_signals] reads. *)
Variable N : Z.
Variable stim_width : Z.
Variable alpha : R.

(** Lines 45-46: [inp = np.zeros((stim + cycle_steps, N))] and
    [inp[stim:stim + stim_width, inp_indices] = alpha]. *)
Definition stimulus (stim cycle_steps : Z) (inp_indices : list Z) : result matrix :=
  let rows := (stim + cycle_steps)%Z in
  if ((rows <? 0) || (N <? 0))%Z
  then Raise (ValueError "negative dimensions are not allowed")
  else
    js <- mapM (norm_index N) inp_indices ;;
    Ok (mat_init (Z.to_nat rows) (Z.to_nat N)
          (fun i j =>
             if (Nat.leb (Z.to_nat (clamp_index rows stim)) i
                 && Nat.ltb i (Z.to_nat (clamp_index rows (stim + stim_width)))
                 && existsb (Nat.eqb j) js)%bool
             then alpha else 0)).

(** Line 52: [inp[::sr, inp_indices[0]][-start:]]. *)
Definition input_trace (inp : matrix) (sr start : Z) (inp_indices : list Z)
  : result vector :=
  j0 <- py_index inp_indices 0 ;;
  j <- norm_index N j0 ;;
  rows <- py_stride inp sr ;;
  Ok (py_slice_from (map (fun row => nth j row 0) rows) (- start)).

(** One pass through the loop body (lines 45-53) for the trial with index
    [i] of [n]: the appended signal and input trace, the simulator's state
    and the events, also when an exception ends the pass. *)
Definition trial (y0 : net_state net) (cycle_steps sr start : Z)
    (inp_indices : list Z) (sigma : R) (i n : nat) (stim : Z)
    (st : net_state net)
  : result (matrix * vector) * net_state net * list event :=
  match stimulus stim cycle_steps inp_indices with
  | Raise e => (Raise e, st, [])
  | Ok inp0 =>
      let inp := gaussian_filter1d filt sigma inp0 in
      let st1 := net_reset net st y0 in
      let '(obs, st2) := net_run net st1 inp sr in
      match obs with
      | Raise e => (Raise e, st2, [CallReset; CallRun inp sr])
      | Ok out =>
          let res := py_slice_from out (- start) in
          let signal := transpose (gaussian_filter1d filt sigma res) in
          match input_trace inp sr start inp_indices with
          | Raise e => (Raise e, st2, [CallReset; CallRun inp sr])
          | Ok trace =>
              (Ok (signal, trace), st2, [CallReset; CallRun inp sr; Printed (i + 1) n])
          end
      end
  end.

(** The loop of lines 44-53 from trial [i] on. *)
Fixpoint trials (y0 : net_state net) (cycle_steps sr start : Z)
    (inp_indices : list Z) (sigma : R) (n i : nat) (stim_onsets : list Z)
    (st : net_state net)
  : result (list matrix * list vector) * net_state net * list event :=
  match stim_onsets with
  | [] => (Ok ([], []), st, [])
  | stim :: rest =>
      match trial y0 cycle_steps sr start inp_indices sigma i n stim st with
      | (Raise e, st1, evs) => (Raise e, st1, evs)
      | (Ok (signal, trace), st1, evs) =>
          match trials y0 cycle_steps sr start inp_indices sigma n (S i) rest st1 with
          | (Raise e, st2, evs') => (Raise e, st2, evs ++ evs')
          | (Ok (signals, inputs), st2, evs') =>
              (Ok (signal :: signals, trace :: inputs), st2, evs ++ evs')
          end
      end
  end.

(** [get_signals(stim_onsets, cycle_steps, sr, net, y0, inp_indices, sigma)],
    started with the simulator in state [st]. *)
Definition get_signals (stim_onsets : list Z) (cycle_steps sr : Z)
    (y0 : net_state net) (inp_indices : list Z) (sigma : R) (st : net_state net)
  : result (list matrix * list vector) * net_state net * list event :=
  if (sr =? 0)%Z then (Raise ZeroDivisionError, st, [])
  else
    let start := round_div cycle_steps sr in
    trials y0 cycle_steps sr start inp_indices sigma
      (length stim_onsets) 0 stim_onsets st.

End GetSignals.

(** A network without dynamics, whose output is its sub-sampled input, and
    the filter in the limit of a vanishing width. *)
Definition echo_run (st : unit) (inp : matrix) (sr : Z) : result matrix * unit :=
  (py_stride inp sr, st).

Definition echo_net : Network :=
  {| net_state := unit;
     net_reset := fun _ y0 => y0;
     net_run := echo_run |}.

Definition no_smoothing : Smoother :=
  {| gaussian_filter1d := fun _ m => m;
     gaussian_filter1d_rect := fun _ _ _ _ H => H |}.

(** A network that simulates at most [limit] time steps in one call and
    raises for a longer input. *)
Definition bounded_net (limit : nat) : Network :=
  {| net_state := unit;
     net_reset := fun _ y0 => y0;
     net_run := fun st inp sr =>
       if Nat.leb (nrows inp) limit then echo_run st inp sr
       else (Raise (ValueError "too many time steps"), st) |}.

(* ===================================================================== *)
(** * Conditioning of the regularised covariance *)
(* ===================================================================== *)

Definition vscale (a : R) (v : vector) : vector := map (Rmult a) v.

(** [lam] is an eigenvalue of the square array [A]: [A @ v = lam * v] for
    some nonzero [v]. *)
Definition eigenvalue (A : matrix) (lam : R) : Prop :=
  exists v : vector,
    length v = nrows A /\ v <> repeat 0 (nrows A)
    /\ matvec A v = Ok (vscale lam v).

Definition symmetric (A : matrix) : Prop := forall i j, get A i j = get A j i.

(** [v.T @ A @ v] *)
Definition quad_form (A : matrix) (v : vector) : R :=
  bigsum (nrows A)
    (fun i => nth i v 0 * bigsum (nrows A) (fun j => get A i j * nth j v 0)).

Definition psd (A : matrix) : Prop :=
  forall v : vector, length v = nrows A -> 0 <= quad_form A v.

(** The 2-norm condition number of a nonsingular symmetric matrix: the
    ratio of the largest to the smallest absolute value of its
    eigenvalues. *)
Definition is_cond (A : matrix) (kappa : R) : Prop :=
  exists lmax lmin : R,
    eigenvalue A lmax /\ eigenvalue A lmin
    /\ (forall l, eigenvalue A l -> Rabs lmin <= Rabs l <= Rabs lmax)
    /\ lmin <> 0
    /\ kappa = Rabs lmax / Rabs lmin.

(** The mean over the training trials of [S_i @ S_i.T], entry by entry. *)
Definition mean_gram (N steps : nat) (train : list matrix) : matrix :=
  mat_init N N
    (fun i j =>
       Rsum (map (fun s => bigsum steps (fun k => get s i k * get s j k)) train)
       / INR (length train)).

(* ===================================================================== *)
(** * A two-channel, two-step run used in the examples *)
(* ===================================================================== *)

Definition I2 : matrix := [[1; 0]; [0; 1]].
Definition swap2 : matrix := [[0; 1]; [1; 0]].
Definition diag12 : matrix := [[1; 0]; [0; 2]].

(** The participation ratio of the training trials used below, [I2] and
    [diag12]: the covariance of their two channels has a single nonzero
    eigenvalue, so that the ratio is 1. *)
Definition example_dim (s : matrix) : result pyfloat := Ok (Finite 1).

Definition example_kernel : kernel :=
  {| s_mean := I2;
     s_var := [[0; 0]; [0; 0]];
     C_inv := [[1 / 2; 0]; [0; 1 / 2]];
     w := [[1 / 2; 0]; [0; 1 / 2]];
     K := [[1 / 2; 0]; [0; 1 / 2]];
     G := [[0; 0]; [0; 0]] |}.

(** Training trial [I2], test trial [I2], target [[1; 2]]. *)
Definition example_report_a : report :=
  {| dims := [Finite 1];
     fit := example_kernel;
     evals := [ {| train_prediction := [1 / 2; 1];
                   train_distortion := [0; 0];
                   readout := [1 / 2; 1];
                   test_prediction := [[1 / 2; 1]];
                   mses := [Finite (3 / 8)] |} ] |}.

(** Training trial [I2], test trial [swap2], target [[2; 1]]. *)
Definition example_report_b : report :=
  {| dims := [Finite 1];
     fit := example_kernel;
     evals := [ {| train_prediction := [1; 1 / 2];
                   train_distortion := [0; 0];
                   readout := [1; 1 / 2];
                   test_prediction := [[1 / 2; 1]];
                   mses := [Finite (3 / 8)] |} ] |}.

(* ===================================================================== *)
(** * Heterogeneous thresholds ([lorentzian]) *)
(* ===================================================================== *)

(** [s <= lb or s >= ub] *)
Definition rejected (lb ub s : R) : bool :=
  if Rle_dec s lb then true else if Rle_dec ub s then true else false.

Section Lorentzian.

(** [rvs loc scale k] is the value that the [k]-th call of
    [cauchy.rvs(loc=loc, scale=scale)] returns in this process. *)
Variable rvs : R -> R -> nat -> R.

Variables eta delta lb ub : R.

(** Lines 20-22: draw, and draw again while the value is rejected.  [k]
    counts the calls of the sampler made so far; [fuel] bounds the draws of
    one trip through the [while] loop, and [None] is a loop still running
    when the fuel is spent. *)
Fixpoint draw_accepted (fuel k : nat) : option (R * nat) :=
  match fuel with
  | O => None
  | S fuel' =>
      let s := rvs eta delta k in
      if rejected lb ub s then draw_accepted fuel' (S k) else Some (s, S k)
  end.

(** The [for] loop of lines 19-23 for [m] remaining entries. *)
Fixpoint fill_samples (fuel m k : nat) : option (list R * nat) :=
  match m with
  | O => Some ([], k)
  | S m' =>
      match draw_accepted fuel k with
      | None => None
      | Some (s, k') =>
          match fill_samples fuel m' k' with
          | None => None
          | Some (samples, k'') => Some (s :: samples, k'')
          end
      end
  end.

(** [lorentzian(n, eta, delta, lb, ub)]: the samples and the number of draws
    made. *)
Definition lorentzian (fuel : nat) (n : Z) : option (result (list R * nat)) :=
  if (n <? 0)%Z
  then Some (Raise (ValueError "negative dimensions are not allowed"))
  else option_map Ok (fill_samples fuel (Z.to_nat n) 0).

End Lorentzian.

(** A sampler that alternates between [loc - scale] and [loc + scale]. *)
Definition alternating_rvs (loc scale : R) (k : nat) : R :=
  if Nat.even k then loc - scale else loc + scale.

(* ===================================================================== *)
(** * Connection probabilities (lines 154-155) *)
(* ===================================================================== *)

(** Line 154 calls [dist] on the entries of
    [indices = np.arange(0, N, dtype=np.int32)], NumPy integers, for which
    the arithmetic of [dist] is that of NumPy scalars: it does not raise,
    a power beyond the range is [inf], and a division by zero is [inf] or
    [nan].  [N] is within the range of the index type. *)
Definition np_div (a b : float64) : float64 :=
  match a, b with
  | NotANumber, _ | _, NotANumber => NotANumber
  | Fin x, Fin y =>
      if is_zero y then
        if is_zero x then NotANumber else if Rlt_dec 0 x then PosInf else NegInf
      else f64_round (x / y)
  | Fin _, _ => Fin 0
  | PosInf, Fin y => if Rle_dec 0 y then PosInf else NegInf
  | NegInf, Fin y => if Rle_dec 0 y then NegInf else PosInf
  | _, _ => NotANumber
  end.

(** A sum of two floats is exact where it is small, so that it does not
    underflow. *)
Definition np_add (a b : float64) : float64 :=
  match a, b with
  | NotANumber, _ | _, NotANumber => NotANumber
  | Fin x, Fin y =>
      if Rle_dec f64_overflow (x + y) then PosInf
      else if Rle_dec (x + y) (- f64_overflow) then NegInf
      else Fin (x + y)
  | PosInf, NegInf | NegInf, PosInf => NotANumber
  | PosInf, _ | _, PosInf => PosInf
  | _, _ => NegInf
  end.

(** [np.sum]; in exact arithmetic the order of the additions plays no role
    for the non-negative entries of this table. *)
Definition np_sum (l : list float64) : float64 := fold_left np_add l (Fin 0).

(** [dist(idx, method="inverse", zero_val=zero_val, inverse_pow=inverse_pow)]
    for a NumPy integer [idx]. *)
Definition np_dist_inverse (idx : Z) (zero_val inverse_pow : R) : float64 :=
  if (idx >? 0)%Z then np_div (Fin 1) (f64_round (Rpower (IZR idx) inverse_pow))
  else Fin zero_val.

(** The entry of index [idx] in exact arithmetic. *)
Definition weight (conn_pow : R) (idx : nat) : R :=
  if (0 <? Z.of_nat idx)%Z then 1 / Rpower (IZR (Z.of_nat idx)) conn_pow else 0.

(** [pdfs = np.asarray([dist(idx, method="inverse", zero_val=0.0,
    inverse_pow=conn_pow) for idx in indices])] and [pdfs /= np.sum(pdfs)]. *)
Definition connection_pdfs (N : Z) (conn_pow : R) : list float64 :=
  let pdfs := map (fun idx => np_dist_inverse (Z.of_nat idx) 0 conn_pow)
                  (seq 0 (Z.to_nat N)) in
  map (fun p => np_div p (np_sum pdfs)) pdfs.

(* ===================================================================== *)
(** * Training and test trials (lines 133-136) *)
(* ===================================================================== *)

(** [np.arange(0, stop, step)] on integers. *)
Definition np_arange (stop step : Z) : result (list Z) :=
  if (step =? 0)%Z then Raise ZeroDivisionError
  else Ok (map (fun i => (Z.of_nat i * step)%Z)
               (seq 0 (Z.to_nat (Z.max 0 (- (- stop / step)))))).

(** [l.index(t)] *)
Fixpoint list_index (t : Z) (l : list Z) : result nat :=
  match l with
  | [] => Raise (ValueError "x is not in list")
  | a :: l' => if (a =? t)%Z then Ok O else i <- list_index t l' ;; Ok (S i)
  end.

(** [for t in test_trials: train_trials.pop(train_trials.index(t))] *)
Fixpoint pop_tests (test_trials train_trials : list Z) : result (list Z) :=
  match test_trials with
  | [] => Ok train_trials
  | t :: rest =>
      i <- list_index t train_trials ;;
      pop_tests rest (drop_nth i train_trials)
  end.

(** Lines 133-136: the pair [(test_trials, train_trials)]. *)
Definition split_trials (n_stims n_tests : Z) : result (list Z * list Z) :=
  test_trials <- np_arange n_stims n_tests ;;
  all_trials <- np_arange n_stims 1 ;;
  train_trials <- pop_tests test_trials all_trials ;;
  Ok (test_trials, train_trials).

(* ===================================================================== *)
(** * The first target (lines 139-142) *)
(* ===================================================================== *)

(** Line 139. *)
Definition delay : Z := 1500.

(** Lines 140-142: [steps = int(np.round(cycle_steps / sr))],
    [target_1 = np.zeros((steps,))] and [target_1[delay] = 1.0], the array
    before the smoothing of line 143.  The script runs these lines before
    its only call of [get_signals] (line 186), with the same [cycle_steps]
    and [sr]. *)
Definition target_1 (cycle_steps sr : Z) : result vector :=
  if (sr =? 0)%Z then Raise ZeroDivisionError
  else
    let steps := round_div cycle_steps sr in
    if (steps <? 0)%Z then Raise (ValueError "negative dimensions are not allowed")
    else
      k <- norm_index steps delay ;;
      Ok (map (fun i => if Nat.eqb i k then 1 else 0) (seq 0 (Z.to_nat steps))).

(* ===================================================================== *)
(** * Input channels (lines 130-132) *)
(* ===================================================================== *)

(** [np.arange(start, stop)] on integers. *)
Definition np_arange_from (start stop : Z) : list Z :=
  map (fun i => (start + Z.of_nat i)%Z) (seq 0 (Z.to_nat (stop - start))).

(** [int(x)] truncates toward zero, and halving an integer of magnitude up
    to [2^53] is exact in float64, so that [int(N*0.5)] and
    [int(0.5*n_inputs)] are the quotients [Z.quot _ 2] of the integers [N]
    and [n_inputs]; larger integers are outside the modelled domain. *)
Module Script.

Definition center (N : Z) : Z := Z.quot N 2.

Definition inp_indices (N n_inputs : Z) : list Z :=
  np_arange_from (center N - Z.quot n_inputs 2) (center N + Z.quot n_inputs 2).

End Script.

(* ===================================================================== *)
(** * Kernel basis functions (lines 232-237) *)
(* ===================================================================== *)

(** [np.roll(v, shift)]: entry [i] moves to position [(i + shift) mod len]. *)
Definition np_roll (v : vector) (shift : Z) : vector :=
  match length v with
  | O => v
  | S _ =>
      let k := Z.to_nat (shift mod Z.of_nat (length v)) in
      skipn (length v - k) v ++ firstn (length v - k) v
  end.

(** [K_shifted[j, :] = np.roll(K[j, :], shift=int(K.shape[1]/2)-j)] for every
    row [j]. *)
Definition K_shifted (K : matrix) : matrix :=
  map (fun j => np_roll (nth j K []) (Z.of_nat (ncols K) / 2 - Z.of_nat j))
      (seq 0 (nrows K)).

(** [np.diag(K)] *)
Definition K_diag (K : matrix) : vector :=
  map (fun i => get K i i) (seq 0 (Nat.min (nrows K) (ncols K))).

(* ===================================================================== *)
(** * Theorems *)
(* ===================================================================== *)

(** Evaluation of closed expressions over lists of reals. *)
Ltac real_list :=
  repeat match goal with
         | |- Ok _ = Ok _ => apply f_equal
         | |- Finite _ = Finite _ => apply f_equal
         | |- cons _ _ = cons _ _ => apply (f_equal2 cons)
         | |- pair _ _ = pair _ _ => apply f_equal2
         | |- nil = nil => reflexivity
         | |- @eq R _ _ => (lra || (field; lra))
         end.

Ltac unfold_ops :=
  unfold get_c, matmul, matvec, vecmat, transpose, mat_add, mat_sub, mat_scale,
    np_eye, np_mean0, mat_init, bigsum, I2, swap2.

Ltac by_evaluation := unfold_ops; cbn; real_list.

Lemma Rmax_right (a b : R) : a <= b -> Rmax a b = b.
Proof. intros H. unfold Rmax. destruct (Rle_dec a b); [reflexivity | contradiction]. Defined.

Lemma Rmax_left (a b : R) : b <= a -> Rmax a b = a.
Proof. intros H. unfold Rmax. destruct (Rle_dec a b); lra. Qed.

Ltac eval_Rmax :=
  repeat match goal with
         | |- context [Rmax ?a ?b] =>
             first [ rewrite (@Rmax_right a b) by lra
                   | rewrite (@Rmax_left a b) by lra ]
         end.

Module BifurcationFacts.
Import Bifurcation.
Local Open Scope string_scope.

Lemma prefix_app (sub b : string) : String.prefix sub (sub ++ b) = true.
Proof.
  induction sub as [|c sub IH]; simpl.
  - now destruct b.
  - destruct (Ascii.ascii_dec c c) as [_|n]; [exact IH | now elim n].
Qed.

Lemma py_in_app (sub a b : string) : py_in sub (a ++ sub ++ b) = true.
Proof.
  induction a as [|c a IH]; simpl.
  - pose proof (prefix_app sub b) as P.
    destruct (sub ++ b) eqn:E; simpl.
    + exact P.
    + simpl in P. rewrite P. reflexivity.
  - rewrite IH. apply orb_true_r.
Qed.

Lemma prefix_split (sub s : string) :
  String.prefix sub s = true -> exists b, s = sub ++ b.
Proof.
  revert s; induction sub as [|c sub IH]; intros s H.
  - exists s. reflexivity.
  - destruct s as [|d s]; simpl in H; [discriminate|].
    destruct (Ascii.ascii_dec c d) as [->|]; [|discriminate].
    destruct (IH _ H) as [b ->]. now exists b.
Qed.

(** [py_in] is the substring test. *)
Lemma py_in_spec (sub s : string) :
  py_in sub s = true <-> exists a b, s = a ++ sub ++ b.
Proof.
  split.
  - induction s as [|c s IH]; cbn [py_in]; intros H.
    + destruct (prefix_split _ _ H) as [b Hb]. now exists "", b.
    + apply orb_true_iff in H as [H|H].
      * destruct (prefix_split sub (String c s) H) as [b Hb]. now exists "", b.
      * destruct (IH H) as (a & b & ->). now exists (String c a), b.
  - intros (a & b & ->). apply py_in_app.
Qed.

Lemma py_last_snoc {A : Type} (pre : list A) (x : A) : py_last (pre ++ [x])%list = Ok x.
Proof.
  induction pre as [|a pre IH]; simpl; [reflexivity|].
  destruct (pre ++ [x])%list eqn:E; [now destruct pre | exact IH].
Qed.

(** C10. The installation directory is the last [argv] entry exactly when
    that entry does not contain [".py"] as a substring; otherwise it is the
    hardcoded default.  So a supplied positional argument is used (here
    ["/opt/auto/07p"]), a malformed one that contains [".py"] is replaced by
    the default, and an omitted argument (argv ending in the script's own
    [.py] name) falls back to the default. *)
Theorem auto_dir_from_last_argument :
  (forall (pre : list string) (path : string),
      ((forall a b, path <> a ++ ".py" ++ b) ->
       auto_dir (pre ++ [path])%list = Ok path)
      /\ ((exists a b, path = a ++ ".py" ++ b) ->
          auto_dir (pre ++ [path])%list = Ok default_auto_dir)
      /\ (auto_dir (pre ++ [path])%list = Ok path
          <-> forall a b, path <> a ++ ".py" ++ b))
  /\ (forall stem : string, auto_dir [stem ++ ".py"] = Ok default_auto_dir)
  /\ auto_dir ["bifurcation_rs.py"; "/opt/auto/07p"] = Ok "/opt/auto/07p"
  /\ auto_dir ["bifurcation_rs.py"; "~/auto.py/07p"]
     = Ok "~/PycharmProjects/auto-07p"
  /\ auto_dir ["bifurcation_fs.py"] = Ok "~/PycharmProjects/auto-07p".
Proof.
  assert (G : forall pre path, auto_dir (pre ++ [path])%list
      = Ok (if py_in ".py" path then default_auto_dir else path)).
  { intros pre path. unfold auto_dir. rewrite py_last_snoc. simpl.
    now destruct (py_in ".py" path). }
  assert (Hno : forall path, (forall a b, path <> a ++ ".py" ++ b) ->
                             py_in ".py" path = false).
  { intros path Hpath. destruct (py_in ".py" path) eqn:E; [|reflexivity].
    apply py_in_spec in E as (a & b & E). now elim (Hpath a b). }
  assert (Hyes : forall path, (exists a b, path = a ++ ".py" ++ b) ->
                              py_in ".py" path = true).
  { intros path Hpath. now apply py_in_spec. }
  split; [|split; [|split; [|split]]].
  - intros pre path. split; [|split; [|split]].
    + intros Hpath. now rewrite G, (Hno path Hpath).
    + intros Hpath. now rewrite G, (Hyes path Hpath).
    + rewrite G. intros H a b ->.
      rewrite py_in_app in H. injection H as H.
      assert (D : py_in ".py" default_auto_dir = true)
        by (rewrite H; exact (py_in_app ".py" a b)).
      discriminate D.
    + intros Hpath. now rewrite G, (Hno path Hpath).
  - intros stem. pose proof (G [] (stem ++ ".py")) as G0.
    cbn [app] in G0. rewrite G0.
    replace (stem ++ ".py") with (stem ++ ".py" ++ "") by reflexivity.
    now rewrite py_in_app.
  - reflexivity.
  - reflexivity.
  - reflexivity.
Qed.

End BifurcationFacts.

Section DistFacts.

Lemma f64_underflow_pos : 0 < f64_underflow.
Proof.
  unfold f64_underflow. apply Rinv_0_lt_compat. apply IZR_lt. now vm_compute.
Qed.

Lemma f64_overflow_large : IZR (2 ^ 31) < f64_overflow.
Proof. unfold f64_overflow. apply IZR_lt. now vm_compute. Qed.

Lemma f64_overflow_gt_1 : 1 < f64_overflow.
Proof.
  apply Rlt_trans with (2 := f64_overflow_large). apply IZR_lt. now vm_compute.
Qed.

(** [2^-1075 * (2^1024 * 2^31) < 1]. *)
Lemma f64_underflow_small : f64_underflow * (f64_overflow * IZR (2 ^ 31)) < 1.
Proof.
  unfold f64_underflow, f64_overflow. rewrite <- mult_IZR.
  assert (H : 0 < IZR (2 ^ 1075)) by (apply IZR_lt; now vm_compute).
  apply (Rmult_lt_reg_l (IZR (2 ^ 1075))); [exact H|].
  rewrite <- Rmult_assoc, Rinv_r, Rmult_1_l, Rmult_1_r by lra.
  apply IZR_lt. now vm_compute.
Qed.

Lemma f64_underflow_overflow : f64_underflow * f64_overflow < 1.
Proof.
  pose proof f64_underflow_small. pose proof f64_underflow_pos.
  pose proof f64_overflow_gt_1.
  assert (1 <= IZR (2 ^ 31)) by (apply IZR_le; now vm_compute).
  nra.
Qed.

Lemma f64_underflow_lt_1 : f64_underflow < 1.
Proof.
  pose proof f64_underflow_overflow. pose proof f64_underflow_pos.
  pose proof f64_overflow_gt_1. nra.
Qed.

Lemma f64_min_normal_above : f64_underflow < f64_min_normal.
Proof.
  unfold f64_underflow, f64_min_normal.
  apply Rinv_lt_contravar.
  - apply Rmult_lt_0_compat; apply IZR_lt; now vm_compute.
  - apply IZR_lt. now vm_compute.
Qed.

(** Within the range a result is the exact real. *)
Lemma f64_round_in_range (q : R) :
  q = 0 \/ f64_underflow < Rabs q -> Rabs q < f64_overflow ->
  f64_round q = Fin q.
Proof.
  intros Hlo Hhi. unfold f64_round.
  pose proof f64_underflow_pos. pose proof f64_overflow_gt_1.
  unfold Rabs in *. destruct (Rcase_abs q).
  - destruct (Rle_dec f64_overflow q); [lra|].
    destruct (Rle_dec q (- f64_overflow)); [lra|].
    destruct (Rle_dec (- q) f64_underflow); [|reflexivity].
    destruct Hlo; [subst; lra | lra].
  - destruct (Rle_dec f64_overflow q); [lra|].
    destruct (Rle_dec q (- f64_overflow)); [lra|].
    destruct (Rle_dec q f64_underflow); [|reflexivity].
    destruct Hlo as [->|]; [reflexivity | lra].
Qed.

Lemma f64_round_overflow (q : R) : f64_overflow <= q -> f64_round q = PosInf.
Proof. intros H. unfold f64_round. now destruct (Rle_dec f64_overflow q). Qed.

Lemma f64_round_underflow (q : R) :
  0 <= q <= f64_underflow -> f64_round q = Fin 0.
Proof.
  intros H. unfold f64_round.
  pose proof f64_underflow_lt_1. pose proof f64_overflow_gt_1.
  destruct (Rle_dec f64_overflow q); [lra|].
  destruct (Rle_dec q (- f64_overflow)); [lra|].
  rewrite Rabs_right by lra.
  destruct (Rle_dec q f64_underflow); [reflexivity | lra].
Qed.

Lemma Rpower_pos (x y : R) : 0 < Rpower x y.
Proof. unfold Rpower. apply exp_pos. Qed.

Section Inverse.

Variables (x : Z) (zero_val inverse_pow : R).
Hypothesis x_pos : (0 < x)%Z.

Lemma py_float_in_range : IZR x < f64_overflow -> py_float x = Ok (IZR x).
Proof.
  intros H. unfold py_float.
  assert (0 < IZR x) by (apply IZR_lt; lia).
  rewrite Rabs_right by lra.
  destruct (Rle_dec f64_overflow (IZR x)); [lra | reflexivity].
Qed.

Lemma dist_inverse_unfold :
  dist x "inverse" zero_val inverse_pow
  = (v <- py_pow x inverse_pow ;; py_div 1 v).
Proof.
  unfold dist. cbn [String.eqb Ascii.eqb Bool.eqb andb].
  destruct (Z.gtb_spec x 0); [reflexivity | lia].
Qed.

(** The integer is beyond the range of a float. *)
Lemma dist_inverse_huge :
  f64_overflow <= IZR x ->
  dist x "inverse" zero_val inverse_pow = Raise OverflowError.
Proof.
  intros H. rewrite dist_inverse_unfold. unfold py_pow, py_float.
  assert (0 < IZR x) by (apply IZR_lt; lia).
  rewrite Rabs_right by lra.
  destruct (Rle_dec f64_overflow (IZR x)); [reflexivity | lra].
Qed.

(** The power overflows. *)
Lemma dist_inverse_overflow :
  IZR x < f64_overflow -> f64_overflow <= Rpower (IZR x) inverse_pow ->
  dist x "inverse" zero_val inverse_pow = Raise OverflowError.
Proof.
  intros Hx H. rewrite dist_inverse_unfold. unfold py_pow.
  rewrite (py_float_in_range Hx). cbn [bind]. unfold float_pow.
  now rewrite (f64_round_overflow H).
Qed.

(** The power underflows to [0.0], by which [1] is then divided. *)
Lemma dist_inverse_underflow :
  IZR x < f64_overflow -> Rpower (IZR x) inverse_pow <= f64_underflow ->
  dist x "inverse" zero_val inverse_pow = Raise ZeroDivisionError.
Proof.
  intros Hx H. rewrite dist_inverse_unfold. unfold py_pow.
  rewrite (py_float_in_range Hx). cbn [bind]. unfold float_pow.
  pose proof (Rpower_pos (IZR x) inverse_pow).
  rewrite f64_round_underflow by lra. cbn [bind]. unfold py_div.
  destruct (Req_dec_T 0 0); [reflexivity | lra].
Qed.

(** The power is within the range. *)
Lemma dist_inverse_value :
  IZR x < f64_overflow ->
  f64_underflow < Rpower (IZR x) inverse_pow < f64_overflow ->
  dist x "inverse" zero_val inverse_pow
  = Ok (f64_round (1 / Rpower (IZR x) inverse_pow)).
Proof.
  intros Hx H. rewrite dist_inverse_unfold. unfold py_pow.
  rewrite (py_float_in_range Hx). cbn [bind]. unfold float_pow.
  pose proof (Rpower_pos (IZR x) inverse_pow).
  rewrite f64_round_in_range
    by (rewrite Rabs_right by lra; first [lra | right; lra]).
  cbn [bind]. unfold py_div.
  destruct (Req_dec_T (Rpower (IZR x) inverse_pow) 0); [lra | reflexivity].
Qed.

Lemma dist_inverse_finite :
  IZR x < f64_overflow ->
  / f64_overflow < Rpower (IZR x) inverse_pow < f64_overflow ->
  dist x "inverse" zero_val inverse_pow
  = Ok (Fin (1 / Rpower (IZR x) inverse_pow)).
Proof.
  intros Hx [Hlo Hhi].
  pose proof f64_underflow_pos. pose proof f64_overflow_gt_1.
  pose proof f64_underflow_overflow.
  pose proof (Rpower_pos (IZR x) inverse_pow) as Hv.
  assert (Hinv : f64_underflow < / f64_overflow).
  { apply (Rmult_lt_reg_r f64_overflow); [lra|]. rewrite Rinv_l by lra. lra. }
  rewrite dist_inverse_value by lra. f_equal.
  set (v := Rpower (IZR x) inverse_pow) in *.
  assert (Hq : 0 < 1 / v) by (apply Rdiv_lt_0_compat; lra).
  apply f64_round_in_range; rewrite Rabs_right by lra.
  - right. unfold Rdiv. rewrite Rmult_1_l.
    apply Rlt_trans with (1 := Hinv). apply Rinv_lt_contravar; [nra | lra].
  - unfold Rdiv. rewrite Rmult_1_l. rewrite <- (Rinv_inv f64_overflow).
    apply Rinv_lt_contravar; [|lra].
    apply Rmult_lt_0_compat; [apply Rinv_0_lt_compat|]; lra.
Qed.

Lemma dist_inverse_infinite :
  IZR x < f64_overflow ->
  f64_underflow < Rpower (IZR x) inverse_pow <= / f64_overflow ->
  dist x "inverse" zero_val inverse_pow = Ok PosInf.
Proof.
  intros Hx [Hlo Hhi].
  pose proof f64_underflow_pos. pose proof f64_overflow_gt_1.
  pose proof (Rpower_pos (IZR x) inverse_pow) as Hv.
  assert (Hlt : / f64_overflow < f64_overflow).
  { apply Rlt_trans with 1; [|lra].
    rewrite <- Rinv_1. apply Rinv_lt_contravar; lra. }
  rewrite dist_inverse_value by lra. f_equal.
  apply f64_round_overflow. unfold Rdiv. rewrite Rmult_1_l.
  rewrite <- (Rinv_inv f64_overflow) at 1.
  apply Rinv_le_contravar; [exact Hv | exact Hhi].
Qed.

End Inverse.

Lemma dist_exp_unfold (x : Z) (zero_val inverse_pow : R) :
  (0 < x)%Z -> dist x "exp" zero_val inverse_pow = np_exp (- x).
Proof.
  intros Hx. unfold dist. cbn [String.eqb Ascii.eqb Bool.eqb andb].
  destruct (Z.gtb_spec x 0); [reflexivity | lia].
Qed.

Lemma np_exp_negative (x : Z) :
  (0 < x <= 2 ^ 63)%Z -> np_exp (- x) = Ok (f64_round (exp (- IZR x))).
Proof.
  intros Hx. unfold np_exp.
  destruct (Z.leb_spec (- 2 ^ 63) (- x)); [|lia].
  destruct (Z.ltb_spec (- x) (2 ^ 64)); [|lia].
  cbn [andb]. now rewrite opp_IZR.
Qed.

Lemma exp_neg_small (x : Z) : (0 < x)%Z -> 0 < exp (- IZR x) < 1.
Proof.
  intros Hx. split; [apply exp_pos|].
  rewrite <- exp_0. apply exp_increasing.
  assert (0 < IZR x) by (apply IZR_lt; lia). lra.
Qed.

Lemma dist_exp_value (x : Z) (zero_val inverse_pow : R) :
  (0 < x <= 2 ^ 63)%Z -> f64_underflow < exp (- IZR x) ->
  dist x "exp" zero_val inverse_pow = Ok (Fin (exp (- IZR x))).
Proof.
  intros Hx H. rewrite dist_exp_unfold, np_exp_negative by lia. f_equal.
  pose proof (exp_neg_small (x := x) ltac:(lia)). pose proof f64_overflow_gt_1.
  apply f64_round_in_range; rewrite Rabs_right by lra; [right|]; lra.
Qed.

Lemma dist_exp_underflow (x : Z) (zero_val inverse_pow : R) :
  (0 < x <= 2 ^ 63)%Z -> exp (- IZR x) <= f64_underflow ->
  dist x "exp" zero_val inverse_pow = Ok (Fin 0).
Proof.
  intros Hx H. rewrite dist_exp_unfold, np_exp_negative by lia. f_equal.
  pose proof (exp_neg_small (x := x) ltac:(lia)).
  apply f64_round_underflow. lra.
Qed.

Lemma dist_exp_huge (x : Z) (zero_val inverse_pow : R) :
  (2 ^ 63 < x)%Z -> dist x "exp" zero_val inverse_pow = Raise TypeError.
Proof.
  intros Hx. rewrite dist_exp_unfold by lia. unfold np_exp.
  destruct (Z.leb_spec (- 2 ^ 63) (- x)); [lia | reflexivity].
Qed.

Lemma dist_nonpositive (x : Z) (zero_val inverse_pow : R) :
  (x <= 0)%Z ->
  dist x "inverse" zero_val inverse_pow = Ok (Fin zero_val)
  /\ dist x "exp" zero_val inverse_pow = Ok (Fin zero_val).
Proof.
  intros Hx. unfold dist. cbn [String.eqb Ascii.eqb Bool.eqb andb].
  destruct (Z.gtb_spec x 0); [lia | now split].
Qed.

(** The exceptions that a valid method can raise. *)
Lemma dist_inverse_raises (x : Z) (zero_val inverse_pow : R) (e : exn) :
  dist x "inverse" zero_val inverse_pow = Raise e ->
  (0 < x)%Z /\ (e = OverflowError \/ e = ZeroDivisionError).
Proof.
  intros H. destruct (Z_lt_le_dec 0 x) as [Hx|Hx].
  2:{ rewrite (proj1 (dist_nonpositive zero_val inverse_pow Hx)) in H.
      discriminate. }
  split; [exact Hx|]. rewrite dist_inverse_unfold in H by exact Hx.
  unfold py_pow, py_float, float_pow, py_div in H.
  destruct (Rle_dec f64_overflow (Rabs (IZR x))); cbn [bind] in H;
    [injection H as <-; now left|].
  destruct (f64_round (Rpower (IZR x) inverse_pow)) as [v| | |]; cbn [bind] in H;
    try (injection H as <-; now left).
  destruct (Req_dec_T v 0); [injection H as <-; now right | discriminate].
Qed.

Lemma dist_exp_raises (x : Z) (zero_val inverse_pow : R) (e : exn) :
  dist x "exp" zero_val inverse_pow = Raise e ->
  (2 ^ 63 < x)%Z /\ e = TypeError.
Proof.
  intros H. destruct (Z_lt_le_dec 0 x) as [Hx|Hx].
  2:{ rewrite (proj2 (dist_nonpositive zero_val inverse_pow Hx)) in H.
      discriminate. }
  destruct (Z_lt_le_dec (2 ^ 63) x) as [Hbig|Hbig].
  - rewrite dist_exp_huge in H by exact Hbig. injection H as <-. now split.
  - rewrite dist_exp_unfold, np_exp_negative in H by lia. discriminate.
Qed.

Lemma dist_invalid (x : Z) (method : string) (zero_val inverse_pow : R) :
  (method <> "inverse" /\ method <> "exp")%string ->
  dist x method zero_val inverse_pow = Raise (ValueError "Invalid method.").
Proof.
  intros [H1 H2]. unfold dist.
  apply String.eqb_neq in H1, H2. now rewrite H1, H2.
Qed.

(** C9 (as amended).  [dist] raises a [ValueError] exactly when [method] is
    neither ["inverse"] nor ["exp"], and with a valid method it raises
    nothing else but an [OverflowError] or [ZeroDivisionError] of the power
    (["inverse"]) or a [TypeError] for an integer beyond 64 bits (["exp"]).
    For [x <= 0] both methods return [zero_val].  For [x > 0], ["inverse"]
    returns [1/x^inverse_pow] as long as [x^inverse_pow] is within the range
    of float64 ([inf] where the quotient exceeds it); it raises
    [OverflowError] when [x] or [x^inverse_pow] is too large for a float and
    [ZeroDivisionError] when [x^inverse_pow] underflows to [0.0].  For
    [0 < x <= 2^63], ["exp"] returns [exp(-x)], which is [0.0] once it
    underflows, and does not raise. *)
Theorem dist_raises_iff_invalid_method (x : Z) (method : string) (zero_val inverse_pow : R) :
  (dist x method zero_val inverse_pow = Raise (ValueError "Invalid method.")
     <-> (method <> "inverse" /\ method <> "exp")%string)
  /\ (forall e, dist x method zero_val inverse_pow = Raise e ->
        (e = ValueError "Invalid method."
         /\ method <> "inverse" /\ method <> "exp")%string
        \/ (method = "inverse"%string /\ (0 < x)%Z
            /\ (e = OverflowError \/ e = ZeroDivisionError))
        \/ (method = "exp"%string /\ (2 ^ 63 < x)%Z /\ e = TypeError))
  /\ ((x <= 0)%Z ->
        dist x "inverse" zero_val inverse_pow = Ok (Fin zero_val)
        /\ dist x "exp" zero_val inverse_pow = Ok (Fin zero_val))
  /\ ((0 < x)%Z ->
        (f64_overflow <= IZR x \/ f64_overflow <= Rpower (IZR x) inverse_pow ->
         dist x "inverse" zero_val inverse_pow = Raise OverflowError)
        /\ (IZR x < f64_overflow ->
            Rpower (IZR x) inverse_pow <= f64_underflow ->
            dist x "inverse" zero_val inverse_pow = Raise ZeroDivisionError)
        /\ (IZR x < f64_overflow ->
            / f64_overflow < Rpower (IZR x) inverse_pow < f64_overflow ->
            dist x "inverse" zero_val inverse_pow
            = Ok (Fin (1 / Rpower (IZR x) inverse_pow)))
        /\ (IZR x < f64_overflow ->
            f64_underflow < Rpower (IZR x) inverse_pow <= / f64_overflow ->
            dist x "inverse" zero_val inverse_pow = Ok PosInf))
  /\ ((0 < x <= 2 ^ 63)%Z ->
        (f64_underflow < exp (- IZR x) ->
         dist x "exp" zero_val inverse_pow = Ok (Fin (exp (- IZR x))))
        /\ (exp (- IZR x) <= f64_underflow ->
            dist x "exp" zero_val inverse_pow = Ok (Fin 0))).
Proof.
  split; [|split; [|split; [|split]]].
  - split; [|apply dist_invalid].
    intros H. split; intros ->.
    + apply dist_inverse_raises in H as [_ [H|H]]; discriminate.
    + apply dist_exp_raises in H as [_ H]. discriminate.
  - intros e He.
    destruct (String.eqb_spec method "inverse") as [->|H1].
    { right. left. split; [reflexivity|]. now apply dist_inverse_raises in He. }
    destruct (String.eqb_spec method "exp") as [->|H2].
    { right. right. split; [reflexivity|]. now apply dist_exp_raises in He. }
    left. rewrite dist_invalid in He by now split.
    injection He as <-. now repeat split.
  - apply dist_nonpositive.
  - intros Hx. split; [|split; [|split]].
    + intros [H|H].
      * now apply dist_inverse_huge.
      * destruct (Rlt_le_dec (IZR x) f64_overflow).
        -- now apply dist_inverse_overflow.
        -- now apply dist_inverse_huge.
    + now apply dist_inverse_underflow.
    + now apply dist_inverse_finite.
    + now apply dist_inverse_infinite.
  - intros Hx. split.
    + now apply dist_exp_value.
    + now apply dist_exp_underflow.
Qed.

(** [a ^ n] on integers, as a real power. *)
Lemma Rpower_IZR (a : Z) (n : nat) :
  (0 < a)%Z -> Rpower (IZR a) (INR n) = IZR (a ^ Z.of_nat n).
Proof.
  intros Ha. rewrite Rpower_pow by (apply IZR_lt; lia).
  apply pow_IZR.
Qed.

(** C9 (counterexample).  With the valid method ["inverse"], [dist] raises
    a [ZeroDivisionError] for [10 ** -400.0], which is [0.0], and an
    [OverflowError] for [10 ** 400.0]. *)
Lemma dist_valid_method_raises_counterexample :
  dist 10 "inverse" 0 (-400) = Raise ZeroDivisionError
  /\ dist 10 "inverse" 0 400 = Raise OverflowError.
Proof.
  assert (E : INR 400 = 400)
    by (rewrite INR_IZR_INZ; change (Z.of_nat 400) with 400%Z; reflexivity).
  replace (-400) with (- INR 400) by (rewrite E; lra).
  rewrite <- E.
  assert (Hx : IZR 10 < f64_overflow).
  { apply Rlt_trans with (2 := f64_overflow_large). apply IZR_lt. now vm_compute. }
  assert (Hp : Rpower 10 (INR 400) = IZR (10 ^ 400))
    by (apply (Rpower_IZR 400); lia).
  split.
  - apply dist_inverse_underflow; [lia | exact Hx|].
    rewrite Rpower_Ropp, Hp. unfold f64_underflow.
    apply Rinv_le_contravar; [apply IZR_lt | apply IZR_le]; now vm_compute.
  - apply dist_inverse_overflow; [lia | exact Hx|].
    rewrite Hp. unfold f64_overflow. apply IZR_le. now vm_compute.
Qed.

End DistFacts.

(* --------------------------------------------------------------------- *)
(** ** The error metric [mse] *)
(* --------------------------------------------------------------------- *)

Section MseFacts.

Lemma arr_map_ext (f g : R -> R) (x : ndarray) :
  (forall a, f a = g a) -> arr_map f x = arr_map g x.
Proof.
  intros E. destruct x as [a|v|m]; simpl.
  - now rewrite E.
  - f_equal. now apply map_ext.
  - f_equal. apply map_ext. intros row. now apply map_ext.
Qed.

Lemma arr_map_map (f g : R -> R) (x : ndarray) :
  arr_map f (arr_map g x) = arr_map (fun a => f (g a)) x.
Proof.
  destruct x as [a|v|m]; simpl; f_equal.
  - apply map_map.
  - rewrite map_map. apply map_ext. intros row. apply map_map.
Qed.

Lemma flatten_arr_map (f : R -> R) (x : ndarray) :
  flatten (arr_map f x) = map f (flatten x).
Proof.
  destruct x as [a|v|m]; simpl; try reflexivity.
  symmetry. apply concat_map.
Qed.

Lemma squeeze_vec_map (f : R -> R) (v : vector) :
  squeeze_vec (map f v) = arr_map f (squeeze_vec v).
Proof. destruct v as [|a [|b v]]; reflexivity. Qed.

Lemma forallb_len1_map (f : R -> R) (m : matrix) :
  forallb (fun row => Nat.eqb (length row) 1) (map (map f) m)
  = forallb (fun row => Nat.eqb (length row) 1) m.
Proof.
  induction m as [|row m IH]; simpl; [reflexivity|].
  now rewrite length_map, IH.
Qed.

Lemma map_hd_len1 (f : R -> R) (m : matrix) :
  forallb (fun row => Nat.eqb (length row) 1) m = true ->
  map (fun row => hd 0 row) (map (map f) m) = map f (map (fun row => hd 0 row) m).
Proof.
  induction m as [|row m IH]; simpl; [reflexivity|].
  intros H. apply andb_true_iff in H as [H1 H2].
  rewrite (IH H2). f_equal.
  destruct row; [discriminate | reflexivity].
Qed.

Lemma squeeze_arr_map (f : R -> R) (x : ndarray) :
  squeeze (arr_map f x) = arr_map f (squeeze x).
Proof.
  destruct x as [a|v|m]; simpl.
  - reflexivity.
  - apply squeeze_vec_map.
  - destruct m as [|r1 [|r2 m]].
    + reflexivity.
    + apply squeeze_vec_map.
    + change (map (map f) (r1 :: r2 :: m))
        with (map f r1 :: map f r2 :: map (map f) m).
      cbv iota beta.
      change (map f r1 :: map f r2 :: map (map f) m)
        with (map (map f) (r1 :: r2 :: m)).
      rewrite forallb_len1_map.
      destruct (forallb _ (r1 :: r2 :: m)) eqn:E; [|reflexivity].
      cbn [arr_map]. f_equal. now apply map_hd_len1.
Qed.

Lemma fold_Rmax_scale (c : R) (l : list R) (a : R) :
  0 < c -> fold_left Rmax (map (Rmult c) l) (c * a) = c * fold_left Rmax l a.
Proof.
  intros Hc. revert a. induction l as [|b l IH]; intros a; simpl; [reflexivity|].
  rewrite RmaxRmult by lra. apply IH.
Qed.

Lemma np_max_scale (c : R) (l : list R) (m : R) :
  0 < c -> np_max l = Ok m -> np_max (map (Rmult c) l) = Ok (c * m).
Proof.
  intros Hc. destruct l as [|a l]; simpl; [discriminate|].
  intros [= <-]. now rewrite fold_Rmax_scale.
Qed.

Lemma is_zero_false (r : R) : r <> 0 -> is_zero r = false.
Proof. intros H. unfold is_zero. now destruct (Req_dec_T r 0). Qed.

Lemma is_zero_true (r : R) : r = 0 -> is_zero r = true.
Proof. intros H. unfold is_zero. now destruct (Req_dec_T r 0). Qed.

(** Normalising the scaled array by the scaled maximum gives the
    normalised array. *)
Lemma normalise_scaled (c m : R) (x : ndarray) :
  c <> 0 -> m <> 0 ->
  arr_map (fun a => a / (c * m)) (squeeze (arr_map (Rmult c) x))
  = arr_map (fun a => a / m) (squeeze x).
Proof.
  intros Hc Hm. rewrite squeeze_arr_map, arr_map_map.
  apply arr_map_ext. intros a. now field.
Qed.

(** C6. For arrays [x], [y] with nonzero maxima and a positive constant
    [c], the metric does not change when either argument is scaled by [c]. *)
Theorem mse_scale_invariant (x y : ndarray) (c mx my : R) :
  np_max (flatten x) = Ok mx -> mx <> 0 ->
  np_max (flatten y) = Ok my -> my <> 0 ->
  0 < c ->
  mse (arr_map (Rmult c) x) y = mse x y
  /\ mse x (arr_map (Rmult c) y) = mse x y.
Proof.
  intros Hx Hmx Hy Hmy Hc.
  assert (Hc0 : c <> 0) by lra.
  assert (Hcx : c * mx <> 0) by (apply Rmult_integral_contrapositive_currified; assumption).
  assert (Hcy : c * my <> 0) by (apply Rmult_integral_contrapositive_currified; assumption).
  unfold mse. rewrite !flatten_arr_map.
  rewrite (np_max_scale _ Hc Hx), (np_max_scale _ Hc Hy), Hx, Hy.
  cbn [bind].
  rewrite !normalise_scaled by assumption.
  rewrite (is_zero_false Hcx), (is_zero_false Hcy).
  rewrite (is_zero_false Hmx), (is_zero_false Hmy).
  split; reflexivity.
Qed.

Lemma mse_scale_invariant_witness :
  mse (arr_map (Rmult 3) (Vec [1; 2])) (Vec [2; 4]) = mse (Vec [1; 2]) (Vec [2; 4])
  /\ mse (Vec [1; 2]) (arr_map (Rmult 3) (Vec [2; 4])) = mse (Vec [1; 2]) (Vec [2; 4]).
Proof.
  apply (@mse_scale_invariant (Vec [1; 2]) (Vec [2; 4]) 3 2 4).
  - simpl. f_equal. apply Rmax_right. lra.
  - lra.
  - simpl. f_equal. apply Rmax_right. lra.
  - lra.
  - lra.
Defined.

(** With a zero maximum the metric is not a number. *)
Lemma mse_zero_max_nan : mse (Vec [0; -1]) (Vec [1; 2]) = Ok NaN.
Proof.
  unfold mse. simpl.
  replace (Rmax 0 (-1)) with 0
    by (unfold Rmax; destruct (Rle_dec 0 (-1)); lra).
  now rewrite (is_zero_true (eq_refl 0)).
Qed.

End MseFacts.

(* --------------------------------------------------------------------- *)
(** ** Arrays by index *)
(* --------------------------------------------------------------------- *)

Section MatrixFacts.

Lemma bind_ok {A B : Type} (m : result A) (k : A -> result B) (b : B) :
  bind m k = Ok b -> exists a, m = Ok a /\ k a = Ok b.
Proof. destruct m as [a|e]; simpl; [now exists a | discriminate]. Qed.

Lemma mapM_ext_in {A B : Type} (f g : A -> result B) (l : list A) :
  (forall a, In a l -> f a = g a) -> mapM f l = mapM g l.
Proof.
  induction l as [|a l IH]; simpl; intros H; [reflexivity|].
  rewrite (H a) by now left. rewrite IH; [reflexivity|].
  intros b Hb. apply H. now right.
Qed.

Lemma nth_map_seq {A : Type} (g : nat -> A) (n i : nat) (d : A) :
  (i < n)%nat -> nth i (map g (seq 0 n)) d = g i.
Proof.
  intros H. rewrite (nth_indep _ d (g 0%nat)) by now rewrite length_map, length_seq.
  rewrite map_nth, seq_nth by assumption. reflexivity.
Qed.

Lemma nrows_mat_init (r c : nat) (f : nat -> nat -> R) : nrows (mat_init r c f) = r.
Proof. unfold nrows, mat_init. now rewrite length_map, length_seq. Qed.

Lemma ncols_mat_init (r c : nat) (f : nat -> nat -> R) :
  (0 < r)%nat -> ncols (mat_init r c f) = c.
Proof.
  intros H. unfold ncols, mat_init. destruct r as [|r]; [lia|].
  simpl. now rewrite length_map, length_seq.
Qed.

Lemma get_mat_init (r c : nat) (f : nat -> nat -> R) (i j : nat) :
  (i < r)%nat -> (j < c)%nat -> get (mat_init r c f) i j = f i j.
Proof.
  intros Hi Hj. unfold get, mat_init.
  rewrite (nth_map_seq (fun i => map (fun j => f i j) (seq 0 c))) by assumption.
  now rewrite (nth_map_seq (fun j => f i j)).
Qed.

Lemma mat_init_ext (r c : nat) (f g : nat -> nat -> R) :
  (forall i j, (i < r)%nat -> (j < c)%nat -> f i j = g i j) ->
  mat_init r c f = mat_init r c g.
Proof.
  intros H. unfold mat_init. apply map_ext_in. intros i Hi.
  apply map_ext_in. intros j Hj.
  apply in_seq in Hi, Hj. apply H; lia.
Qed.

Lemma rect_mat_init (r c : nat) (f : nat -> nat -> R) : rect r c (mat_init r c f).
Proof.
  split; [apply nrows_mat_init|].
  unfold mat_init. apply Forall_forall. intros row Hrow.
  apply in_map_iff in Hrow as (i & <- & _).
  now rewrite length_map, length_seq.
Qed.

Lemma rect_nrows (r c : nat) (A : matrix) : rect r c A -> nrows A = r.
Proof. now intros [H _]. Qed.

Lemma rect_ncols (r c : nat) (A : matrix) :
  rect r c A -> (0 < r)%nat -> ncols A = c.
Proof.
  intros [H1 H2] Hr. unfold ncols. destruct A as [|row A]; simpl in *; [lia|].
  now inversion H2.
Qed.

(** An array built with the shape of [A] has the shape of [A]. *)
Lemma shape_like (A : matrix) (f : nat -> nat -> R) :
  shape (mat_init (nrows A) (ncols A) f) = shape A.
Proof.
  unfold shape. rewrite nrows_mat_init. f_equal.
  destruct A as [|row A]; [reflexivity|].
  apply ncols_mat_init. simpl. lia.
Qed.

Lemma shape_eqb_true (A B : matrix) : shape A = shape B -> shape_eqb A B = true.
Proof.
  unfold shape, shape_eqb. intros [= -> ->]. now rewrite !Nat.eqb_refl.
Qed.

Lemma rect_shape_eq (r c : nat) (A B : matrix) :
  rect r c A -> rect r c B -> shape A = shape B.
Proof.
  intros HA HB. unfold shape.
  rewrite (rect_nrows HA), (rect_nrows HB). f_equal.
  destruct r as [|r].
  - destruct HA as [HA _], HB as [HB _].
    apply length_zero_iff_nil in HA, HB. now subst.
  - rewrite (rect_ncols HA), (rect_ncols HB) by lia. reflexivity.
Qed.

Lemma get_zeros (r c i j : nat) : get (np_zeros2 r c) i j = 0.
Proof.
  unfold get, np_zeros2, mat_init.
  destruct (Nat.lt_ge_cases i r) as [Hi|Hi].
  - rewrite (nth_map_seq (fun i => map (fun _ => 0) (seq 0 c))) by assumption.
    destruct (Nat.lt_ge_cases j c) as [Hj|Hj].
    + now rewrite (nth_map_seq (fun _ => 0)).
    + apply nth_overflow. now rewrite length_map, length_seq.
  - rewrite (nth_overflow _ []) by now rewrite length_map, length_seq.
    now destruct j.
Qed.

Lemma Rsum_map_zero {A : Type} (f : A -> R) (l : list A) :
  (forall a, In a l -> f a = 0) -> Rsum (map f l) = 0.
Proof.
  induction l as [|a l IH]; simpl; intros H; [reflexivity|].
  rewrite (H a) by now left. rewrite IH; [lra|].
  intros b Hb. apply H. now right.
Qed.

Lemma bigsum_zero (n : nat) (f : nat -> R) :
  (forall k, (k < n)%nat -> f k = 0) -> bigsum n f = 0.
Proof.
  intros H. unfold bigsum. apply Rsum_map_zero.
  intros k Hk. apply in_seq in Hk. apply H. lia.
Qed.

Lemma Rsum_map_minus_const {A : Type} (f : A -> R) (b : R) (l : list A) :
  Rsum (map (fun a => f a - b) l) = Rsum (map f l) - INR (length l) * b.
Proof.
  induction l as [|a l IH].
  - simpl. lra.
  - cbn [map Rsum fold_right length]. fold (Rsum (map (fun a => f a - b) l)).
    fold (Rsum (map f l)). rewrite IH, S_INR. lra.
Qed.

Lemma map_const_repeat {A B : Type} (b : B) (f : A -> B) (l : list A) :
  (forall a, In a l -> f a = b) -> map f l = repeat b (length l).
Proof.
  induction l as [|a l IH]; simpl; intros H; [reflexivity|].
  rewrite (H a) by now left. f_equal. apply IH. intros x Hx. apply H. now right.
Qed.

End MatrixFacts.

(* --------------------------------------------------------------------- *)
(** ** The kernel estimator *)
(* --------------------------------------------------------------------- *)

Section KernelFacts.

Variable linalg_inv : matrix -> result matrix.

Lemma forallb_same_shape (N steps : nat) (m : matrix) (l : list matrix) :
  rect N steps m -> Forall (rect N steps) l -> forallb (shape_eqb m) l = true.
Proof.
  intros Hm Hl. apply forallb_forall. intros s Hs.
  apply shape_eqb_true. apply (rect_shape_eq Hm).
  now apply (proj1 (Forall_forall _ _) Hl).
Qed.

Lemma np_mean0_rect (N steps : nat) (l : list matrix) :
  l <> [] -> Forall (rect N steps) l ->
  np_mean0 l
  = Ok (mat_init N steps
          (fun i j => Rsum (map (fun a => get a i j) l) / INR (length l))).
Proof.
  intros Hne Hl. destruct l as [|m tl]; [congruence|].
  assert (Hm : rect N steps m) by now inversion Hl.
  unfold np_mean0. rewrite (forallb_same_shape Hm Hl).
  f_equal. rewrite (rect_nrows Hm).
  destruct N as [|N]; [reflexivity|].
  rewrite (rect_ncols Hm) by lia. reflexivity.
Qed.

Lemma rect_mat_sub (N steps : nat) (A B : matrix) :
  rect N steps A -> rect N steps (mat_sub A B).
Proof.
  intros HA. unfold mat_sub. rewrite (rect_nrows HA).
  destruct N as [|N].
  - split; [reflexivity | constructor].
  - rewrite (rect_ncols HA) by lia. apply rect_mat_init.
Qed.

Lemma get_mat_sub (N steps : nat) (A B : matrix) (i j : nat) :
  rect N steps A -> (i < N)%nat -> (j < steps)%nat ->
  get (mat_sub A B) i j = get A i j - get B i j.
Proof.
  intros HA Hi Hj. unfold mat_sub.
  rewrite (rect_nrows HA), (rect_ncols HA) by lia.
  now apply get_mat_init.
Qed.

(** The mean over trials of the deviations from the mean trial vanishes. *)
Lemma centred_mean_zero (N steps : nat) (train : list matrix) :
  train <> [] -> Forall (rect N steps) train ->
  exists sm, np_mean0 train = Ok sm /\ rect N steps sm
    /\ np_mean0 (map (fun s_i => mat_sub s_i sm) train) = Ok (np_zeros2 N steps).
Proof.
  intros Hne Hl.
  set (F := fun i j => Rsum (map (fun a => get a i j) train) / INR (length train)).
  exists (mat_init N steps F).
  split; [now apply np_mean0_rect|].
  split; [apply rect_mat_init|].
  rewrite (@np_mean0_rect N steps).
  - f_equal. unfold np_zeros2. apply mat_init_ext. intros i j Hi Hj.
    rewrite map_map, length_map.
    rewrite (map_ext_in _ (fun a => get a i j - F i j)).
    + rewrite Rsum_map_minus_const. unfold F. field.
      apply not_0_INR. destruct train; [congruence | simpl; lia].
    + intros s Hs.
      rewrite (@get_mat_sub N steps) by
        (try assumption; now apply (proj1 (Forall_forall _ _) Hl)).
      now rewrite get_mat_init.
  - destruct train; [congruence | discriminate].
  - apply Forall_forall. intros d Hd.
    apply in_map_iff in Hd as (s & <- & Hs).
    apply rect_mat_sub. now apply (proj1 (Forall_forall _ _) Hl).
Qed.

Lemma nrows_zeros (r c : nat) : nrows (np_zeros2 r c) = r.
Proof. apply nrows_mat_init. Qed.

Lemma ncols_zeros (r c : nat) : (0 < r)%nat -> ncols (np_zeros2 r c) = c.
Proof. apply ncols_mat_init. Qed.

Lemma transpose_zeros (r c : nat) :
  (0 < r)%nat -> transpose (np_zeros2 r c) = np_zeros2 c r.
Proof.
  intros Hr. unfold transpose. rewrite nrows_zeros, ncols_zeros by assumption.
  unfold np_zeros2 at 2. apply mat_init_ext. intros i j _ _. apply get_zeros.
Qed.

Lemma matmul_zeros_l (r c : nat) (B : matrix) :
  (0 < r)%nat -> nrows B = c ->
  matmul (np_zeros2 r c) B = Ok (np_zeros2 r (ncols B)).
Proof.
  intros Hr HB. unfold matmul. rewrite nrows_zeros, ncols_zeros by assumption.
  rewrite HB, Nat.eqb_refl. f_equal. unfold np_zeros2 at 2.
  apply mat_init_ext. intros i j _ _. apply bigsum_zero. intros k _.
  rewrite get_zeros. lra.
Qed.

Lemma matvec_zeros (r c : nat) (v : vector) :
  (0 < r)%nat -> length v = c ->
  matvec (np_zeros2 r c) v = Ok (repeat 0 r).
Proof.
  intros Hr Hv. unfold matvec. rewrite nrows_zeros, ncols_zeros by assumption.
  rewrite Hv, Nat.eqb_refl. f_equal.
  replace (repeat 0 r) with (repeat 0 (length (seq 0 r)))
    by now rewrite length_seq.
  apply map_const_repeat.
  intros i _. apply bigsum_zero. intros k _.
  rewrite get_zeros. lra.
Qed.

Lemma matmul_shape (A B C : matrix) :
  matmul A B = Ok C -> nrows C = nrows A /\ ((0 < nrows A)%nat -> ncols C = ncols B).
Proof.
  unfold matmul. destruct (Nat.eqb (ncols A) (nrows B)); [|discriminate].
  intros [= <-]. split; [apply nrows_mat_init|].
  intros H. now apply ncols_mat_init.
Qed.

(** C2. For a non-empty set of training signal matrices of one shape,
    [s_var], the mean over trials of [S_i - S_mean], is the zero matrix;
    so, once the mean covariance has been inverted, the variance kernel
    [G = s_var.T @ w] is the zero matrix and [G @ target] is the zero
    vector for every target. *)
Theorem variance_kernel_vanishes (N steps : nat) (train : list matrix) :
  train <> [] -> Forall (rect N steps) train ->
  (exists sm, np_mean0 train = Ok sm
     /\ np_mean0 (map (fun s_i => mat_sub s_i sm) train) = Ok (np_zeros2 N steps))
  /\ (forall (cs : list matrix) (Cm Ci : matrix),
        (0 < N)%nat -> (0 < steps)%nat ->
        np_mean0 cs = Ok Cm -> linalg_inv Cm = Ok Ci -> rect N N Ci ->
        exists k, estimate_kernel linalg_inv train cs = Ok k
          /\ s_var k = np_zeros2 N steps
          /\ G k = np_zeros2 steps steps
          /\ forall target : vector, length target = steps ->
               matvec (G k) target = Ok (repeat 0 steps)).
Proof.
  intros Hne Hl.
  destruct (centred_mean_zero Hne Hl) as (sm & Hsm & Hrect & Hvar).
  split; [now exists sm|].
  intros cs Cm Ci HN Hsteps Hcs Hinv HCi.
  unfold estimate_kernel. rewrite Hsm. cbn [bind]. rewrite Hvar. cbn [bind].
  rewrite Hcs. cbn [bind]. rewrite Hinv. cbn [bind].
  destruct (matmul Ci sm) as [w0|e] eqn:Hw.
  2:{ unfold matmul in Hw.
      rewrite (rect_ncols HCi HN), (rect_nrows Hrect), Nat.eqb_refl in Hw.
      discriminate. }
  destruct (matmul_shape _ _ Hw) as [Hw1 Hw2].
  rewrite (rect_nrows HCi) in Hw1, Hw2. specialize (Hw2 HN).
  rewrite (rect_ncols Hrect HN) in Hw2.
  cbn [bind].
  destruct (matmul (transpose sm) w0) as [K0|e] eqn:HK.
  2:{ unfold matmul, transpose in HK.
      rewrite (rect_ncols Hrect HN), (rect_nrows Hrect) in HK.
      rewrite ncols_mat_init, Hw1, Nat.eqb_refl in HK by assumption.
      discriminate. }
  cbn [bind].
  rewrite transpose_zeros by assumption.
  rewrite (@matmul_zeros_l steps N w0) by assumption.
  cbn [bind]. rewrite Hw2.
  eexists. split; [reflexivity|]. cbn [s_var G].
  split; [reflexivity|]. split; [reflexivity|].
  intros target Ht. now apply matvec_zeros.
Qed.

End KernelFacts.

Section KernelWitness.

Lemma np_linalg_inv_1x1 (a : R) : a <> 0 -> np_linalg_inv [[a]] = Ok [[1 / a]].
Proof.
  intros Ha. unfold np_linalg_inv. cbn [nrows length forallb Nat.eqb andb].
  assert (D : det 1 [[a]] = a).
  { unfold det, bigsum. cbn. lra. }
  rewrite D, (is_zero_false Ha). unfold mat_init. cbn. do 3 f_equal.
  now field.
Qed.

Lemma variance_kernel_vanishes_witness :
  exists k,
    estimate_kernel np_linalg_inv [[[1; 0]]; [[3; 2]]] [[[2]]; [[14]]] = Ok k
    /\ s_var k = np_zeros2 1 2
    /\ G k = np_zeros2 2 2
    /\ forall target : vector, length target = 2%nat ->
         matvec (G k) target = Ok (repeat 0 2).
Proof.
  assert (Hne : [[[1; 0]]; [[3; 2]]] <> @nil matrix) by discriminate.
  assert (Hrect : Forall (rect 1 2) [[[1; 0]]; [[3; 2]]]).
  { repeat constructor. }
  destruct (variance_kernel_vanishes np_linalg_inv Hne Hrect) as [_ H].
  apply (H [[[2]]; [[14]]] [[8]] [[1 / 8]]).
  - lia.
  - lia.
  - unfold np_mean0, mat_init. cbn. do 3 f_equal. lra.
  - apply np_linalg_inv_1x1. lra.
  - repeat constructor.
Defined.

End KernelWitness.

(* --------------------------------------------------------------------- *)
(** ** The analysis as a whole *)
(* --------------------------------------------------------------------- *)

Section AnalysisFacts.

Variable linalg_inv : matrix -> result matrix.
Variable network_dim : matrix -> result pyfloat.

(** The estimated kernel of a completed run is determined by the selected
    training signals and [gamma]. *)
Lemma analysis_fit (signals : list matrix) (train test : list Z)
    (targets : list vector) (gamma : R) (r : report) :
  analysis linalg_inv network_dim signals train test targets gamma = Ok r ->
  exists ts dcs,
    mapM (py_index signals) train = Ok ts
    /\ covariances network_dim ts gamma = Ok dcs
    /\ estimate_kernel linalg_inv ts (map snd dcs) = Ok (fit r)
    /\ dims r = map fst dcs.
Proof.
  unfold analysis. intros H.
  apply bind_ok in H as (ts & Hts & H).
  apply bind_ok in H as (tests & _ & H).
  apply bind_ok in H as (dcs & Hdcs & H).
  apply bind_ok in H as (k & Hk & H).
  apply bind_ok in H as (ev & _ & H).
  injection H as <-. now exists ts, dcs.
Qed.

(** C3. Two runs whose recorded signals agree on the training trials and
    that use the same regularisation constant compute the same [K], [G]
    and [w], whatever their test trials and targets are. *)
Theorem kernel_independent_of_test_data
    (signals1 signals2 : list matrix) (train test1 test2 : list Z)
    (targets1 targets2 : list vector) (gamma : R) (r1 r2 : report) :
  (forall idx, In idx train -> py_index signals1 idx = py_index signals2 idx) ->
  analysis linalg_inv network_dim signals1 train test1 targets1 gamma = Ok r1 ->
  analysis linalg_inv network_dim signals2 train test2 targets2 gamma = Ok r2 ->
  K (fit r1) = K (fit r2) /\ G (fit r1) = G (fit r2) /\ w (fit r1) = w (fit r2).
Proof.
  intros Hagree H1 H2.
  apply analysis_fit in H1 as (ts1 & dcs1 & Hts1 & Hd1 & Hk1 & _).
  apply analysis_fit in H2 as (ts2 & dcs2 & Hts2 & Hd2 & Hk2 & _).
  rewrite (mapM_ext_in _ _ _ Hagree) in Hts1.
  rewrite Hts1 in Hts2. injection Hts2 as <-.
  rewrite Hd1 in Hd2. injection Hd2 as <-.
  rewrite Hk1 in Hk2. injection Hk2 as Hfit.
  now rewrite Hfit.
Qed.

End AnalysisFacts.

(* --------------------------------------------------------------------- *)
(** ** A worked run *)
(* --------------------------------------------------------------------- *)

Section WorkedRun.

(** The adjugate formula on 2 x 2 matrices. *)
Lemma np_linalg_inv_2x2 (a b c d : R) :
  a * d - b * c <> 0 ->
  np_linalg_inv [[a; b]; [c; d]]
  = Ok [[d / (a * d - b * c); - b / (a * d - b * c)];
        [- c / (a * d - b * c); a / (a * d - b * c)]].
Proof.
  intros Hdet. unfold np_linalg_inv. cbn [nrows length forallb Nat.eqb andb].
  assert (D : det 2 [[a; b]; [c; d]] = a * d - b * c).
  { unfold det, bigsum, minor, drop_nth. cbn. lra. }
  rewrite D, is_zero_false by assumption.
  unfold mat_init, det, bigsum, minor, drop_nth. cbn.
  repeat match goal with
         | |- Ok _ = Ok _ => apply f_equal
         | |- cons _ _ = cons _ _ => apply (f_equal2 cons)
         | |- nil = nil => reflexivity
         | |- @eq R _ _ => now field
         end.
Qed.

Lemma np_linalg_inv_2I : np_linalg_inv [[2; 0]; [0; 2]] = Ok [[1 / 2; 0]; [0; 1 / 2]].
Proof. rewrite np_linalg_inv_2x2 by lra. real_list. Qed.

Lemma example_get_c : get_c I2 1 = Ok [[2; 0]; [0; 2]].
Proof. by_evaluation. Qed.

Lemma example_estimate :
  estimate_kernel np_linalg_inv [I2] [[[2; 0]; [0; 2]]] = Ok example_kernel.
Proof.
  unfold estimate_kernel.
  assert (E1 : np_mean0 [I2] = Ok I2) by by_evaluation.
  rewrite E1. cbn [bind].
  assert (E2 : np_mean0 (map (fun s_i => mat_sub s_i I2) [I2]) = Ok [[0; 0]; [0; 0]])
    by by_evaluation.
  rewrite E2. cbn [bind].
  assert (E3 : np_mean0 [[[2; 0]; [0; 2]]] = Ok [[2; 0]; [0; 2]]) by by_evaluation.
  rewrite E3. cbn [bind]. rewrite np_linalg_inv_2I. cbn [bind].
  assert (E4 : matmul [[1 / 2; 0]; [0; 1 / 2]] I2 = Ok [[1 / 2; 0]; [0; 1 / 2]])
    by by_evaluation.
  rewrite E4. cbn [bind].
  assert (E5 : matmul (transpose I2) [[1 / 2; 0]; [0; 1 / 2]]
               = Ok [[1 / 2; 0]; [0; 1 / 2]]) by by_evaluation.
  rewrite E5. cbn [bind].
  assert (E6 : matmul (transpose [[0; 0]; [0; 0]]) [[1 / 2; 0]; [0; 1 / 2]]
               = Ok [[0; 0]; [0; 0]]) by by_evaluation.
  rewrite E6. reflexivity.
Qed.

Lemma example_mse_a : mse (Vec [1; 2]) (Mat I2) = Ok (Finite (3 / 8)).
Proof.
  unfold mse, I2. cbn [flatten concat app np_max fold_left bind].
  eval_Rmax. rewrite !is_zero_false by lra.
  unfold np_mean. cbn. real_list.
Qed.

Lemma example_mse_b : mse (Vec [2; 1]) (Mat swap2) = Ok (Finite (3 / 8)).
Proof.
  unfold mse, swap2. cbn [flatten concat app np_max fold_left bind].
  eval_Rmax. rewrite !is_zero_false by lra.
  unfold np_mean. cbn. real_list.
Qed.

Lemma example_run_a :
  analysis np_linalg_inv example_dim [I2; I2] [0%Z] [1%Z] [[1; 2]] 1
  = Ok example_report_a.
Proof.
  unfold analysis.
  change (mapM (py_index [I2; I2]) [0%Z]) with (Ok (A := list matrix) [I2]).
  change (mapM (py_index [I2; I2]) [1%Z]) with (Ok (A := list matrix) [I2]).
  cbn [bind]. unfold covariances, example_dim. cbn [mapM bind].
  rewrite example_get_c. cbn [bind map snd fst].
  pose proof example_estimate as E. unfold matrix, vector in *.
  rewrite E. clear E. cbn [bind].
  unfold evaluate, evaluate_target. cbn [mapM bind].
  unfold example_kernel at 1 2 3. cbn [K G w].
  assert (E1 : matvec [[1 / 2; 0]; [0; 1 / 2]] [1; 2] = Ok [1 / 2; 1]) by by_evaluation.
  assert (E2 : matvec [[0; 0]; [0; 0]] [1; 2] = Ok [0; 0]) by by_evaluation.
  assert (E3 : vecmat [1 / 2; 1] I2 = Ok [1 / 2; 1]) by by_evaluation.
  rewrite E1, E2. cbn [bind]. rewrite E3, example_mse_a. reflexivity.
Qed.

Lemma example_run_b :
  analysis np_linalg_inv example_dim [I2; swap2] [0%Z] [1%Z] [[2; 1]] 1
  = Ok example_report_b.
Proof.
  unfold analysis.
  change (mapM (py_index [I2; swap2]) [0%Z]) with (Ok (A := list matrix) [I2]).
  change (mapM (py_index [I2; swap2]) [1%Z]) with (Ok (A := list matrix) [swap2]).
  cbn [bind]. unfold covariances, example_dim. cbn [mapM bind].
  rewrite example_get_c. cbn [bind map snd fst].
  pose proof example_estimate as E. unfold matrix, vector in *.
  rewrite E. clear E. cbn [bind].
  unfold evaluate, evaluate_target. cbn [mapM bind].
  unfold example_kernel at 1 2 3. cbn [K G w].
  assert (E1 : matvec [[1 / 2; 0]; [0; 1 / 2]] [2; 1] = Ok [1; 1 / 2]) by by_evaluation.
  assert (E2 : matvec [[0; 0]; [0; 0]] [2; 1] = Ok [0; 0]) by by_evaluation.
  assert (E3 : vecmat [1; 1 / 2] swap2 = Ok [1 / 2; 1]) by by_evaluation.
  rewrite E1, E2. cbn [bind]. rewrite E3, example_mse_b. reflexivity.
Qed.

Lemma kernel_independent_of_test_data_witness :
  K (fit example_report_a) = K (fit example_report_b)
  /\ G (fit example_report_a) = G (fit example_report_b)
  /\ w (fit example_report_a) = w (fit example_report_b).
Proof.
  apply (@kernel_independent_of_test_data np_linalg_inv example_dim
           [I2; I2] [I2; swap2] [0%Z] [1%Z] [1%Z] [[1; 2]] [[2; 1]] 1).
  - intros idx [<-|[]]. reflexivity.
  - exact example_run_a.
  - exact example_run_b.
Defined.

(** C1 (evaluation at the failing input).  In the worked run the readout
    reconstructs the target exactly, [[1/2; 1]] being the target [[1; 2]]
    up to scale, so that the metric of the target against the reconstructed
    trace is [0]; the reported metric is [3/8], the value of
    [mse(target, test_sig)] on the raw test signal matrix. *)
Theorem reported_mse_compares_raw_test_signal :
  analysis np_linalg_inv example_dim [I2; I2] [0%Z] [1%Z] [[1; 2]] 1
  = Ok example_report_a
  /\ map test_prediction (evals example_report_a) = [[[1 / 2; 1]]]
  /\ map mses (evals example_report_a) = [[Finite (3 / 8)]]
  /\ mse (Vec [1; 2]) (Mat I2) = Ok (Finite (3 / 8))
  /\ mse (Vec [1; 2]) (Vec [1 / 2; 1]) = Ok (Finite 0)
  /\ Finite (3 / 8) <> Finite 0.
Proof.
  split; [exact example_run_a|].
  split; [reflexivity|]. split; [reflexivity|].
  split; [exact example_mse_a|].
  split.
  - unfold mse. cbn [flatten np_max fold_left bind].
    eval_Rmax. rewrite !is_zero_false by lra.
    unfold np_mean. cbn. real_list.
  - intros [= H]. lra.
Qed.

End WorkedRun.

(* --------------------------------------------------------------------- *)
(** ** Finite sums *)
(* --------------------------------------------------------------------- *)

Section SumFacts.

Lemma Rsum_app (l1 l2 : list R) : Rsum (l1 ++ l2) = Rsum l1 + Rsum l2.
Proof.
  induction l1 as [|a l1 IH]; simpl; [lra|].
  fold (Rsum (l1 ++ l2)). fold (Rsum l1). rewrite IH. lra.
Qed.

Lemma bigsum_S (n : nat) (f : nat -> R) : bigsum (S n) f = bigsum n f + f n.
Proof.
  unfold bigsum. rewrite seq_S, map_app, Rsum_app. simpl. lra.
Qed.

Lemma bigsum_0 (f : nat -> R) : bigsum 0 f = 0.
Proof. reflexivity. Qed.

Lemma bigsum_ext (n : nat) (f g : nat -> R) :
  (forall k, (k < n)%nat -> f k = g k) -> bigsum n f = bigsum n g.
Proof.
  intros H. unfold bigsum. f_equal. apply map_ext_in.
  intros k Hk. apply in_seq in Hk. apply H. lia.
Qed.

Lemma bigsum_plus (n : nat) (f g : nat -> R) :
  bigsum n (fun k => f k + g k) = bigsum n f + bigsum n g.
Proof.
  induction n as [|n IH]; [rewrite !bigsum_0; lra|].
  rewrite !bigsum_S, IH. lra.
Qed.

Lemma bigsum_scal (n : nat) (c : R) (f : nat -> R) :
  bigsum n (fun k => c * f k) = c * bigsum n f.
Proof.
  induction n as [|n IH]; [rewrite !bigsum_0; lra|].
  rewrite !bigsum_S, IH. lra.
Qed.

Lemma bigsum_nonneg (n : nat) (f : nat -> R) :
  (forall k, (k < n)%nat -> 0 <= f k) -> 0 <= bigsum n f.
Proof.
  induction n as [|n IH]; intros H; [rewrite bigsum_0; lra|].
  rewrite bigsum_S. assert (0 <= bigsum n f) by (apply IH; intros; apply H; lia).
  assert (0 <= f n) by (apply H; lia). lra.
Qed.

Lemma bigsum_swap (n m : nat) (f : nat -> nat -> R) :
  bigsum n (fun i => bigsum m (fun j => f i j))
  = bigsum m (fun j => bigsum n (fun i => f i j)).
Proof.
  induction n as [|n IH].
  - rewrite bigsum_0. symmetry. apply bigsum_zero. intros; apply bigsum_0.
  - rewrite bigsum_S, IH, <- bigsum_plus. apply bigsum_ext.
    intros j _. now rewrite bigsum_S.
Qed.

(** Summing against the Kronecker delta picks one term. *)
Lemma bigsum_delta (n i : nat) (f : nat -> R) :
  (i < n)%nat ->
  bigsum n (fun k => (if Nat.eqb i k then 1 else 0) * f k) = f i.
Proof.
  induction n as [|n IH]; intros Hi; [lia|].
  rewrite bigsum_S. destruct (Nat.eq_dec i n) as [->|Hne].
  - rewrite Nat.eqb_refl. rewrite bigsum_zero; [lra|].
    intros k Hk. destruct (Nat.eqb_spec n k); [lia | lra].
  - rewrite IH by lia. destruct (Nat.eqb_spec i n); [lia | lra].
Qed.

Lemma Rsum_bigsum {A : Type} (n : nat) (f : A -> nat -> R) (l : list A) :
  Rsum (map (fun s => bigsum n (f s)) l)
  = bigsum n (fun k => Rsum (map (fun s => f s k) l)).
Proof.
  induction l as [|a l IH].
  - simpl. symmetry. now apply bigsum_zero.
  - cbn [map Rsum fold_right]. fold (Rsum (map (fun s => bigsum n (f s)) l)).
    rewrite IH, <- bigsum_plus. reflexivity.
Qed.

Lemma Rsum_scal {A : Type} (c : R) (f : A -> R) (l : list A) :
  Rsum (map (fun s => c * f s) l) = c * Rsum (map f l).
Proof.
  induction l as [|a l IH]; simpl; [lra|].
  fold (Rsum (map (fun s => c * f s) l)). fold (Rsum (map f l)). rewrite IH. lra.
Qed.

Lemma Rsum_scal_r {A : Type} (c : R) (f : A -> R) (l : list A) :
  Rsum (map (fun s => f s * c) l) = Rsum (map f l) * c.
Proof.
  rewrite (map_ext _ (fun s => c * f s)) by (intros; ring).
  rewrite Rsum_scal. ring.
Qed.

Lemma Rsum_plus {A : Type} (f g : A -> R) (l : list A) :
  Rsum (map (fun s => f s + g s) l) = Rsum (map f l) + Rsum (map g l).
Proof.
  induction l as [|a l IH]; simpl; [lra|].
  fold (Rsum (map (fun s => f s + g s) l)).
  fold (Rsum (map f l)). fold (Rsum (map g l)). rewrite IH. lra.
Qed.

Lemma Rsum_const {A : Type} (c : R) (l : list A) :
  Rsum (map (fun _ => c) l) = INR (length l) * c.
Proof.
  induction l as [|a l IH].
  - simpl. lra.
  - cbn [map Rsum fold_right length]. fold (Rsum (map (fun _ => c) l)).
    rewrite IH, S_INR. lra.
Qed.

Lemma Rsum_nonneg {A : Type} (f : A -> R) (l : list A) :
  (forall a, In a l -> 0 <= f a) -> 0 <= Rsum (map f l).
Proof.
  induction l as [|a l IH]; simpl; intros H; [lra|].
  fold (Rsum (map f l)).
  assert (0 <= f a) by (apply H; now left).
  assert (0 <= Rsum (map f l)) by (apply IH; intros; apply H; now right).
  lra.
Qed.

(** The sum of the squares of a vector that is not zero is positive. *)
Lemma sum_squares_pos (v : vector) :
  v <> repeat 0 (length v) ->
  0 < bigsum (length v) (fun i => nth i v 0 * nth i v 0).
Proof.
  induction v as [|a v IH] using rev_ind; intros Hv; [now elim Hv|].
  rewrite length_app, Nat.add_comm. cbn [length Nat.add].
  rewrite bigsum_S.
  rewrite (bigsum_ext _ (fun i => nth i v 0 * nth i v 0))
    by (intros k Hk; now rewrite app_nth1).
  rewrite app_nth2, Nat.sub_diag by lia. cbn [nth].
  assert (Hnn : 0 <= bigsum (length v) (fun i => nth i v 0 * nth i v 0)).
  { apply bigsum_nonneg. intros. nra. }
  destruct (Req_dec_T a 0) as [->|Ha].
  - assert (Hv' : v <> repeat 0 (length v)).
    { intros E. apply Hv. rewrite length_app, Nat.add_comm. cbn [length Nat.add].
      change (repeat 0 (S (length v))) with (0 :: repeat 0 (length v)).
      rewrite repeat_cons. now rewrite <- E. }
    specialize (IH Hv'). lra.
  - assert (0 < a * a) by nra. lra.
Qed.

End SumFacts.

(* --------------------------------------------------------------------- *)
(** ** Eigenvalues of a regularised matrix *)
(* --------------------------------------------------------------------- *)

Section Conditioning.

Variable N : nat.
Hypothesis N_pos : (0 < N)%nat.

Lemma matvec_pointwise (A : matrix) (v : vector) (lam : R) :
  rect N N A -> length v = N ->
  (matvec A v = Ok (vscale lam v)
   <-> forall i, (i < N)%nat ->
         bigsum N (fun k => get A i k * nth k v 0) = lam * nth i v 0).
Proof.
  intros HA Hv. unfold matvec.
  rewrite (rect_ncols HA N_pos), (rect_nrows HA), Hv, Nat.eqb_refl.
  split.
  - intros [= H] i Hi.
    assert (E : nth i (map (fun i => bigsum N (fun k => get A i k * nth k v 0))
                          (seq 0 N)) 0
                = nth i (vscale lam v) 0) by now rewrite H.
    rewrite (nth_map_seq (fun i => bigsum N (fun k => get A i k * nth k v 0))) in E
      by assumption.
    rewrite E. unfold vscale.
    rewrite (nth_indep (map (Rmult lam) v) 0 (lam * 0)) by now rewrite length_map, Hv.
    apply (map_nth (Rmult lam)).
  - intros H. f_equal. apply (nth_ext _ _ 0 0).
    + unfold vscale. now rewrite !length_map, length_seq, Hv.
    + intros i Hi. rewrite length_map, length_seq in Hi.
      rewrite (nth_map_seq (fun i => bigsum N (fun k => get A i k * nth k v 0)))
        by assumption.
      rewrite (H i Hi). unfold vscale.
      rewrite (nth_indep (map (Rmult lam) v) 0 (lam * 0)) by now rewrite length_map, Hv.
      symmetry. apply (map_nth (Rmult lam)).
Qed.

Lemma get_regularised (C : matrix) (alpha : R) (i j : nat) :
  rect N N C -> (i < N)%nat -> (j < N)%nat ->
  get (mat_add C (mat_scale alpha (np_eye N))) i j
  = get C i j + alpha * (if Nat.eqb i j then 1 else 0).
Proof.
  intros HC Hi Hj. unfold mat_add, mat_scale.
  rewrite (rect_nrows HC), (rect_ncols HC N_pos).
  rewrite get_mat_init by assumption. f_equal.
  unfold np_eye at 1 2. rewrite nrows_mat_init, ncols_mat_init by assumption.
  rewrite get_mat_init by assumption. f_equal.
  unfold np_eye. now rewrite get_mat_init.
Qed.

Lemma rect_regularised (C : matrix) (alpha : R) :
  rect N N C -> rect N N (mat_add C (mat_scale alpha (np_eye N))).
Proof.
  intros HC. unfold mat_add.
  rewrite (rect_nrows HC), (rect_ncols HC N_pos). apply rect_mat_init.
Qed.

(** The eigenvalues of [C + alpha*I] are those of [C] shifted by [alpha]. *)
Lemma eigenvalue_regularised (C : matrix) (alpha lam : R) :
  rect N N C ->
  eigenvalue (mat_add C (mat_scale alpha (np_eye N))) lam
  <-> eigenvalue C (lam - alpha).
Proof.
  intros HC. pose proof (rect_regularised alpha HC) as HR.
  unfold eigenvalue. rewrite (rect_nrows HC), (rect_nrows HR).
  assert (E : forall v i, (i < N)%nat ->
    bigsum N (fun k => get (mat_add C (mat_scale alpha (np_eye N))) i k * nth k v 0)
    = bigsum N (fun k => get C i k * nth k v 0) + alpha * nth i v 0).
  { intros v i Hi.
    rewrite (bigsum_ext _ (fun k => get C i k * nth k v 0
                 + alpha * ((if Nat.eqb i k then 1 else 0) * nth k v 0))).
    - rewrite bigsum_plus, bigsum_scal, bigsum_delta by assumption. reflexivity.
    - intros k Hk. rewrite get_regularised by assumption. ring. }
  split; intros (v & Hlen & Hnz & Hv); exists v; (split; [assumption|]);
    (split; [assumption|]).
  - apply (matvec_pointwise _ _ HC Hlen). intros i Hi.
    apply (proj1 (matvec_pointwise _ _ HR Hlen)) with (i := i) in Hv; [|assumption].
    rewrite E in Hv by assumption. lra.
  - apply (matvec_pointwise _ _ HR Hlen). intros i Hi.
    apply (proj1 (matvec_pointwise _ _ HC Hlen)) with (i := i) in Hv; [|assumption].
    rewrite E by assumption. lra.
Qed.

(** A positive semidefinite matrix has no negative eigenvalue. *)
Lemma eigenvalue_psd_nonneg (C : matrix) (mu : R) :
  rect N N C -> psd C -> eigenvalue C mu -> 0 <= mu.
Proof.
  intros HC Hpsd (v & Hlen & Hnz & Hv).
  rewrite (rect_nrows HC) in Hlen, Hnz.
  pose proof (Hpsd v) as Hq. rewrite (rect_nrows HC) in Hq. specialize (Hq Hlen).
  unfold quad_form in Hq. rewrite (rect_nrows HC) in Hq.
  rewrite (bigsum_ext _ (fun i => mu * (nth i v 0 * nth i v 0))) in Hq.
  - rewrite bigsum_scal in Hq.
    rewrite <- Hlen in Hnz. pose proof (sum_squares_pos Hnz) as Hpos.
    rewrite Hlen in Hpos. nra.
  - intros i Hi.
    rewrite (proj1 (matvec_pointwise _ _ HC Hlen) Hv i Hi). ring.
Qed.

(** For a positive semidefinite [C] and [alpha1 > alpha2 > 0], the
    condition number of [C + alpha1*I] is at most that of [C + alpha2*I]. *)
Lemma cond_regularised_le (C : matrix) (alpha1 alpha2 kappa1 kappa2 : R) :
  rect N N C -> psd C ->
  0 < alpha2 -> alpha2 < alpha1 ->
  is_cond (mat_add C (mat_scale alpha1 (np_eye N))) kappa1 ->
  is_cond (mat_add C (mat_scale alpha2 (np_eye N))) kappa2 ->
  kappa1 <= kappa2.
Proof.
  intros HC Hpsd H2 H12
    (M1 & m1 & HM1 & Hm1 & Hb1 & _ & ->) (M2 & m2 & HM2 & Hm2 & Hb2 & _ & ->).
  assert (Hge : forall alpha l,
    eigenvalue (mat_add C (mat_scale alpha (np_eye N))) l -> alpha <= l).
  { intros alpha l Hl. apply (eigenvalue_regularised alpha l HC) in Hl.
    pose proof (eigenvalue_psd_nonneg HC Hpsd Hl). lra. }
  assert (Hmove : forall a b l,
    eigenvalue (mat_add C (mat_scale a (np_eye N))) l ->
    eigenvalue (mat_add C (mat_scale b (np_eye N))) (l - a + b)).
  { intros a b l Hl. apply (eigenvalue_regularised a l HC) in Hl.
    apply (eigenvalue_regularised b (l - a + b) HC).
    now replace (l - a + b - b) with (l - a) by ring. }
  pose proof (Hge _ _ HM1) as GM1. pose proof (Hge _ _ Hm1) as Gm1.
  pose proof (Hge _ _ HM2) as GM2. pose proof (Hge _ _ Hm2) as Gm2.
  (* the extreme eigenvalues of one matrix, moved to the other *)
  pose proof (Hb1 _ (Hmove alpha2 alpha1 _ HM2)) as [_ B1].
  pose proof (Hb1 _ (Hmove alpha2 alpha1 _ Hm2)) as [B2 _].
  pose proof (Hb2 _ (Hmove alpha1 alpha2 _ HM1)) as [_ B3].
  pose proof (Hb2 _ (Hmove alpha1 alpha2 _ Hm1)) as [B4 _].
  rewrite !Rabs_pos_eq in B1, B2, B3, B4 by lra.
  rewrite !Rabs_pos_eq by lra.
  assert (EM : M1 - alpha1 = M2 - alpha2) by lra.
  assert (Em : m1 - alpha1 = m2 - alpha2) by lra.
  assert (Hmm : m1 <= M1).
  { pose proof (Hb1 _ Hm1) as [_ B]. rewrite !Rabs_pos_eq in B by lra. exact B. }
  replace M2 with (M1 - alpha1 + alpha2) by lra.
  replace m2 with (m1 - alpha1 + alpha2) by lra.
  apply (Rmult_le_reg_r (m1 * (m1 - alpha1 + alpha2))); [nra|].
  replace (M1 / m1 * (m1 * (m1 - alpha1 + alpha2)))
    with (M1 * (m1 - alpha1 + alpha2)) by (field; lra).
  replace ((M1 - alpha1 + alpha2) / (m1 - alpha1 + alpha2)
           * (m1 * (m1 - alpha1 + alpha2)))
    with ((M1 - alpha1 + alpha2) * m1) by (field; lra).
  nra.
Qed.

End Conditioning.

(* --------------------------------------------------------------------- *)
(** ** The mean covariance of the training trials *)
(* --------------------------------------------------------------------- *)

Section MeanCovariance.

Variables N steps : nat.
Hypothesis N_pos : (0 < N)%nat.
Hypothesis steps_pos : (0 < steps)%nat.

Lemma bigsum_scal_r (n : nat) (c : R) (f : nat -> R) :
  bigsum n (fun k => f k * c) = bigsum n f * c.
Proof.
  rewrite (bigsum_ext _ (fun k => c * f k)) by (intros; ring).
  rewrite bigsum_scal. ring.
Qed.

Lemma mat_add_rect (A B : matrix) :
  rect N N A -> mat_add A B = mat_init N N (fun i j => get A i j + get B i j).
Proof.
  intros HA. unfold mat_add. now rewrite (rect_nrows HA), (rect_ncols HA N_pos).
Qed.

(** [X @ X.T] entry by entry. *)
Lemma matmul_transpose (X : matrix) :
  rect N steps X ->
  matmul X (transpose X)
  = Ok (mat_init N N (fun i j => bigsum steps (fun k => get X i k * get X j k))).
Proof.
  intros HX. unfold matmul, transpose.
  rewrite (rect_nrows HX), (rect_ncols HX N_pos).
  rewrite nrows_mat_init, Nat.eqb_refl, ncols_mat_init by assumption.
  f_equal. apply mat_init_ext. intros i j Hi Hj.
  apply bigsum_ext. intros k Hk. now rewrite get_mat_init.
Qed.

Lemma get_c_rect (X : matrix) (alpha : R) :
  rect N steps X ->
  get_c X alpha
  = Ok (mat_add (mat_init N N (fun i j => bigsum steps (fun k => get X i k * get X j k)))
                (mat_scale alpha (np_eye N))).
Proof.
  intros HX. unfold get_c. rewrite (matmul_transpose HX). cbn [bind].
  now rewrite (rect_nrows HX).
Qed.

Section WithDim.

Variable network_dim : matrix -> result pyfloat.

Lemma covariances_snd (train : list matrix) (alpha : R) (dcs : list (pyfloat * matrix)) :
  Forall (rect N steps) train ->
  covariances network_dim train alpha = Ok dcs ->
  map snd dcs
  = map (fun s => mat_add
                    (mat_init N N (fun i j => bigsum steps (fun k => get s i k * get s j k)))
                    (mat_scale alpha (np_eye N))) train.
Proof.
  unfold covariances. revert dcs.
  induction train as [|s train IH]; intros dcs Hall H.
  - simpl in H. now injection H as <-.
  - cbn [mapM] in H.
    apply bind_ok in H as ([d c] & Hdc & H).
    apply bind_ok in H as (rest & Hrest & H). injection H as <-.
    apply bind_ok in Hdc as (d' & _ & Hdc).
    apply bind_ok in Hdc as (c' & Hc & Hdc). injection Hdc as -> ->.
    inversion Hall as [|? ? Hs Htl]; subst.
    rewrite (get_c_rect alpha Hs) in Hc. injection Hc as <-.
    cbn [map snd]. f_equal. now apply IH.
Qed.

End WithDim.

(** The mean of the regularised covariances is the mean of the
    [S_i @ S_i.T] plus [alpha*I]. *)
Lemma mean_covariance_regularised (train : list matrix) (alpha : R) :
  train <> [] -> Forall (rect N steps) train ->
  np_mean0 (map (fun s => mat_add
                   (mat_init N N (fun i j => bigsum steps (fun k => get s i k * get s j k)))
                   (mat_scale alpha (np_eye N))) train)
  = Ok (mat_add (mean_gram N steps train) (mat_scale alpha (np_eye N))).
Proof.
  intros Hne Hall.
  assert (Hn : INR (length train) <> 0).
  { apply not_0_INR. destruct train; [congruence | simpl; lia]. }
  rewrite (@np_mean0_rect N N).
  - f_equal. rewrite (@mat_add_rect (mean_gram N steps train)) by apply rect_mat_init.
    apply mat_init_ext. intros i j Hi Hj.
    rewrite map_map, length_map.
    rewrite (map_ext _ (fun s => bigsum steps (fun k => get s i k * get s j k)
                                + alpha * (if Nat.eqb i j then 1 else 0))).
    + rewrite Rsum_plus, Rsum_const.
      assert (Hg : get (mat_scale alpha (np_eye N)) i j
                   = alpha * (if Nat.eqb i j then 1 else 0)).
      { unfold mat_scale, np_eye.
        rewrite nrows_mat_init, ncols_mat_init by assumption.
        now rewrite !get_mat_init. }
      rewrite Hg. unfold mean_gram. rewrite get_mat_init by assumption.
      field. exact Hn.
    + intros s. rewrite (get_regularised N_pos) by
        (try assumption; apply rect_mat_init).
      now rewrite get_mat_init.
  - destruct train; [congruence | discriminate].
  - apply Forall_forall. intros c Hc.
    apply in_map_iff in Hc as (s & <- & _).
    apply (rect_regularised N_pos). apply rect_mat_init.
Qed.

(** [v.T @ (S @ S.T) @ v] is the squared norm of [S.T @ v]. *)
Lemma gram_quad (s : matrix) (v : vector) :
  bigsum N (fun i => nth i v 0
     * bigsum N (fun j => bigsum steps (fun k => get s i k * get s j k) * nth j v 0))
  = bigsum steps (fun k =>
      bigsum N (fun i => get s i k * nth i v 0)
      * bigsum N (fun i => get s i k * nth i v 0)).
Proof.
  set (P := fun k => bigsum N (fun j => get s j k * nth j v 0)).
  rewrite (bigsum_ext _ (fun i => bigsum steps (fun k => (get s i k * nth i v 0) * P k))).
  - rewrite bigsum_swap. apply bigsum_ext. intros k _.
    rewrite bigsum_scal_r. reflexivity.
  - intros i _.
    rewrite (bigsum_ext _ (fun j => bigsum steps (fun k => get s i k * (get s j k * nth j v 0)))).
    + rewrite bigsum_swap, <- bigsum_scal. apply bigsum_ext. intros k _.
      rewrite bigsum_scal. unfold P. ring.
    + intros j _. rewrite <- bigsum_scal_r. apply bigsum_ext. intros k _. ring.
Qed.

Lemma mean_gram_psd (train : list matrix) : train <> [] -> psd (mean_gram N steps train).
Proof.
  intros Hne v Hv. unfold quad_form, mean_gram at 1 2.
  rewrite nrows_mat_init.
  set (q := fun s : matrix =>
    bigsum N (fun i => nth i v 0
      * bigsum N (fun j => bigsum steps (fun k => get s i k * get s j k) * nth j v 0))).
  assert (Hn : 0 < INR (length train)).
  { apply lt_0_INR. destruct train; [congruence | simpl; lia]. }
  assert (E : bigsum N (fun i => nth i v 0
                * bigsum N (fun j => get (mean_gram N steps train) i j * nth j v 0))
              = / INR (length train) * Rsum (map q train)).
  { unfold q. rewrite Rsum_bigsum, <- bigsum_scal. apply bigsum_ext. intros i Hi.
    rewrite Rsum_scal.
    rewrite (bigsum_ext _ (fun j => / INR (length train)
        * Rsum (map (fun s => bigsum steps (fun k => get s i k * get s j k) * nth j v 0)
                    train))).
    - rewrite bigsum_scal, <- Rsum_bigsum. ring.
    - intros j Hj. unfold mean_gram. rewrite get_mat_init by assumption.
      rewrite (Rsum_scal_r (nth j v 0)
                 (fun s => bigsum steps (fun k => get s i k * get s j k))).
      field. lra. }
  rewrite E.
  apply Rmult_le_pos; [left; now apply Rinv_0_lt_compat|].
  apply Rsum_nonneg. intros s _. unfold q. rewrite gram_quad.
  apply bigsum_nonneg. intros k _. nra.
Qed.

End MeanCovariance.

(* --------------------------------------------------------------------- *)
(** ** Regularisation and conditioning *)
(* --------------------------------------------------------------------- *)

Section Regularisation.

Variable network_dim : matrix -> result pyfloat.

Lemma get_rect_outside (r c : nat) (A : matrix) (i j : nat) :
  rect r c A -> (r <= i)%nat \/ (c <= j)%nat -> get A i j = 0.
Proof.
  intros [H1 H2] Hout. unfold get.
  destruct (Nat.lt_ge_cases i r) as [Hi|Hi].
  - destruct Hout as [Hout|Hout]; [lia|].
    apply nth_overflow.
    rewrite (proj1 (Forall_forall _ _) H2 (nth i A [])); [assumption|].
    apply nth_In. lia.
  - rewrite (nth_overflow A) by lia. now destruct j.
Qed.

Lemma mean_gram_symmetric (N steps : nat) (train : list matrix) :
  symmetric (mean_gram N steps train).
Proof.
  intros i j.
  destruct (Nat.lt_ge_cases i N) as [Hi|Hi];
    [destruct (Nat.lt_ge_cases j N) as [Hj|Hj]|].
  - unfold mean_gram. rewrite !get_mat_init by assumption.
    f_equal. f_equal. apply map_ext. intros s.
    apply bigsum_ext. intros k _. ring.
  - rewrite !(@get_rect_outside N N) by (try apply rect_mat_init; auto).
    reflexivity.
  - rewrite !(@get_rect_outside N N) by (try apply rect_mat_init; auto).
    reflexivity.
Qed.

(** C7. Let [A1] and [A2] be the mean covariances [np.mean(cs, axis=0)] that
    the script inverts, computed from the same training trials with the
    regularisation constants [alpha1 > alpha2 > 0].  Then [Ai] is
    [C_bar + alpha_i*I] for the symmetric positive semidefinite mean
    [C_bar] of the [S_i @ S_i.T], and the condition number of [A1] is at
    most the condition number of [A2]. *)
Theorem regularisation_improves_conditioning
    (N steps : nat) (train : list matrix) (alpha1 alpha2 : R)
    (dcs1 dcs2 : list (pyfloat * matrix)) (A1 A2 : matrix) (kappa1 kappa2 : R) :
  (0 < N)%nat -> (0 < steps)%nat -> Forall (rect N steps) train ->
  0 < alpha2 -> alpha2 < alpha1 ->
  covariances network_dim train alpha1 = Ok dcs1 ->
  np_mean0 (map snd dcs1) = Ok A1 ->
  covariances network_dim train alpha2 = Ok dcs2 ->
  np_mean0 (map snd dcs2) = Ok A2 ->
  is_cond A1 kappa1 -> is_cond A2 kappa2 ->
  A1 = mat_add (mean_gram N steps train) (mat_scale alpha1 (np_eye N))
  /\ A2 = mat_add (mean_gram N steps train) (mat_scale alpha2 (np_eye N))
  /\ symmetric (mean_gram N steps train)
  /\ psd (mean_gram N steps train)
  /\ kappa1 <= kappa2.
Proof.
  intros HN Hsteps Hall Ha2 Ha12 Hc1 Hm1 Hc2 Hm2 Hk1 Hk2.
  assert (Hne : train <> []).
  { intros ->. simpl in Hc1. injection Hc1 as <-. discriminate. }
  rewrite (covariances_snd HN Hsteps _ _ Hall Hc1) in Hm1.
  rewrite (covariances_snd HN Hsteps _ _ Hall Hc2) in Hm2.
  rewrite (mean_covariance_regularised HN Hsteps alpha1 Hne Hall) in Hm1.
  rewrite (mean_covariance_regularised HN Hsteps alpha2 Hne Hall) in Hm2.
  injection Hm1 as <-. injection Hm2 as <-.
  assert (Hpsd : psd (mean_gram N steps train)) by (apply mean_gram_psd; assumption).
  split; [reflexivity|]. split; [reflexivity|].
  split; [apply mean_gram_symmetric|]. split; [exact Hpsd|].
  apply (cond_regularised_le HN (C := mean_gram N steps train)
           (alpha1 := alpha1) (alpha2 := alpha2)); try assumption.
  apply rect_mat_init.
Qed.

End Regularisation.

Section RegularisationWitness.

(** The eigenvalues of a diagonal 2 x 2 matrix are its diagonal entries. *)
Lemma eigenvalue_diag (a b l : R) :
  eigenvalue [[a; 0]; [0; b]] l <-> l = a \/ l = b.
Proof.
  split.
  - intros (v & Hlen & Hnz & Hv).
    destruct v as [|x [|y [|z v]]]; try discriminate.
    unfold matvec, bigsum in Hv. cbn in Hv. injection Hv as Hx Hy.
    destruct (Req_dec_T x 0) as [->|Hx0].
    + right. assert (Hy0 : y <> 0) by (intros ->; now apply Hnz).
      apply (Rmult_eq_reg_r y); [lra | assumption].
    + left. apply (Rmult_eq_reg_r x); [lra | assumption].
  - intros [->| ->].
    + exists [1; 0]. split; [reflexivity|]. split.
      * intros [= H]. lra.
      * unfold matvec, bigsum, vscale. cbn. real_list.
    + exists [0; 1]. split; [reflexivity|]. split.
      * intros [= H]. lra.
      * unfold matvec, bigsum, vscale. cbn. real_list.
Qed.

Lemma is_cond_diag (a b : R) :
  0 < a -> a <= b -> is_cond [[a; 0]; [0; b]] (b / a).
Proof.
  intros Ha Hab. exists b, a.
  split; [apply eigenvalue_diag; now right|].
  split; [apply eigenvalue_diag; now left|].
  split.
  - intros l Hl. apply eigenvalue_diag in Hl.
    rewrite !Rabs_pos_eq by (destruct Hl; lra). destruct Hl; lra.
  - split; [lra|]. now rewrite !Rabs_pos_eq by lra.
Qed.

Lemma regularisation_improves_conditioning_witness :
  [[3; 0]; [0; 6]] = mat_add (mean_gram 2 2 [diag12]) (mat_scale 2 (np_eye 2))
  /\ [[2; 0]; [0; 5]] = mat_add (mean_gram 2 2 [diag12]) (mat_scale 1 (np_eye 2))
  /\ symmetric (mean_gram 2 2 [diag12])
  /\ psd (mean_gram 2 2 [diag12])
  /\ 6 / 3 <= 5 / 2.
Proof.
  apply (@regularisation_improves_conditioning example_dim 2 2 [diag12] 2 1
           [(Finite 1, [[3; 0]; [0; 6]])] [(Finite 1, [[2; 0]; [0; 5]])]).
  - lia.
  - lia.
  - repeat constructor.
  - lra.
  - lra.
  - unfold covariances, example_dim, diag12. cbn [mapM bind].
    assert (E : get_c [[1; 0]; [0; 2]] 2 = Ok [[3; 0]; [0; 6]]) by by_evaluation.
    now rewrite E.
  - cbn [map snd]. by_evaluation.
  - unfold covariances, example_dim, diag12. cbn [mapM bind].
    assert (E : get_c [[1; 0]; [0; 2]] 1 = Ok [[2; 0]; [0; 5]]) by by_evaluation.
    now rewrite E.
  - cbn [map snd]. by_evaluation.
  - apply is_cond_diag; lra.
  - apply is_cond_diag; lra.
Defined.

End RegularisationWitness.

(* --------------------------------------------------------------------- *)
(** ** Stimulus generation *)
(* --------------------------------------------------------------------- *)

Section StimulusFacts.

Variable net : Network.
Variable filt : Smoother.
Variable N : Z.
Variable stim_width : Z.
Variable alpha : R.

Lemma norm_index_in_range (idx : Z) :
  (- N <= idx < N)%Z -> norm_index N idx = Ok (Z.to_nat (channel_of N idx)).
Proof.
  intros H. unfold norm_index, channel_of.
  destruct (idx <? 0)%Z eqn:E.
  - apply Z.ltb_lt in E.
    replace ((0 <=? idx + N) && (idx + N <? N))%Z with true; [reflexivity|].
    symmetry. apply andb_true_iff. split; [apply Z.leb_le | apply Z.ltb_lt]; lia.
  - apply Z.ltb_ge in E.
    replace ((0 <=? idx) && (idx <? N))%Z with true; [reflexivity|].
    symmetry. apply andb_true_iff. split; [apply Z.leb_le | apply Z.ltb_lt]; lia.
Qed.

Lemma mapM_norm_index (idxs : list Z) :
  Forall (fun idx => (- N <= idx < N)%Z) idxs ->
  mapM (norm_index N) idxs = Ok (map (fun idx => Z.to_nat (channel_of N idx)) idxs).
Proof.
  induction 1 as [|idx idxs H _ IH]; simpl; [reflexivity|].
  now rewrite (norm_index_in_range H), IH.
Qed.

Lemma channel_of_range (idx : Z) : (- N <= idx < N)%Z -> (0 <= channel_of N idx < N)%Z.
Proof. unfold channel_of. destruct (Z.ltb_spec idx 0); lia. Qed.

Lemma existsb_channel (j : nat) (idxs : list Z) :
  Forall (fun idx => (- N <= idx < N)%Z) idxs ->
  existsb (Nat.eqb j) (map (fun idx => Z.to_nat (channel_of N idx)) idxs)
  = existsb (fun idx => (Z.of_nat j =? channel_of N idx)%Z) idxs.
Proof.
  induction 1 as [|idx idxs H _ IH]; simpl; [reflexivity|].
  rewrite IH. f_equal. pose proof (channel_of_range H).
  destruct (Nat.eqb_spec j (Z.to_nat (channel_of N idx)));
    destruct (Z.eqb_spec (Z.of_nat j) (channel_of N idx)); try reflexivity; lia.
Qed.

Lemma clamp_index_inside (len i : Z) : (0 <= i <= len)%Z -> clamp_index len i = i.
Proof. intros H. unfold clamp_index. destruct (Z.ltb_spec i 0); lia. Qed.

Lemma clamp_index_above (len i : Z) : (0 <= len <= i)%Z -> clamp_index len i = len.
Proof. intros H. unfold clamp_index. destruct (Z.ltb_spec i 0); lia. Qed.

(** The array named [inp] before smoothing, for an onset inside the
    modelled domain. *)
Lemma stimulus_ok (stim cycle_steps : Z) (inp_indices : list Z) :
  (0 <= stim)%Z -> (0 <= cycle_steps)%Z -> (0 <= N)%Z -> (0 <= stim_width)%Z ->
  Forall (fun idx => (- N <= idx < N)%Z) inp_indices ->
  stimulus N stim_width alpha stim cycle_steps inp_indices
  = Ok (mat_init (Z.to_nat (stim + cycle_steps)) (Z.to_nat N)
          (fun i j =>
             if ((stim <=? Z.of_nat i)%Z && (Z.of_nat i <? stim + stim_width)%Z
                 && existsb (fun idx => (Z.of_nat j =? channel_of N idx)%Z) inp_indices)%bool
             then alpha else 0)).
Proof.
  intros Hs Hc HN Hw Hidx. unfold stimulus.
  replace ((stim + cycle_steps <? 0) || (N <? 0))%Z with false.
  2:{ symmetry. apply orb_false_iff. split; apply Z.ltb_ge; lia. }
  rewrite (mapM_norm_index Hidx). cbn [bind]. f_equal.
  apply mat_init_ext. intros i j Hi Hj.
  rewrite (existsb_channel j Hidx).
  rewrite clamp_index_inside by lia.
  destruct (existsb _ inp_indices); [|now rewrite !andb_false_r].
  rewrite !andb_true_r.
  destruct (Z.le_gt_cases (stim + stim_width) (stim + cycle_steps)) as [Hb|Hb].
  - rewrite clamp_index_inside by lia.
    destruct (Nat.leb_spec (Z.to_nat stim) i); destruct (Z.leb_spec stim (Z.of_nat i));
      try lia; cbn [andb]; try reflexivity.
    destruct (Nat.ltb_spec i (Z.to_nat (stim + stim_width)));
      destruct (Z.ltb_spec (Z.of_nat i) (stim + stim_width)); try lia; reflexivity.
  - rewrite clamp_index_above by lia.
    destruct (Nat.leb_spec (Z.to_nat stim) i); destruct (Z.leb_spec stim (Z.of_nat i));
      try lia; cbn [andb]; try reflexivity.
    destruct (Nat.ltb_spec i (Z.to_nat (stim + cycle_steps)));
      destruct (Z.ltb_spec (Z.of_nat i) (stim + stim_width)); try lia; reflexivity.
Qed.

(** The events of one pass through the loop body start with the reset and
    the simulator call on the smoothed stimulus. *)
Lemma trial_events (y0 st : net_state net) (cycle_steps sr start : Z)
    (inp_indices : list Z) (sigma : R) (i n : nat) (stim : Z) (M : matrix) :
  stimulus N stim_width alpha stim cycle_steps inp_indices = Ok M ->
  exists tl,
    snd (trial net filt N stim_width alpha y0 cycle_steps sr start
               inp_indices sigma i n stim st)
    = CallReset :: CallRun (gaussian_filter1d filt sigma M) sr :: tl
    /\ run_inputs tl = [].
Proof.
  intros HM. unfold trial. rewrite HM.
  destruct (net_run net (net_reset net st y0) (gaussian_filter1d filt sigma M) sr)
    as [[out|e] st2].
  - destruct (input_trace N (gaussian_filter1d filt sigma M) sr start inp_indices).
    + now exists [Printed (i + 1) n].
    + now exists [].
  - now exists [].
Qed.

(** C5 (as amended).  For an onset [stim >= 0] the array built before
    smoothing has [stim + cycle_steps] rows (not [cycle_steps]) and [N]
    columns; it holds [alpha] in the rows [stim <= i < stim + stim_width]
    (those that exist) of the channels named by [inp_indices] and zero
    elsewhere; the simulator receives this array after the Gaussian filter
    with the given [sigma]. *)
Theorem stimulus_is_pulse_after_onset (stim cycle_steps : Z) (inp_indices : list Z) :
  (0 <= stim)%Z -> (0 <= cycle_steps)%Z -> (0 <= N)%Z -> (0 <= stim_width)%Z ->
  Forall (fun idx => (- N <= idx < N)%Z) inp_indices ->
  exists M,
    stimulus N stim_width alpha stim cycle_steps inp_indices = Ok M
    /\ rect (Z.to_nat (stim + cycle_steps)) (Z.to_nat N) M
    /\ (forall i j, (i < Z.to_nat (stim + cycle_steps))%nat -> (j < Z.to_nat N)%nat ->
          get M i j
          = if ((stim <=? Z.of_nat i)%Z && (Z.of_nat i <? stim + stim_width)%Z
                && existsb (fun idx => (Z.of_nat j =? channel_of N idx)%Z) inp_indices)%bool
            then alpha else 0)
    /\ (forall (y0 st : net_state net) (sr start : Z) (sigma : R) (i n : nat),
          run_inputs
            (snd (trial net filt N stim_width alpha y0 cycle_steps sr start
                        inp_indices sigma i n stim st))
          = [gaussian_filter1d filt sigma M]).
Proof.
  intros Hs Hc HN Hw Hidx. eexists.
  split; [now apply stimulus_ok|].
  split; [apply rect_mat_init|].
  split.
  - intros i j Hi Hj. now rewrite get_mat_init.
  - intros y0 st sr start sigma i n.
    destruct (@trial_events y0 st cycle_steps sr start inp_indices sigma i n stim _
                (stimulus_ok Hs Hc HN Hw Hidx)) as (tl & -> & Htl).
    cbn [run_inputs flat_map app]. fold (run_inputs tl). now rewrite Htl.
Qed.

End StimulusFacts.

(* --------------------------------------------------------------------- *)
(** ** The trial loop *)
(* --------------------------------------------------------------------- *)

Section TrialLoopFacts.

Variable net : Network.
Variable filt : Smoother.
Variable N : Z.
Variable stim_width : Z.
Variable alpha : R.

Lemma run_inputs_app (evs evs' : list event) :
  run_inputs (evs ++ evs') = run_inputs evs ++ run_inputs evs'.
Proof. unfold run_inputs. apply flat_map_app. Qed.

Lemma py_index_head {A : Type} (a : A) (l : list A) : py_index (a :: l) 0 = Ok a.
Proof.
  unfold py_index. cbn [Z.ltb Z.compare length].
  replace ((0 <=? 0) && (0 <? Z.of_nat (S (length l))))%Z with true; [reflexivity|].
  symmetry. apply andb_true_iff. split; [apply Z.leb_le | apply Z.ltb_lt]; lia.
Qed.

Lemma input_trace_ok (inp : matrix) (sr start : Z) (inp_indices : list Z) :
  sr <> 0%Z -> inp_indices <> [] ->
  Forall (fun idx => (- N <= idx < N)%Z) inp_indices ->
  exists trace, input_trace N inp sr start inp_indices = Ok trace.
Proof.
  intros Hsr Hne Hidx. destruct inp_indices as [|j0 idxs]; [congruence|].
  unfold input_trace. rewrite py_index_head. cbn [bind].
  inversion Hidx as [|? ? Hj0 _]; subst.
  rewrite (norm_index_in_range Hj0). cbn [bind].
  unfold py_stride. destruct (Z.eqb_spec sr 0); [contradiction|].
  destruct (0 <? sr)%Z; cbn [bind]; eexists; reflexivity.
Qed.

Section Loop.

Variables (y0 : net_state net) (cycle_steps sr start : Z).
Variables (inp_indices : list Z) (sigma : R) (n : nat).

Hypothesis run_returns :
  forall st inp, exists out, fst (net_run net st inp sr) = Ok out.
Hypothesis sr_nonzero : sr <> 0%Z.
Hypothesis cycle_nonneg : (0 <= cycle_steps)%Z.
Hypothesis N_nonneg : (0 <= N)%Z.
Hypothesis width_nonneg : (0 <= stim_width)%Z.
Hypothesis indices_nonempty : inp_indices <> [].
Hypothesis indices_in_range : Forall (fun idx => (- N <= idx < N)%Z) inp_indices.

(** Every trial of the loop reaches the simulator, whatever its onset. *)
Lemma trials_run_every_onset (stim_onsets : list Z) :
  Forall (fun stim => (0 <= stim)%Z) stim_onsets ->
  forall (i : nat) (st : net_state net),
  exists signals inputs st' evs,
    trials net filt N stim_width alpha y0 cycle_steps sr start inp_indices sigma
           n i stim_onsets st
    = (Ok (signals, inputs), st', evs)
    /\ length signals = length stim_onsets
    /\ Forall2 (fun stim inp => nrows inp = Z.to_nat (stim + cycle_steps))
               stim_onsets (run_inputs evs).
Proof.
  induction 1 as [|stim rest Hstim _ IH]; intros i st.
  - exists [], [], st, []. repeat split. constructor.
  - cbn [trials]. unfold trial.
    rewrite (stimulus_ok alpha Hstim cycle_nonneg N_nonneg width_nonneg indices_in_range).
    set (M := mat_init _ _ _).
    destruct (run_returns (net_reset net st y0) (gaussian_filter1d filt sigma M))
      as [out Hout].
    destruct (net_run net (net_reset net st y0) (gaussian_filter1d filt sigma M) sr)
      as [obs st2]. cbn [fst] in Hout. subst obs.
    destruct (@input_trace_ok (gaussian_filter1d filt sigma M) sr start inp_indices
                sr_nonzero indices_nonempty indices_in_range) as [trace ->].
    destruct (IH (S i) st2) as (signals & inputs & st' & evs & -> & Hlen & Hall).
    eexists _, _, st', _. split; [reflexivity|].
    split; [simpl; now rewrite Hlen|].
    cbn [app run_inputs flat_map]. fold (run_inputs evs).
    constructor; [|exact Hall].
    apply (rect_nrows (c := Z.to_nat N)).
    apply gaussian_filter1d_rect. apply rect_mat_init.
Qed.

End Loop.

(** For all non-negative onsets, however large, and a simulator that
    returns, the call returns normally after invoking the simulator once
    per onset, in order, on an input of [onset + cycle_steps] rows. *)
Theorem get_signals_runs_every_onset
    (stim_onsets : list Z) (cycle_steps sr : Z) (y0 st : net_state net)
    (inp_indices : list Z) (sigma : R) :
  (forall st inp, exists out, fst (net_run net st inp sr) = Ok out) ->
  sr <> 0%Z -> (0 <= cycle_steps)%Z -> (0 <= N)%Z -> (0 <= stim_width)%Z ->
  inp_indices <> [] ->
  Forall (fun idx => (- N <= idx < N)%Z) inp_indices ->
  Forall (fun stim => (0 <= stim)%Z) stim_onsets ->
  exists signals inputs st' evs,
    get_signals net filt N stim_width alpha stim_onsets cycle_steps sr y0
                inp_indices sigma st
    = (Ok (signals, inputs), st', evs)
    /\ length signals = length stim_onsets
    /\ Forall2 (fun stim inp => nrows inp = Z.to_nat (stim + cycle_steps))
               stim_onsets (run_inputs evs).
Proof.
  intros Hrun Hsr Hc HN Hw Hne Hidx Hon. unfold get_signals.
  destruct (Z.eqb_spec sr 0); [contradiction|].
  now apply trials_run_every_onset.
Qed.

End TrialLoopFacts.

(* --------------------------------------------------------------------- *)
(** ** Worked calls of [get_signals] *)
(* --------------------------------------------------------------------- *)

Section WorkedCalls.

(** C5 (counterexample).  With onset 1 and a cycle of 2 steps the array
    built before smoothing has 3 rows, not 2. *)
Lemma stimulus_rows_counterexample :
  stimulus 1 1 80 1 2 [0%Z] = Ok [[0]; [80]; [0]]
  /\ shape [[0]; [80]; [0]] = (3%nat, 1%nat)
  /\ shape [[0]; [80]; [0]] <> (Z.to_nat 2, Z.to_nat 1).
Proof.
  split; [reflexivity|]. split; [reflexivity|]. discriminate.
Qed.

Lemma stimulus_is_pulse_after_onset_witness :
  exists M,
    stimulus 2 1 80 1 2 [(-1)%Z] = Ok M
    /\ rect (Z.to_nat (1 + 2)) (Z.to_nat 2) M
    /\ (forall i j, (i < Z.to_nat (1 + 2))%nat -> (j < Z.to_nat 2)%nat ->
          get M i j
          = if ((1 <=? Z.of_nat i)%Z && (Z.of_nat i <? 1 + 1)%Z
                && existsb (fun idx => (Z.of_nat j =? channel_of 2 idx)%Z) [(-1)%Z])%bool
            then 80 else 0)
    /\ (forall (y0 st : net_state echo_net) (sr start : Z) (sigma : R) (i n : nat),
          run_inputs
            (snd (trial echo_net no_smoothing 2 1 80 y0 2 sr start
                        [(-1)%Z] sigma i n 1 st))
          = [gaussian_filter1d no_smoothing sigma M]).
Proof.
  apply (@stimulus_is_pulse_after_onset echo_net no_smoothing 2 1 80 1 2 [(-1)%Z]).
  - lia.
  - lia.
  - lia.
  - lia.
  - repeat constructor; lia.
Defined.

Lemma get_signals_runs_every_onset_witness :
  exists signals inputs st' evs,
    get_signals echo_net no_smoothing 1 1 1 [10%Z; 0%Z] 2 1 tt [0%Z] 1 tt
    = (Ok (signals, inputs), st', evs)
    /\ length signals = length [10%Z; 0%Z]
    /\ Forall2 (fun stim inp => nrows inp = Z.to_nat (stim + 2))
               [10%Z; 0%Z] (run_inputs evs).
Proof.
  apply (@get_signals_runs_every_onset echo_net no_smoothing 1 1 1
           [10%Z; 0%Z] 2 1 tt tt [0%Z] 1).
  - intros st inp. eexists. reflexivity.
  - lia.
  - lia.
  - lia.
  - lia.
  - discriminate.
  - repeat constructor; lia.
  - repeat constructor; lia.
Defined.

(** A direct call with [steps = 0], which the script cannot make (its
    [target_1] needs [steps > delay]): with [cycle_steps = 1] and [sr = 2]
    the number of steps is [round(0.5) = 0], and the slice [[-0:]] keeps
    every sample that the simulator returns. *)
Theorem zero_steps_keeps_every_sample :
  round_div 1 2 = 0%Z
  /\ get_signals echo_net no_smoothing 1 1 1 [0%Z; 2%Z] 1 2 tt [0%Z] 1 tt
     = (Ok ([[[1]]; [[0; 1]]], [[1]; [0; 1]]), tt,
        [CallReset; CallRun [[1]] 2; Printed 1 2;
         CallReset; CallRun [[0]; [0]; [1]] 2; Printed 2 2])
  /\ fst (net_run echo_net tt [[1]] 2) = Ok [[1]]
  /\ fst (net_run echo_net tt [[0]; [0]; [1]] 2) = Ok [[0]; [1]]
  /\ map ncols [[[1]]; [[0; 1]]] = [1%nat; 2%nat]
  /\ Z.to_nat (round_div 1 2) = 0%nat.
Proof.
  repeat split; reflexivity.
Qed.

End WorkedCalls.

(* --------------------------------------------------------------------- *)
(** ** Truncation to the last [steps] samples *)
(* --------------------------------------------------------------------- *)

Section Truncation.

Variable net : Network.
Variable filt : Smoother.
Variable N : Z.
Variable stim_width : Z.
Variable alpha : R.

Lemma Forall_skipn_keep {A : Type} (P : A -> Prop) (k : nat) (l : list A) :
  Forall P l -> Forall P (skipn k l).
Proof.
  revert l. induction k as [|k IH]; intros l H; [exact H|].
  destruct l as [|a l]; [constructor|]. inversion H; subst. now apply IH.
Qed.

(** [out[-start:]] keeps exactly [start] rows when [1 <= start <= len(out)]. *)
Lemma last_rows_rect (out : matrix) (c : nat) (start : Z) :
  (0 < start)%Z -> (Z.to_nat start <= nrows out)%nat ->
  rect (nrows out) c out ->
  rect (Z.to_nat start) c (py_slice_from out (- start)).
Proof.
  intros Hs Hlen [_ Hrows]. unfold py_slice_from, clamp_index, nrows in *.
  destruct (Z.ltb_spec (- start) 0); [|lia].
  split.
  - rewrite length_skipn. lia.
  - now apply Forall_skipn_keep.
Qed.

Section Loop.

Variables (y0 : net_state net) (cycle_steps sr start : Z).
Variables (inp_indices : list Z) (sigma : R) (n : nat).

Hypothesis start_pos : (0 < start)%Z.
Hypothesis enough_samples :
  forall st inp out st',
    net_run net st inp sr = (Ok out, st') ->
    exists c, (0 < c)%nat /\ rect (nrows out) c out
              /\ (Z.to_nat start <= nrows out)%nat.

Lemma trials_signal_columns (stim_onsets : list Z) :
  forall (i : nat) (st st' : net_state net) signals inputs evs,
    trials net filt N stim_width alpha y0 cycle_steps sr start inp_indices sigma
           n i stim_onsets st
    = (Ok (signals, inputs), st', evs) ->
    Forall (fun s => ncols s = Z.to_nat start) signals.
Proof.
  induction stim_onsets as [|stim rest IH]; intros i st st' signals inputs evs H.
  - cbn [trials] in H. injection H as <- _ _ _. constructor.
  - cbn [trials] in H. unfold trial in H.
    destruct (stimulus N stim_width alpha stim cycle_steps inp_indices) as [M|e];
      [|discriminate].
    destruct (net_run net (net_reset net st y0) (gaussian_filter1d filt sigma M) sr)
      as [[out|e] st2] eqn:Hrun; [|discriminate].
    destruct (input_trace N (gaussian_filter1d filt sigma M) sr start inp_indices)
      as [trace|e]; [|discriminate].
    destruct (trials net filt N stim_width alpha y0 cycle_steps sr start
                inp_indices sigma n (S i) rest st2)
      as [[[[sigs ins]|e] st3] evs'] eqn:Hrest; [|discriminate].
    injection H as <- _ _ _.
    constructor; [|now apply (IH _ _ _ _ _ _ Hrest)].
    destruct (enough_samples _ _ Hrun) as (c & Hc & Hrect & Hlen).
    pose proof (gaussian_filter1d_rect filt sigma
                  (last_rows_rect start_pos Hlen Hrect)) as Hf.
    unfold transpose.
    rewrite (rect_nrows Hf), (rect_ncols Hf) by lia.
    apply ncols_mat_init. exact Hc.
Qed.

End Loop.

(** For [steps >= 1] the truncation is as claimed: when the simulator returns
    at least [steps] samples (of at least one channel) in every trial, each
    recorded signal has exactly [steps] time columns. *)
Lemma signals_have_steps_columns
    (stim_onsets : list Z) (cycle_steps sr : Z) (y0 st st' : net_state net)
    (inp_indices : list Z) (sigma : R) signals inputs evs :
  (0 < round_div cycle_steps sr)%Z ->
  (forall st inp out st',
      net_run net st inp sr = (Ok out, st') ->
      exists c, (0 < c)%nat /\ rect (nrows out) c out
                /\ (Z.to_nat (round_div cycle_steps sr) <= nrows out)%nat) ->
  get_signals net filt N stim_width alpha stim_onsets cycle_steps sr y0
              inp_indices sigma st
  = (Ok (signals, inputs), st', evs) ->
  Forall (fun s => ncols s = Z.to_nat (round_div cycle_steps sr)) signals.
Proof.
  intros Hpos Hrun H. unfold get_signals in H.
  destruct (sr =? 0)%Z; [discriminate|].
  eapply trials_signal_columns; eassumption.
Qed.

End Truncation.

(* ===================================================================== *)
(** * Further properties of the code *)
(* ===================================================================== *)

(* --------------------------------------------------------------------- *)
(** ** [lorentzian] *)
(* --------------------------------------------------------------------- *)

Section LorentzianFacts.

Variable rvs : R -> R -> nat -> R.
Variables eta delta lb ub : R.

Lemma rejected_false (s : R) : rejected lb ub s = false <-> lb < s < ub.
Proof.
  unfold rejected. destruct (Rle_dec s lb); [split; [discriminate | lra]|].
  destruct (Rle_dec ub s); split; try discriminate; try reflexivity; lra.
Qed.

Lemma draw_accepted_sound (fuel k : nat) (s : R) (k' : nat) :
  draw_accepted rvs eta delta lb ub fuel k = Some (s, k') ->
  lb < s < ub /\ (k < k')%nat /\ s = rvs eta delta (k' - 1).
Proof.
  revert k. induction fuel as [|fuel IH]; intros k H; [discriminate|].
  cbn [draw_accepted] in H.
  destruct (rejected lb ub (rvs eta delta k)) eqn:E.
  - destruct (IH _ H) as (H1 & H2 & H3). repeat split; try apply H1; [lia | exact H3].
  - injection H as <- <-. apply rejected_false in E.
    split; [exact E|]. split; [lia|]. f_equal. lia.
Qed.

Lemma draw_accepted_returns (fuel k : nat) :
  (exists j, (j < fuel)%nat /\ rejected lb ub (rvs eta delta (k + j)) = false) ->
  exists s k', draw_accepted rvs eta delta lb ub fuel k = Some (s, k').
Proof.
  revert k. induction fuel as [|fuel IH]; intros k (j & Hj & Hacc); [lia|].
  cbn [draw_accepted].
  destruct (rejected lb ub (rvs eta delta k)) eqn:E; [|now eexists _, _].
  destruct j as [|j]; [rewrite Nat.add_0_r in Hacc; congruence|].
  apply IH. exists j. split; [lia|].
  now replace (S k + j)%nat with (k + S j)%nat by lia.
Qed.

Lemma fill_samples_sound (fuel m k : nat) (samples : list R) (k' : nat) :
  fill_samples rvs eta delta lb ub fuel m k = Some (samples, k') ->
  length samples = m
  /\ (k <= k')%nat
  /\ Forall (fun s => lb < s < ub /\ exists i, (i < k')%nat /\ s = rvs eta delta i)
            samples.
Proof.
  revert k samples k'. induction m as [|m IH]; intros k samples k' H.
  - injection H as <- <-. repeat split; [lia | constructor].
  - cbn [fill_samples] in H.
    destruct (draw_accepted rvs eta delta lb ub fuel k) as [[s k1]|] eqn:D;
      [|discriminate].
    destruct (fill_samples rvs eta delta lb ub fuel m k1) as [[ss k2]|] eqn:F;
      [|discriminate].
    injection H as <- <-.
    destruct (draw_accepted_sound _ _ D) as (Hs & Hk & Hi).
    destruct (IH _ _ _ F) as (Hlen & Hle & Hall).
    split; [simpl; now rewrite Hlen|]. split; [lia|].
    constructor; [|exact Hall].
    split; [exact Hs|]. exists (k1 - 1)%nat. split; [lia | exact Hi].
Qed.

Lemma fill_samples_returns (fuel m k : nat) :
  (forall k, exists j, (j < fuel)%nat
                       /\ rejected lb ub (rvs eta delta (k + j)) = false) ->
  exists samples k', fill_samples rvs eta delta lb ub fuel m k = Some (samples, k').
Proof.
  intros Hav. revert k. induction m as [|m IH]; intros k; [now eexists _, _|].
  cbn [fill_samples].
  destruct (draw_accepted_returns k (Hav k)) as (s & k1 & ->).
  destruct (IH k1) as (ss & k2 & ->). now eexists _, _.
Qed.

(** X1. Whenever [lorentzian] returns, it returns exactly [n] samples, each
    one a value drawn from the sampler and strictly between [lb] and [ub];
    and it does return when the sampler yields an acceptable value within
    every [fuel] consecutive draws. *)
Theorem lorentzian_samples_within_bounds (fuel : nat) (n : Z) :
  (0 <= n)%Z ->
  (forall samples draws,
      lorentzian rvs eta delta lb ub fuel n = Some (Ok (samples, draws)) ->
      length samples = Z.to_nat n
      /\ Forall (fun s => lb < s < ub
                          /\ exists i, (i < draws)%nat /\ s = rvs eta delta i)
                samples)
  /\ ((forall k, exists j, (j < fuel)%nat
                           /\ rejected lb ub (rvs eta delta (k + j)) = false) ->
      exists samples draws,
        lorentzian rvs eta delta lb ub fuel n = Some (Ok (samples, draws))).
Proof.
  intros Hn. unfold lorentzian.
  destruct (Z.ltb_spec n 0) as [|_]; [lia|]. split.
  - intros samples draws H.
    destruct (fill_samples rvs eta delta lb ub fuel (Z.to_nat n) 0)
      as [[ss k]|] eqn:F; [|discriminate].
    cbn [option_map] in H. injection H as <- <-.
    destruct (fill_samples_sound _ _ _ F) as (H1 & _ & H3). now split.
  - intros Hav.
    destruct (fill_samples_returns (Z.to_nat n) 0 Hav) as (ss & k & ->).
    now eexists _, _.
Qed.

(** X2. With an empty acceptance interval ([ub <= lb]) every draw is
    rejected: a call that asks for at least one sample never returns,
    however many draws it is given. *)
Theorem lorentzian_empty_interval_never_returns (fuel : nat) (n : Z) :
  ub <= lb -> (0 < n)%Z ->
  lorentzian rvs eta delta lb ub fuel n = None.
Proof.
  intros Hb Hn. unfold lorentzian. destruct (Z.ltb_spec n 0) as [|_]; [lia|].
  assert (R : forall s, rejected lb ub s = true).
  { intros s. unfold rejected. destruct (Rle_dec s lb); [reflexivity|].
    destruct (Rle_dec ub s); [reflexivity | lra]. }
  assert (D : forall f k, draw_accepted rvs eta delta lb ub f k = None).
  { induction f as [|f IH]; intros k; [reflexivity|].
    cbn [draw_accepted]. now rewrite R. }
  destruct (Z.to_nat n) as [|m] eqn:E; [lia|].
  cbn [fill_samples]. now rewrite D.
Qed.

End LorentzianFacts.

Lemma alternating_rvs_accepted (k : nat) :
  exists j, (j < 2)%nat /\ rejected 0 2 (alternating_rvs 0 1 (k + j)) = false.
Proof.
  destruct (Nat.even k) eqn:E.
  - exists 1%nat. split; [lia|]. apply rejected_false. unfold alternating_rvs.
    rewrite Nat.add_1_r, Nat.even_succ, <- Nat.negb_even, E. simpl. lra.
  - exists 0%nat. split; [lia|]. apply rejected_false. unfold alternating_rvs.
    rewrite Nat.add_0_r, E. lra.
Qed.

Lemma lorentzian_samples_within_bounds_witness :
  exists samples draws,
    lorentzian alternating_rvs 0 1 0 2 2 3 = Some (Ok (samples, draws))
    /\ length samples = Z.to_nat 3
    /\ Forall (fun s => 0 < s < 2
                        /\ exists i, (i < draws)%nat /\ s = alternating_rvs 0 1 i)
              samples.
Proof.
  destruct (@lorentzian_samples_within_bounds alternating_rvs 0 1 0 2 2 3)
    as [Hsound Hret]; [lia|].
  destruct (Hret alternating_rvs_accepted) as (samples & draws & E).
  exists samples, draws. split; [exact E|]. now apply Hsound.
Defined.

Lemma lorentzian_empty_interval_never_returns_witness :
  lorentzian alternating_rvs 0 1 2 0 5 1 = None.
Proof.
  apply (@lorentzian_empty_interval_never_returns alternating_rvs 0 1 2 0 5 1).
  - lra.
  - lia.
Defined.

(* --------------------------------------------------------------------- *)
(** ** Connection probabilities *)
(* --------------------------------------------------------------------- *)

Section ConnectionFacts.

Lemma Rpower_base_1 (p : R) : Rpower 1 p = 1.
Proof. unfold Rpower. now rewrite ln_1, Rmult_0_r, exp_0. Qed.

Lemma Rpower_ge_1 (a p : R) : 1 <= a -> 0 <= p -> 1 <= Rpower a p.
Proof.
  intros Ha Hp. rewrite <- (Rpower_base_1 p).
  apply Rle_Rpower_l; [exact Hp | lra].
Qed.

(** X3. Within the range of float64 both kinds of connection weight are
    positive at positive distances and do not grow with the distance, for
    distances [0 < x < y <= 2^63]: the weights of ["inverse"], for a
    positive exponent and as long as [y^inverse_pow] does not overflow, do
    not increase (rounding can make neighbours equal), and the weights of
    ["exp"] decrease strictly as long as [exp(-y)] is a normal float. *)
Theorem dist_decreases_with_distance (x y : Z) (zero_val inverse_pow : R) :
  (0 < x)%Z -> (x < y)%Z -> (y <= 2 ^ 63)%Z ->
  (0 < inverse_pow -> Rpower (IZR y) inverse_pow < f64_overflow ->
   exists dx dy,
     dist x "inverse" zero_val inverse_pow = Ok (Fin dx)
     /\ dist y "inverse" zero_val inverse_pow = Ok (Fin dy)
     /\ 0 < dy <= dx)
  /\ (f64_min_normal <= exp (- IZR y) ->
      exists ex ey,
        dist x "exp" zero_val inverse_pow = Ok (Fin ex)
        /\ dist y "exp" zero_val inverse_pow = Ok (Fin ey)
        /\ 0 < ey < ex).
Proof.
  intros Hx Hxy Hy.
  assert (Rx : 1 <= IZR x) by (apply IZR_le; lia).
  assert (Rxy : IZR x < IZR y) by (apply IZR_lt; lia).
  assert (Ry : IZR y < f64_overflow).
  { apply Rle_lt_trans with (IZR (2 ^ 63)); [now apply IZR_le|].
    unfold f64_overflow. apply IZR_lt. now vm_compute. }
  pose proof f64_overflow_gt_1 as Ho.
  assert (Hinv : / f64_overflow < 1).
  { rewrite <- Rinv_1. apply Rinv_lt_contravar; lra. }
  split.
  - intros Hp Hpow.
    pose proof (Rpower_ge_1 (a := IZR x) (p := inverse_pow) Rx ltac:(lra)) as Px.
    assert (Plt : Rpower (IZR x) inverse_pow < Rpower (IZR y) inverse_pow)
      by (apply Rlt_Rpower_l; lra).
    exists (1 / Rpower (IZR x) inverse_pow), (1 / Rpower (IZR y) inverse_pow).
    split; [apply dist_inverse_finite; [lia | lra | lra]|].
    split; [apply dist_inverse_finite; [lia | lra | lra]|].
    unfold Rdiv. rewrite !Rmult_1_l. split.
    + apply Rinv_0_lt_compat. lra.
    + apply Rlt_le. apply Rinv_lt_contravar; [nra | exact Plt].
  - intros Hexp. pose proof f64_min_normal_above as Hn.
    assert (Elt : exp (- IZR y) < exp (- IZR x)) by (apply exp_increasing; lra).
    exists (exp (- IZR x)), (exp (- IZR y)).
    split; [apply dist_exp_value; [lia | lra]|].
    split; [apply dist_exp_value; [lia | lra]|].
    split; [apply exp_pos | exact Elt].
Qed.

Lemma Rsum_ge_member (x : R) (l : list R) :
  Forall (fun a => 0 <= a) l -> In x l -> x <= Rsum l.
Proof.
  induction 1 as [|a l Ha Hl IH]; intros Hin; [contradiction|].
  cbn [Rsum fold_right]. fold (Rsum l).
  assert (0 <= Rsum l).
  { rewrite <- (map_id l). apply Rsum_nonneg. intros b Hb.
    now apply (proj1 (Forall_forall _ _) Hl). }
  destruct Hin as [->|Hin]; [lra|]. specialize (IH Hin). lra.
Qed.

Lemma Rsum_le_length (l : list R) :
  Forall (fun a => a <= 1) l -> Rsum l <= INR (length l).
Proof.
  induction 1 as [|a l Ha _ IH]; [cbn; lra|].
  cbn [Rsum fold_right]. fold (Rsum l).
  change (length (a :: l)) with (S (length l)). rewrite S_INR. lra.
Qed.

(** The sum of non-negative floats that stays within the range. *)
Lemma np_sum_finite (l : list R) :
  forall a : R,
    0 <= a -> Forall (fun w => 0 <= w) l -> a + Rsum l < f64_overflow ->
    fold_left np_add (map Fin l) (Fin a) = Fin (a + Rsum l).
Proof.
  induction l as [|w l IH]; intros a Ha Hl Hsum.
  - cbn. f_equal. lra.
  - inversion Hl as [|? ? Hw Hl']; subst.
    cbn [map fold_left Rsum fold_right] in *. fold (Rsum l) in *.
    assert (0 <= Rsum l).
    { rewrite <- (map_id l). apply Rsum_nonneg. intros b Hb.
      now apply (proj1 (Forall_forall _ _) Hl'). }
    pose proof f64_overflow_gt_1.
    unfold np_add at 2.
    destruct (Rle_dec f64_overflow (a + w)); [lra|].
    destruct (Rle_dec (a + w) (- f64_overflow)); [lra|].
    rewrite IH by (try assumption; lra). f_equal. lra.
Qed.

Section Table.

Variables (N : Z) (conn_pow : R).
Hypothesis N_range : (2 <= N <= 2 ^ 31)%Z.
Hypothesis pow_nonneg : 0 <= conn_pow.
Hypothesis pow_in_range : Rpower (IZR (N - 1)) conn_pow < f64_overflow.

Lemma power_in_range (idx : nat) :
  (0 < idx < Z.to_nat N)%nat ->
  1 <= Rpower (IZR (Z.of_nat idx)) conn_pow < f64_overflow.
Proof.
  intros Hidx.
  assert (H1 : 1 <= IZR (Z.of_nat idx)) by (apply IZR_le; lia).
  split; [now apply Rpower_ge_1|].
  apply Rle_lt_trans with (2 := pow_in_range).
  apply Rle_Rpower_l; [exact pow_nonneg|].
  split; [lra | apply IZR_le; lia].
Qed.

Lemma weight_range (idx : nat) :
  (idx < Z.to_nat N)%nat ->
  weight conn_pow idx = 0 \/ / f64_overflow < weight conn_pow idx <= 1.
Proof.
  intros Hidx. unfold weight.
  destruct (Z.ltb_spec 0 (Z.of_nat idx)); [right | now left].
  destruct (@power_in_range idx ltac:(lia)) as [Hlo Hhi].
  unfold Rdiv. rewrite Rmult_1_l. split.
  - apply Rinv_lt_contravar; [|exact Hhi].
    pose proof f64_overflow_gt_1. nra.
  - rewrite <- Rinv_1. apply Rinv_le_contravar; lra.
Qed.

Lemma np_dist_inverse_weight (idx : nat) :
  (idx < Z.to_nat N)%nat ->
  np_dist_inverse (Z.of_nat idx) 0 conn_pow = Fin (weight conn_pow idx).
Proof.
  intros Hidx. unfold np_dist_inverse, weight. rewrite Z.gtb_ltb.
  destruct (Z.ltb_spec 0 (Z.of_nat idx)); [|reflexivity].
  destruct (@power_in_range idx ltac:(lia)) as [Hlo Hhi].
  pose proof f64_underflow_lt_1. pose proof f64_overflow_gt_1.
  pose proof f64_underflow_overflow. pose proof f64_underflow_pos.
  set (v := Rpower (IZR (Z.of_nat idx)) conn_pow) in *.
  rewrite (f64_round_in_range (q := v))
    by (rewrite Rabs_right by lra; first [lra | right; lra]).
  unfold np_div. rewrite is_zero_false by lra.
  assert (Hq : 0 < 1 / v <= 1).
  { unfold Rdiv. rewrite Rmult_1_l. split; [apply Rinv_0_lt_compat; lra|].
    rewrite <- Rinv_1. apply Rinv_le_contravar; lra. }
  apply f64_round_in_range; rewrite Rabs_right by lra; [right | lra].
  apply (Rmult_lt_reg_r v); [lra|].
  unfold Rdiv. rewrite Rmult_1_l, Rinv_l by lra. nra.
Qed.

(** X4. For [2 <= N <= 2^31] units and an exponent [conn_pow >= 0] for
    which [(N-1)^conn_pow] is within the range of float64, the normalised
    connection table is a probability distribution over the distances
    [0 .. N-1]: it has [N] finite entries that add up to one, the entry of
    distance zero is zero and every other entry is positive. *)
Theorem connection_pdfs_is_distribution :
  exists qs : list R,
    connection_pdfs N conn_pow = map Fin qs
    /\ length qs = Z.to_nat N
    /\ Rsum qs = 1
    /\ nth 0 qs 0 = 0
    /\ forall i, (0 < i < Z.to_nat N)%nat -> 0 < nth i qs 0.
Proof.
  unfold connection_pdfs.
  set (n := Z.to_nat N). set (ws := map (weight conn_pow) (seq 0 n)).
  assert (Hn : (2 <= n)%nat) by (unfold n; lia).
  pose proof f64_overflow_gt_1 as Ho. pose proof f64_overflow_large as Hlarge.
  pose proof f64_underflow_pos as Hu. pose proof f64_underflow_small as Hsmall.
  assert (Hpdfs : map (fun idx => np_dist_inverse (Z.of_nat idx) 0 conn_pow) (seq 0 n)
                  = map Fin ws).
  { unfold ws. rewrite map_map. apply map_ext_in. intros idx Hidx.
    apply in_seq in Hidx. apply np_dist_inverse_weight. unfold n in *. lia. }
  rewrite Hpdfs. clear Hpdfs.
  assert (Hrange : Forall (fun w => w = 0 \/ / f64_overflow < w <= 1) ws).
  { apply Forall_forall. intros w Hw. apply in_map_iff in Hw as (idx & <- & Hidx).
    apply in_seq in Hidx. apply weight_range. unfold n in *. lia. }
  assert (Hinv : 0 < / f64_overflow) by (apply Rinv_0_lt_compat; lra).
  assert (Hnn : Forall (fun w => 0 <= w) ws).
  { apply (Forall_impl _ (P := fun w => w = 0 \/ / f64_overflow < w <= 1));
      [|exact Hrange]. intros w [->|H]; lra. }
  assert (Hle1 : Forall (fun w => w <= 1) ws).
  { apply (Forall_impl _ (P := fun w => w = 0 \/ / f64_overflow < w <= 1));
      [|exact Hrange]. intros w [->|H]; lra. }
  assert (Hw1 : weight conn_pow 1 = 1).
  { unfold weight. cbn [Z.of_nat Pos.of_succ_nat Z.ltb Z.compare].
    rewrite Rpower_base_1. lra. }
  assert (Hlow : 1 <= Rsum ws).
  { rewrite <- Hw1. apply Rsum_ge_member; [exact Hnn|].
    apply in_map. apply in_seq. lia. }
  assert (Hhigh : Rsum ws <= IZR (2 ^ 31)).
  { apply Rle_trans with (1 := Rsum_le_length Hle1).
    unfold ws. rewrite length_map, length_seq, INR_IZR_INZ.
    apply IZR_le. unfold n. lia. }
  unfold np_sum. rewrite (np_sum_finite (a := 0) (l := ws)) by (try assumption; lra).
  rewrite Rplus_0_l. set (s := Rsum ws) in *.
  exists (map (fun w => w / s) ws).
  split.
  { rewrite !map_map. apply map_ext_in. intros w Hw.
    pose proof (proj1 (Forall_forall _ _) Hrange w Hw) as Hr.
    unfold np_div. rewrite is_zero_false by lra.
    apply f64_round_in_range.
    - destruct Hr as [->|Hr]; [left; unfold Rdiv; ring | right].
      assert (Hq : 0 < w / s) by (apply Rdiv_lt_0_compat; lra).
      rewrite Rabs_right by lra.
      apply (Rmult_lt_reg_r s); [lra|].
      unfold Rdiv. rewrite Rmult_assoc, Rinv_l, Rmult_1_r by lra.
      apply Rle_lt_trans with (f64_underflow * IZR (2 ^ 31)); [nra|].
      apply Rlt_trans with (2 := proj1 Hr).
      apply (Rmult_lt_reg_r f64_overflow); [lra|].
      rewrite Rinv_l by lra. lra.
    - assert (Hq : 0 <= w / s <= 1).
      { assert (0 <= w <= 1) by (destruct Hr as [->|Hr]; lra).
        split; [apply Rmult_le_pos; [lra | apply Rlt_le, Rinv_0_lt_compat; lra]|].
        apply (Rmult_le_reg_r s); [lra|].
        unfold Rdiv. rewrite Rmult_assoc, Rinv_l, Rmult_1_r by lra. lra. }
      rewrite Rabs_right by lra. lra. }
  split; [unfold ws; now rewrite !length_map, length_seq|].
  split.
  { rewrite (Rsum_scal_r (/ s) (fun w => w)), map_id. fold s.
    apply Rinv_r. lra. }
  assert (Hnth : forall i, (i < n)%nat ->
            nth i (map (fun w => w / s) ws) 0 = weight conn_pow i / s).
  { intros i Hi. unfold ws. rewrite map_map.
    now rewrite (nth_map_seq (fun k => weight conn_pow k / s)). }
  split.
  - rewrite Hnth by lia. unfold weight. cbn. lra.
  - intros i Hi. rewrite Hnth by (unfold n; lia).
    apply Rdiv_lt_0_compat; [|lra].
    destruct (@weight_range i ltac:(lia)) as [H0|H0]; [|lra].
    exfalso. unfold weight in H0.
    destruct (Z.ltb_spec 0 (Z.of_nat i)); [|lia].
    pose proof (Rpower_pos (IZR (Z.of_nat i)) conn_pow).
    assert (0 < 1 / Rpower (IZR (Z.of_nat i)) conn_pow)
      by (apply Rdiv_lt_0_compat; lra).
    lra.
Qed.

End Table.

End ConnectionFacts.

Lemma exp_2_le_9 : exp 2 <= 9.
Proof.
  replace 2 with (1 + 1) by lra. rewrite exp_plus.
  pose proof exp_le_3. pose proof (exp_pos 1). nra.
Qed.

Lemma dist_decreases_with_distance_witness :
  (exists dx dy,
      dist 1 "inverse" 0 (3 / 4) = Ok (Fin dx)
      /\ dist 2 "inverse" 0 (3 / 4) = Ok (Fin dy)
      /\ 0 < dy <= dx)
  /\ (exists ex ey,
      dist 1 "exp" 0 (3 / 4) = Ok (Fin ex)
      /\ dist 2 "exp" 0 (3 / 4) = Ok (Fin ey)
      /\ 0 < ey < ex).
Proof.
  destruct (@dist_decreases_with_distance 1 2 0 (3 / 4)) as [Hinv Hexp];
    [lia | lia | now vm_compute |].
  split.
  - apply Hinv; [lra|].
    apply Rle_lt_trans with (Rpower 2 1).
    + apply Rle_Rpower; lra.
    + rewrite Rpower_1 by lra.
      apply Rlt_trans with (2 := f64_overflow_large). apply IZR_lt. now vm_compute.
  - apply Hexp. rewrite exp_Ropp. unfold f64_min_normal.
    apply Rinv_le_contravar; [apply exp_pos|].
    apply Rle_trans with (1 := exp_2_le_9). apply IZR_le. now vm_compute.
Defined.

Lemma connection_pdfs_is_distribution_witness :
  exists qs : list R,
    connection_pdfs 3 (3 / 4) = map Fin qs
    /\ length qs = Z.to_nat 3
    /\ Rsum qs = 1
    /\ nth 0 qs 0 = 0
    /\ forall i, (0 < i < Z.to_nat 3)%nat -> 0 < nth i qs 0.
Proof.
  apply (@connection_pdfs_is_distribution 3 (3 / 4)).
  - split; [lia | now vm_compute].
  - lra.
  - apply Rle_lt_trans with (Rpower 2 1).
    + apply Rle_Rpower; lra.
    + rewrite Rpower_1 by lra.
      apply Rlt_trans with (2 := f64_overflow_large). apply IZR_lt. now vm_compute.
Defined.

(* --------------------------------------------------------------------- *)
(** ** [get_c] *)
(* --------------------------------------------------------------------- *)

Section GetCFacts.

Variables N steps : nat.
Hypothesis N_pos : (0 < N)%nat.
Hypothesis steps_pos : (0 < steps)%nat.

Lemma regularised_row (C : matrix) (alpha : R) (v : vector) (i : nat) :
  rect N N C -> (i < N)%nat ->
  bigsum N (fun k => get (mat_add C (mat_scale alpha (np_eye N))) i k * nth k v 0)
  = bigsum N (fun k => get C i k * nth k v 0) + alpha * nth i v 0.
Proof.
  intros HC Hi.
  rewrite (bigsum_ext _ (fun k => get C i k * nth k v 0
               + alpha * ((if Nat.eqb i k then 1 else 0) * nth k v 0))).
  - rewrite bigsum_plus, bigsum_scal, bigsum_delta by assumption. reflexivity.
  - intros k Hk. rewrite (get_regularised N_pos) by assumption. ring.
Qed.

(** X5. [get_c] returns a square, symmetric matrix with one row per
    channel. *)
Theorem get_c_symmetric (X : matrix) (alpha : R) :
  rect N steps X ->
  exists C, get_c X alpha = Ok C /\ rect N N C /\ symmetric C.
Proof.
  intros HX. rewrite (get_c_rect N_pos steps_pos alpha HX). eexists.
  split; [reflexivity|].
  assert (HG : rect N N (mat_init N N
            (fun i j => bigsum steps (fun k => get X i k * get X j k))))
    by apply rect_mat_init.
  pose proof (rect_regularised N_pos alpha HG) as HR.
  split; [exact HR|].
  intros i j.
  destruct (Nat.lt_ge_cases i N) as [Hi|Hi];
    [destruct (Nat.lt_ge_cases j N) as [Hj|Hj]|].
  - rewrite !(get_regularised N_pos) by assumption.
    rewrite !get_mat_init by assumption. rewrite (Nat.eqb_sym j i).
    f_equal. apply bigsum_ext. intros k _. ring.
  - rewrite !(get_rect_outside HR) by auto. reflexivity.
  - rewrite !(get_rect_outside HR) by auto. reflexivity.
Qed.

(** X6. For [alpha > 0] the matrix that [get_c] returns is positive
    definite: [v.T @ C @ v] is at least [alpha] times the squared norm of
    [v], hence positive for every nonzero [v], and no eigenvalue of [C] is
    below [alpha]. *)
Theorem get_c_positive_definite (X : matrix) (alpha : R) :
  rect N steps X -> 0 < alpha ->
  exists C,
    get_c X alpha = Ok C
    /\ (forall v : vector, length v = N ->
          alpha * bigsum N (fun i => nth i v 0 * nth i v 0) <= quad_form C v)
    /\ (forall v : vector, length v = N -> v <> repeat 0 N -> 0 < quad_form C v)
    /\ (forall l, eigenvalue C l -> alpha <= l).
Proof.
  intros HX Ha. rewrite (get_c_rect N_pos steps_pos alpha HX). eexists.
  split; [reflexivity|].
  set (Gm := mat_init N N (fun i j => bigsum steps (fun k => get X i k * get X j k))).
  assert (HG : rect N N Gm) by apply rect_mat_init.
  pose proof (rect_regularised N_pos alpha HG) as HR.
  assert (Hq : forall v : vector,
    quad_form (mat_add Gm (mat_scale alpha (np_eye N))) v
    = bigsum steps (fun k => bigsum N (fun i => get X i k * nth i v 0)
                           * bigsum N (fun i => get X i k * nth i v 0))
      + alpha * bigsum N (fun i => nth i v 0 * nth i v 0)).
  { intros v. unfold quad_form. rewrite (rect_nrows HR).
    rewrite (bigsum_ext _ (fun i =>
        nth i v 0 * bigsum N (fun j =>
            bigsum steps (fun k => get X i k * get X j k) * nth j v 0)
        + alpha * (nth i v 0 * nth i v 0))).
    - rewrite bigsum_plus, bigsum_scal. f_equal. apply gram_quad.
    - intros i Hi. rewrite (regularised_row alpha v HG Hi).
      rewrite (@bigsum_ext N (fun k => get Gm i k * nth k v 0)
                 (fun j => bigsum steps (fun k => get X i k * get X j k) * nth j v 0)).
      + ring.
      + intros j Hj. unfold Gm. now rewrite get_mat_init. }
  assert (Hsq : forall v : vector,
    0 <= bigsum steps (fun k => bigsum N (fun i => get X i k * nth i v 0)
                               * bigsum N (fun i => get X i k * nth i v 0))).
  { intros v. apply bigsum_nonneg. intros k _. nra. }
  assert (Hpsd : psd Gm).
  { intros v Hv. unfold quad_form. rewrite (rect_nrows HG). unfold Gm.
    rewrite (@bigsum_ext N _ (fun i =>
        nth i v 0 * bigsum N (fun j =>
            bigsum steps (fun k => get X i k * get X j k) * nth j v 0))).
    - rewrite gram_quad. apply Hsq.
    - intros i Hi. f_equal. apply bigsum_ext. intros j Hj.
      now rewrite get_mat_init. }
  split; [|split].
  - intros v _. rewrite Hq. pose proof (Hsq v). lra.
  - intros v Hv Hnz. rewrite Hq. pose proof (Hsq v).
    rewrite <- Hv in Hnz. pose proof (sum_squares_pos Hnz) as Hpos.
    rewrite Hv in Hpos. nra.
  - intros l Hl. apply (eigenvalue_regularised N_pos alpha l HG) in Hl.
    pose proof (eigenvalue_psd_nonneg N_pos HG Hpsd Hl). lra.
Qed.

End GetCFacts.

Lemma get_c_symmetric_witness :
  exists C, get_c diag12 1 = Ok C /\ rect 2 2 C /\ symmetric C.
Proof.
  apply (@get_c_symmetric 2 2); [lia | lia | repeat constructor].
Defined.

Lemma get_c_positive_definite_witness :
  exists C,
    get_c diag12 1 = Ok C
    /\ (forall v : vector, length v = 2%nat ->
          1 * bigsum 2 (fun i => nth i v 0 * nth i v 0) <= quad_form C v)
    /\ (forall v : vector, length v = 2%nat -> v <> repeat 0 2 -> 0 < quad_form C v)
    /\ (forall l, eigenvalue C l -> 1 <= l).
Proof.
  apply (@get_c_positive_definite 2 2); [lia | lia | repeat constructor | lra].
Defined.

(* --------------------------------------------------------------------- *)
(** ** Further properties of [mse] *)
(* --------------------------------------------------------------------- *)

Section MseMetricFacts.

Lemma mapM_post {A B C : Type} (f : A -> result B) (g : A -> result C)
    (h : B -> C) (l : list A) :
  (forall a, g a = bind (f a) (fun b => Ok (h b))) ->
  mapM g l = bind (mapM f l) (fun bs => Ok (map h bs)).
Proof.
  intros H. induction l as [|a l IH]; simpl; [reflexivity|].
  rewrite H, IH. destruct (f a); simpl; [|reflexivity].
  now destruct (mapM f l).
Qed.

Lemma mapM_combine_flip {A B C D : Type} (f : A -> B -> result C)
    (g : B -> A -> result D) (h : C -> D) (u : list A) (v : list B) :
  (forall a b, g b a = bind (f a b) (fun c => Ok (h c))) ->
  mapM (fun p => g (fst p) (snd p)) (combine v u)
  = bind (mapM (fun p => f (fst p) (snd p)) (combine u v))
         (fun w => Ok (map h w)).
Proof.
  intros H. revert v. induction u as [|a u IH]; intros [|b v]; try reflexivity.
  cbn [combine mapM fst snd]. rewrite H, IH.
  destruct (f a b); simpl; [|reflexivity].
  now destruct (mapM _ (combine u v)).
Qed.

Lemma broadcast1_flip {A B C D : Type} (f : A -> B -> result C)
    (g : B -> A -> result D) (h : C -> D) (u : list A) (v : list B) :
  (forall a b, g b a = bind (f a b) (fun c => Ok (h c))) ->
  broadcast1 g v u = bind (broadcast1 f u v) (fun w => Ok (map h w)).
Proof.
  intros H. unfold broadcast1. rewrite (Nat.eqb_sym (length v) (length u)).
  destruct (Nat.eqb (length u) (length v)) eqn:E.
  - now apply mapM_combine_flip.
  - destruct u as [|a [|a' u]], v as [|b [|b' v]];
      try discriminate E; try reflexivity;
      first [ apply (mapM_post (fun x => f a x)); intros x; apply H
            | apply (mapM_post (fun x => f x b)); intros x; apply H ].
Qed.

Lemma broadcast_vec_minus_flip (u v : vector) :
  broadcast_vec Rminus v u
  = bind (broadcast_vec Rminus u v) (fun w => Ok (map Ropp w)).
Proof.
  unfold broadcast_vec. apply broadcast1_flip.
  intros a b. cbn [bind]. f_equal. ring.
Qed.

(** Exchanging the operands of an array difference changes the sign of
    every entry, and fails when and as the original difference fails. *)
Lemma broadcast_minus_flip (x y : ndarray) :
  broadcast Rminus y x
  = bind (broadcast Rminus x y) (fun d => Ok (arr_map Ropp d)).
Proof.
  destruct x as [a|u|m], y as [b|v|m']; cbn [broadcast bind arr_map].
  - f_equal. f_equal. ring.
  - f_equal. f_equal. rewrite map_map. apply map_ext. intros e. ring.
  - f_equal. f_equal. rewrite map_map. apply map_ext. intros row.
    rewrite map_map. apply map_ext. intros e. ring.
  - f_equal. f_equal. rewrite map_map. apply map_ext. intros e. ring.
  - rewrite broadcast_vec_minus_flip. now destruct (broadcast_vec Rminus u v).
  - rewrite (mapM_post (broadcast_vec Rminus u) _ (map Ropp))
      by (intros row; apply broadcast_vec_minus_flip).
    now destruct (mapM (broadcast_vec Rminus u) m').
  - f_equal. f_equal. rewrite map_map. apply map_ext. intros row.
    rewrite map_map. apply map_ext. intros e. ring.
  - rewrite (mapM_post (fun row => broadcast_vec Rminus row v) _ (map Ropp))
      by (intros row; apply broadcast_vec_minus_flip).
    now destruct (mapM (fun row => broadcast_vec Rminus row v) m).
  - rewrite (broadcast1_flip (broadcast_vec Rminus) (broadcast_vec Rminus) (map Ropp))
      by (intros r1 r2; apply broadcast_vec_minus_flip).
    now destruct (broadcast1 (broadcast_vec Rminus) m m').
Qed.

Lemma np_max_error (l : list R) (e : exn) :
  np_max l = Raise e
  -> e = ValueError "zero-size array to reduction operation maximum which has no identity".
Proof. destruct l; [now intros [= <-] | discriminate]. Qed.

Lemma squares_opp (l : list R) :
  map (fun e => e ^ 2) (map Ropp l) = map (fun e => e ^ 2) l.
Proof. rewrite map_map. apply map_ext. intros e. ring. Qed.

(** X7. The metric is symmetric: [mse(x, y)] and [mse(y, x)] are the same
    value, or the same exception. *)
Theorem mse_symmetric (x y : ndarray) : mse x y = mse y x.
Proof.
  unfold mse.
  destruct (np_max (flatten x)) as [mx|e1] eqn:Ex;
    destruct (np_max (flatten y)) as [my|e2] eqn:Ey; cbn [bind]; try reflexivity.
  - rewrite (broadcast_minus_flip
               (arr_map (fun a => a / mx) (squeeze x))
               (arr_map (fun a => a / my) (squeeze y))).
    destruct (broadcast Rminus _ _) as [d|e]; cbn [bind]; [|reflexivity].
    rewrite flatten_arr_map, squares_opp, (orb_comm (is_zero my)). reflexivity.
  - now rewrite (np_max_error _ Ex), (np_max_error _ Ey).
Qed.

Lemma np_mean_squares_nonneg (l : list R) : 0 <= np_mean (map (fun e => e ^ 2) l).
Proof.
  unfold np_mean. rewrite length_map.
  assert (H : 0 <= Rsum (map (fun e => e ^ 2) l)).
  { apply Rsum_nonneg. intros e _. nra. }
  destruct l as [|a l].
  - simpl. unfold Rdiv. rewrite Rmult_0_l. lra.
  - apply Rmult_le_pos; [exact H|].
    apply Rlt_le, Rinv_0_lt_compat, lt_0_INR. simpl. lia.
Qed.

(** X8. A finite value of the metric is never negative. *)
Theorem mse_nonnegative (x y : ndarray) (r : R) :
  mse x y = Ok (Finite r) -> 0 <= r.
Proof.
  unfold mse. intros H.
  apply bind_ok in H as (mx & _ & H). apply bind_ok in H as (my & _ & H).
  apply bind_ok in H as (d & _ & H).
  destruct (is_zero mx || is_zero my); [discriminate|].
  injection H as <-. apply np_mean_squares_nonneg.
Qed.

Lemma broadcast_vec_self (f : R -> R -> R) (u : vector) :
  broadcast_vec f u u = Ok (map (fun e => f e e) u).
Proof.
  unfold broadcast_vec, broadcast1. rewrite Nat.eqb_refl.
  induction u as [|a u IH]; [reflexivity|].
  cbn [combine mapM fst snd bind map]. now rewrite IH.
Qed.

Lemma broadcast1_self_rows (f : R -> R -> R) (m : matrix) :
  broadcast1 (broadcast_vec f) m m = Ok (map (map (fun e => f e e)) m).
Proof.
  unfold broadcast1. rewrite Nat.eqb_refl.
  induction m as [|row m IH]; [reflexivity|].
  cbn [combine mapM fst snd map]. now rewrite broadcast_vec_self, IH.
Qed.

Lemma broadcast_self (f : R -> R -> R) (a : ndarray) :
  broadcast f a a = Ok (arr_map (fun e => f e e) a).
Proof.
  destruct a as [s|u|m]; cbn [broadcast arr_map].
  - reflexivity.
  - now rewrite broadcast_vec_self.
  - now rewrite broadcast1_self_rows.
Qed.

(** X9. An array with a nonzero maximum is at distance zero from itself. *)
Theorem mse_self_is_zero (x : ndarray) (m : R) :
  np_max (flatten x) = Ok m -> m <> 0 -> mse x x = Ok (Finite 0).
Proof.
  intros Hm Hnz. unfold mse. rewrite Hm. cbn [bind].
  rewrite broadcast_self. cbn [bind].
  rewrite (is_zero_false Hnz). cbn [orb]. do 2 f_equal.
  rewrite flatten_arr_map, map_map. unfold np_mean.
  rewrite Rsum_map_zero; [unfold Rdiv; apply Rmult_0_l|].
  intros e _. ring.
Qed.

End MseMetricFacts.

Lemma mse_nonnegative_witness : 0 <= 3 / 8.
Proof.
  apply (@mse_nonnegative (Vec [1; 2]) (Mat I2) (3 / 8)). exact example_mse_a.
Defined.

Lemma mse_self_is_zero_witness : mse (Vec [1; 2]) (Vec [1; 2]) = Ok (Finite 0).
Proof.
  apply (@mse_self_is_zero (Vec [1; 2]) 2); [|lra].
  simpl. f_equal. apply Rmax_right. lra.
Defined.

(* --------------------------------------------------------------------- *)
(** ** Training and test trials *)
(* --------------------------------------------------------------------- *)

Section SplitFacts.

Lemma filter_keeps_all {A : Type} (P : A -> bool) (l : list A) :
  (forall a, In a l -> P a = true) -> filter P l = l.
Proof.
  induction l as [|a l IH]; intros H; [reflexivity|].
  cbn [filter]. rewrite (H a) by now left. f_equal. apply IH.
  intros b Hb. apply H. now right.
Qed.

Lemma filter_twice {A : Type} (P Q : A -> bool) (l : list A) :
  filter P (filter Q l) = filter (fun a => Q a && P a) l.
Proof.
  induction l as [|a l IH]; [reflexivity|].
  cbn [filter]. destruct (Q a); cbn [filter andb]; [|exact IH].
  destruct (P a); [f_equal|]; exact IH.
Qed.

(** On a list without repetitions, [l.pop(l.index(t))] removes [t]. *)
Lemma list_index_pop (t : Z) (l : list Z) :
  NoDup l -> In t l ->
  exists i, list_index t l = Ok i
            /\ drop_nth i l = filter (fun a => negb (a =? t)%Z) l.
Proof.
  induction l as [|a l IH]; intros Hnd Hin; [contradiction|].
  inversion Hnd as [|? ? Hna Hnd']; subst. cbn [list_index filter].
  destruct (Z.eqb_spec a t) as [->|Hne].
  - exists 0%nat. split; [reflexivity|]. cbn [negb]. unfold drop_nth. cbn.
    symmetry. apply filter_keeps_all. intros b Hb.
    destruct (Z.eqb_spec b t); [now subst | reflexivity].
  - destruct Hin as [Heq|Hin]; [contradiction|].
    destruct (IH Hnd' Hin) as (i & -> & Hdrop).
    exists (S i). split; [reflexivity|]. cbn [negb].
    change (drop_nth (S i) (a :: l)) with (a :: drop_nth i l).
    now rewrite Hdrop.
Qed.

Lemma pop_tests_filter (tests : list Z) :
  NoDup tests ->
  forall l, NoDup l -> (forall t, In t tests -> In t l) ->
  pop_tests tests l = Ok (filter (fun a => negb (existsb (Z.eqb a) tests)) l).
Proof.
  induction 1 as [|t ts Hnt Hnd IH]; intros l Hl Hin.
  - cbn [pop_tests existsb negb]. f_equal. symmetry.
    now apply filter_keeps_all.
  - cbn [pop_tests].
    destruct (@list_index_pop t l Hl (Hin t (or_introl eq_refl)))
      as (i & Hidx & Hdrop).
    rewrite Hidx. cbn [bind]. rewrite Hdrop, IH.
    + f_equal. rewrite filter_twice. apply filter_ext. intros a.
      cbn [existsb]. now rewrite negb_orb.
    + now apply NoDup_filter.
    + intros t' Ht'. apply filter_In. split; [apply Hin; now right|].
      destruct (Z.eqb_spec t' t); [now subst | reflexivity].
Qed.

Lemma ceil_div_bound (n s i : Z) :
  (0 < s)%Z -> (0 <= i)%Z -> (i < - (- n / s) <-> i * s < n)%Z.
Proof.
  intros Hs Hi. pose proof (Z.div_mod (- n) s ltac:(lia)) as Hdm.
  pose proof (Z.mod_pos_bound (- n) s Hs) as Hmod. nia.
Qed.

Lemma NoDup_map_inj {A B : Type} (f : A -> B) (l : list A) :
  (forall a b, In a l -> In b l -> f a = f b -> a = b) ->
  NoDup l -> NoDup (map f l).
Proof.
  intros Hinj. induction 1 as [|a l Hna Hnd IH]; cbn [map]; constructor.
  - intros Hin. apply in_map_iff in Hin as (b & Hfb & Hb).
    assert (b = a) by (apply Hinj; [now right | now left | exact Hfb]).
    now subst.
  - apply IH. intros x y Hx Hy. apply Hinj; now right.
Qed.

(** X10. For [n_tests > 0] and [n_stims >= 0] the split never fails, and it
    partitions the trial indices [0 .. n_stims-1]: the test trials are the
    multiples of [n_tests], each once, and the training trials are all the
    other indices in increasing order. *)
Theorem split_trials_partition (n_stims n_tests : Z) :
  (0 < n_tests)%Z -> (0 <= n_stims)%Z ->
  exists test_trials train_trials,
    split_trials n_stims n_tests = Ok (test_trials, train_trials)
    /\ NoDup test_trials
    /\ (forall t, In t test_trials
                  <-> (0 <= t < n_stims)%Z /\ (t mod n_tests = 0)%Z)
    /\ train_trials
       = filter (fun t => negb (t mod n_tests =? 0)%Z)
                (map Z.of_nat (seq 0 (Z.to_nat n_stims))).
Proof.
  intros Hs Hn. unfold split_trials, np_arange.
  destruct (Z.eqb_spec n_tests 0) as [|_]; [lia|].
  cbn [bind Z.eqb].
  replace (Z.to_nat (Z.max 0 (- (- n_stims / 1)))) with (Z.to_nat n_stims)
    by (rewrite Z.div_1_r; lia).
  rewrite (map_ext (fun i => (Z.of_nat i * 1)%Z) Z.of_nat) by (intros; lia).
  set (L := Z.to_nat (Z.max 0 (- (- n_stims / n_tests)))).
  set (tests := map (fun i => (Z.of_nat i * n_tests)%Z) (seq 0 L)).
  set (all := map Z.of_nat (seq 0 (Z.to_nat n_stims))).
  assert (Hall : forall t, In t all <-> (0 <= t < n_stims)%Z).
  { intros t. unfold all. rewrite in_map_iff. split.
    - intros (i & <- & Hi). apply in_seq in Hi. lia.
    - intros Ht. exists (Z.to_nat t). split; [lia|]. apply in_seq. lia. }
  assert (Htests : forall t, In t tests
                     <-> (0 <= t < n_stims)%Z /\ (t mod n_tests = 0)%Z).
  { intros t. unfold tests. rewrite in_map_iff. split.
    - intros (i & <- & Hi). apply in_seq in Hi.
      assert (Hlt : (Z.of_nat i < - (- n_stims / n_tests))%Z) by (unfold L in Hi; lia).
      apply (ceil_div_bound n_stims) in Hlt; [|lia|lia].
      split; [nia|]. apply Z.mod_mul. lia.
    - intros [Ht Hmod]. exists (Z.to_nat (t / n_tests)).
      pose proof (Z.div_mod t n_tests ltac:(lia)) as Hdm. rewrite Hmod in Hdm.
      assert (Hq : (0 <= t / n_tests)%Z) by (apply Z.div_pos; lia).
      split; [rewrite Z2Nat.id by lia; lia|].
      apply in_seq. split; [lia|]. cbn [Nat.add]. unfold L.
      assert (Hlt : (t / n_tests < - (- n_stims / n_tests))%Z).
      { apply ceil_div_bound; [lia | lia | nia]. }
      lia. }
  assert (Hnd_tests : NoDup tests).
  { unfold tests. apply NoDup_map_inj; [|apply seq_NoDup].
    intros a b _ _ H. nia. }
  assert (Hnd_all : NoDup all).
  { unfold all. apply NoDup_map_inj; [|apply seq_NoDup]. intros a b _ _ H. lia. }
  rewrite (pop_tests_filter Hnd_tests Hnd_all).
  2:{ intros t Ht. apply Hall. now apply Htests. }
  cbn [bind]. eexists _, _. split; [reflexivity|].
  split; [exact Hnd_tests|]. split; [exact Htests|].
  apply filter_ext_in. intros a Ha. f_equal.
  destruct (existsb (Z.eqb a) tests) eqn:E.
  - apply existsb_exists in E as (t & Ht & Heq). apply Z.eqb_eq in Heq. subst t.
    apply Htests in Ht. symmetry. apply Z.eqb_eq. tauto.
  - symmetry. apply Z.eqb_neq. intros Hmod.
    assert (Hin : In a tests) by (apply Htests; split; [now apply Hall | exact Hmod]).
    assert (existsb (Z.eqb a) tests = true)
      by (apply existsb_exists; exists a; split; [exact Hin | apply Z.eqb_refl]).
    congruence.
Qed.

Lemma split_trials_partition_witness :
  exists test_trials train_trials,
    split_trials 50 5 = Ok (test_trials, train_trials)
    /\ NoDup test_trials
    /\ (forall t, In t test_trials <-> (0 <= t < 50)%Z /\ (t mod 5 = 0)%Z)
    /\ train_trials
       = filter (fun t => negb (t mod 5 =? 0)%Z)
                (map Z.of_nat (seq 0 (Z.to_nat 50))).
Proof.
  apply (@split_trials_partition 50 5); lia.
Defined.

End SplitFacts.

(* --------------------------------------------------------------------- *)
(** ** Kernel basis functions *)
(* --------------------------------------------------------------------- *)

Section KernelShiftFacts.

Lemma np_roll_length (v : vector) (shift : Z) : length (np_roll v shift) = length v.
Proof.
  unfold np_roll. destruct (length v) as [|c] eqn:E; [exact E|].
  rewrite <- E. rewrite length_app, length_skipn, length_firstn. lia.
Qed.

(** Rolling moves the entry at position [i] to position
    [(i + shift) mod len]. *)
Lemma np_roll_nth (v : vector) (shift : Z) (i : nat) :
  (i < length v)%nat ->
  nth (Z.to_nat ((Z.of_nat i + shift) mod Z.of_nat (length v))) (np_roll v shift) 0
  = nth i v 0.
Proof.
  intros Hi. unfold np_roll. destruct (length v) as [|c'] eqn:E; [lia|].
  rewrite <- E. set (c := length v) in *.
  assert (Hc : (0 < Z.of_nat c)%Z) by lia.
  pose proof (Z.mod_pos_bound shift (Z.of_nat c) Hc) as Hk.
  set (k := (shift mod Z.of_nat c)%Z) in *.
  rewrite <- Zplus_mod_idemp_r. fold k.
  destruct (Z_lt_ge_dec (Z.of_nat i + k) (Z.of_nat c)) as [Hlt|Hge].
  - rewrite Z.mod_small by lia.
    rewrite app_nth2 by (rewrite length_skipn; fold c; lia).
    rewrite length_skipn. fold c. rewrite nth_firstn.
    replace (Z.to_nat (Z.of_nat i + k) - (c - (c - Z.to_nat k)))%nat with i by lia.
    destruct (Nat.ltb_spec i (c - Z.to_nat k)); [reflexivity | lia].
  - replace (Z.of_nat i + k)%Z
      with (Z.of_nat i + k - Z.of_nat c + 1 * Z.of_nat c)%Z by lia.
    rewrite Z_mod_plus_full, Z.mod_small by lia.
    rewrite app_nth1 by (rewrite length_skipn; fold c; lia).
    rewrite nth_skipn. f_equal. lia.
Qed.

Lemma nth_row_length (r c : nat) (A : matrix) (j : nat) :
  rect r c A -> (j < r)%nat -> length (nth j A []) = c.
Proof.
  intros [H1 H2] Hj. apply (proj1 (Forall_forall _ _) H2).
  apply nth_In. lia.
Qed.

(** X11. [K_shifted] keeps the shape of [K], and in row [j] the entry of
    column [i] moves to column [(i + c/2 - j) mod c], with [c] the number of
    columns.  For a square [K] the diagonal entry of every row therefore
    lands in the centre column: the centre column of [K_shifted] is
    [K_diag]. *)
Theorem K_shifted_centres_diagonal (r c : nat) (K : matrix) :
  rect r c K -> (0 < r)%nat -> (0 < c)%nat ->
  rect r c (K_shifted K)
  /\ (forall j i, (j < r)%nat -> (i < c)%nat ->
        get (K_shifted K) j
            (Z.to_nat ((Z.of_nat i + (Z.of_nat c / 2 - Z.of_nat j)) mod Z.of_nat c))
        = get K j i)
  /\ (r = c -> map (fun row => nth (c / 2) row 0) (K_shifted K) = K_diag K).
Proof.
  intros HK Hr Hc.
  assert (Hrow : forall j, (j < r)%nat ->
            nth j (K_shifted K) []
            = np_roll (nth j K []) (Z.of_nat c / 2 - Z.of_nat j)).
  { intros j Hj. unfold K_shifted.
    rewrite (rect_nrows HK), (rect_ncols HK Hr).
    now rewrite (nth_map_seq (fun j => np_roll (nth j K [])
                                (Z.of_nat c / 2 - Z.of_nat j))). }
  assert (Hget : forall j i, (j < r)%nat -> (i < c)%nat ->
        get (K_shifted K) j
            (Z.to_nat ((Z.of_nat i + (Z.of_nat c / 2 - Z.of_nat j)) mod Z.of_nat c))
        = get K j i).
  { intros j i Hj Hi. unfold get. rewrite (Hrow j Hj).
    pose proof (nth_row_length HK Hj) as Hlen.
    pose proof (@np_roll_nth (nth j K []) (Z.of_nat c / 2 - Z.of_nat j) i) as Hroll.
    rewrite Hlen in Hroll. apply Hroll. exact Hi. }
  split; [|split].
  - split.
    + unfold K_shifted. now rewrite length_map, length_seq, (rect_nrows HK).
    + apply Forall_forall. intros row Hrw. unfold K_shifted in Hrw.
      apply in_map_iff in Hrw as (j & <- & Hj). apply in_seq in Hj.
      rewrite (rect_nrows HK) in Hj.
      rewrite np_roll_length. apply (nth_row_length HK). lia.
  - exact Hget.
  - intros ->. unfold K_diag. rewrite (rect_nrows HK), (rect_ncols HK Hr), Nat.min_id.
    apply (nth_ext _ _ 0 0).
    + rewrite !length_map, length_seq. unfold K_shifted.
      now rewrite length_map, length_seq, (rect_nrows HK).
    + intros j Hj. rewrite length_map in Hj. unfold K_shifted in Hj.
      rewrite length_map, length_seq, (rect_nrows HK) in Hj.
      rewrite (nth_map_seq (fun i => get K i i)) by assumption.
      rewrite <- (Hget j j Hj Hj).
      rewrite (nth_indep _ 0 (nth (c / 2) [] 0)).
      2:{ unfold K_shifted. now rewrite !length_map, length_seq, (rect_nrows HK). }
      rewrite (map_nth (fun row => nth (c / 2) row 0)). unfold get. f_equal.
      replace (Z.of_nat j + (Z.of_nat c / 2 - Z.of_nat j))%Z
        with (Z.of_nat c / 2)%Z by lia.
      rewrite Z.mod_small.
      * change 2%Z with (Z.of_nat 2). rewrite <- Nat2Z.inj_div. lia.
      * split; [apply Z.div_pos; lia | apply Z.div_lt; lia].
Qed.

Lemma K_shifted_centres_diagonal_witness :
  rect 2 2 (K_shifted diag12)
  /\ (forall j i, (j < 2)%nat -> (i < 2)%nat ->
        get (K_shifted diag12) j
            (Z.to_nat ((Z.of_nat i + (Z.of_nat 2 / 2 - Z.of_nat j)) mod Z.of_nat 2))
        = get diag12 j i)
  /\ (2%nat = 2%nat ->
      map (fun row => nth (2 / 2) row 0) (K_shifted diag12) = K_diag diag12).
Proof.
  apply (@K_shifted_centres_diagonal 2 2 diag12); [repeat constructor | lia | lia].
Defined.

End KernelShiftFacts.

(* --------------------------------------------------------------------- *)
(** ** The number of steps and the sub-sampled length *)
(* --------------------------------------------------------------------- *)

Section StepsFacts.

(** X12. For [|cycle_steps| < 2^52], where rounding the float64 quotient
    and rounding the quotient itself agree,
    [steps = int(np.round(cycle_steps / sr))] is an integer nearest to the
    quotient: it differs from [cycle_steps / sr] by at most one half, and it
    is the exact quotient when [sr] divides [cycle_steps]. *)
Theorem round_div_nearest (a b : Z) :
  (Z.abs a < 2 ^ 52)%Z -> b <> 0%Z ->
  (2 * Z.abs (round_div a b * b - a) <= Z.abs b)%Z
  /\ ((a mod b = 0)%Z -> (round_div a b * b = a)%Z).
Proof.
  intros _ Hb. unfold round_div.
  pose proof (Z.div_mod a b Hb) as Hdm.
  assert (Hr : (0 <= a mod b < b \/ b < a mod b <= 0)%Z).
  { destruct (Z_lt_ge_dec 0 b).
    - left. apply Z.mod_pos_bound. lia.
    - right. apply Z.mod_neg_bound. lia. }
  destruct (Z.compare_spec (2 * Z.abs (a mod b)) (Z.abs b)) as [E|E|E].
  - split; [|intros H0; rewrite H0 in E; simpl in E; lia].
    destruct (Z.even (a / b)); lia.
  - split; [lia|]. intros H0. nia.
  - split; [lia|]. intros H0. rewrite H0 in E. simpl in E. lia.
Qed.

Lemma round_div_nearest_witness :
  (2 * Z.abs (round_div 25000 10 * 10 - 25000) <= Z.abs 10)%Z
  /\ ((25000 mod 10 = 0)%Z -> (round_div 25000 10 * 10 = 25000)%Z).
Proof.
  apply (@round_div_nearest 25000 10); [now vm_compute | lia].
Defined.

Lemma take_every_length {A : Type} (k : nat) (l : list A) :
  (0 < k)%nat ->
  forall s, length (take_every k s l)
            = if (length l <=? s)%nat then 0%nat
              else ((length l - s - 1) / k + 1)%nat.
Proof.
  intros Hk. induction l as [|a l IH]; intros s; [reflexivity|].
  cbn [take_every length]. destruct s as [|s].
  - cbn [length]. rewrite IH, Nat.sub_0_r.
    replace (S (length l) - 1)%nat with (length l) by lia.
    destruct (Nat.leb_spec (length l) (k - 1)).
    + rewrite Nat.div_small by lia. cbn. lia.
    + pose proof (Nat.div_add (length l - k) 1 k ltac:(lia)) as D.
      replace (length l - k + 1 * k)%nat with (length l) in D by lia.
      replace (length l - (k - 1) - 1)%nat with (length l - k)%nat by lia.
      cbn [Nat.leb]. lia.
  - rewrite IH. cbn [Nat.leb Nat.sub].
    destruct (Nat.leb_spec (length l) s); reflexivity.
Qed.

Lemma Forall_take_every {A : Type} (P : A -> Prop) (k : nat) (l : list A) :
  Forall P l -> forall s, Forall P (take_every k s l).
Proof.
  induction 1 as [|a l Ha Hl IH]; intros s; [constructor|].
  cbn [take_every]. destruct s; [constructor; [exact Ha | apply IH] | apply IH].
Qed.

Lemma round_div_le_ceil (a b : Z) :
  (0 < b)%Z -> (0 < a)%Z -> (round_div a b <= (a - 1) / b + 1)%Z.
Proof.
  intros Hb Ha. unfold round_div.
  pose proof (Z.div_mod a b ltac:(lia)) as Hdm.
  pose proof (Z.mod_pos_bound a b Hb) as Hm.
  assert (Hc : (a mod b = 0 -> (a - 1) / b = a / b - 1)%Z).
  { intros H0. symmetry. apply (Z.div_unique _ _ _ (b - 1)); lia. }
  assert (Hc' : (0 < a mod b -> (a - 1) / b = a / b)%Z).
  { intros H0. symmetry. apply (Z.div_unique _ _ _ (a mod b - 1)); lia. }
  destruct (Z.compare_spec (2 * Z.abs (a mod b)) (Z.abs b)) as [E|E|E].
  - destruct (Z.even (a / b)); [|rewrite Hc' by lia; lia].
    destruct (Z.eq_dec (a mod b) 0) as [H0|H0]; [rewrite H0 in E; simpl in E; lia|].
    rewrite Hc' by lia. lia.
  - destruct (Z.eq_dec (a mod b) 0) as [H0|H0];
      [rewrite Hc by lia | rewrite Hc' by lia]; lia.
  - rewrite Hc' by lia. lia.
Qed.

(** Sub-sampling at least [cycle_steps] rows with a stride [sr > 0] leaves
    at least [steps] rows. *)
Lemma stride_keeps_steps {A : Type} (l : list A) (cycle_steps sr : Z) :
  (0 < sr)%Z -> (0 < round_div cycle_steps sr)%Z ->
  (Z.to_nat cycle_steps <= length l)%nat ->
  (Z.to_nat (round_div cycle_steps sr) <= length (take_every (Z.to_nat sr) 0 l))%nat.
Proof.
  intros Hsr Hst Hlen.
  assert (Hc : (0 < cycle_steps)%Z).
  { destruct (Z_lt_ge_dec 0 cycle_steps) as [|Hle]; [assumption|].
    exfalso. unfold round_div in Hst.
    pose proof (Z.div_mod cycle_steps sr ltac:(lia)).
    pose proof (Z.mod_pos_bound cycle_steps sr Hsr).
    assert (cycle_steps / sr <= 0)%Z.
    { destruct (Z.eq_dec cycle_steps 0) as [->|];
        [rewrite Z.div_0_l; lia | apply Z.lt_le_incl, Z.div_lt_upper_bound; lia]. }
    assert (cycle_steps = 0 -> cycle_steps mod sr = 0)%Z
      by (intros ->; apply Z.mod_0_l; lia).
    destruct (Z.compare_spec (2 * Z.abs (cycle_steps mod sr)) (Z.abs sr));
      [destruct (Z.even (cycle_steps / sr))| |]; nia. }
  rewrite take_every_length by lia.
  destruct (Nat.leb_spec (length l) 0); [lia|].
  pose proof (round_div_le_ceil Hsr Hc) as Hle.
  rewrite Nat.sub_0_r.
  assert (Hmono : ((cycle_steps - 1) / sr
                   <= Z.of_nat ((length l - 1) / Z.to_nat sr))%Z).
  { rewrite Nat2Z.inj_div, Z2Nat.id by lia.
    apply Z.div_le_mono; lia. }
  lia.
Qed.

End StepsFacts.

(* --------------------------------------------------------------------- *)
(** ** Further properties of [get_signals] *)
(* --------------------------------------------------------------------- *)

Section GetSignalsFacts.

Variable net : Network.
Variable filt : Smoother.
Variable N : Z.
Variable stim_width : Z.
Variable alpha : R.

Lemma stimulus_shape (stim cycle_steps : Z) (inp_indices : list Z) (M : matrix) :
  stimulus N stim_width alpha stim cycle_steps inp_indices = Ok M ->
  rect (Z.to_nat (stim + cycle_steps)) (Z.to_nat N) M.
Proof.
  unfold stimulus. destruct ((stim + cycle_steps <? 0) || (N <? 0))%Z; [discriminate|].
  intros H. apply bind_ok in H as (js & _ & H). injection H as <-.
  apply rect_mat_init.
Qed.

Lemma py_slice_from_last_length {A : Type} (l : list A) (start : Z) :
  (0 < start)%Z -> (Z.to_nat start <= length l)%nat ->
  length (py_slice_from l (- start)) = Z.to_nat start.
Proof.
  intros Hs Hlen. unfold py_slice_from, clamp_index.
  destruct (Z.ltb_spec (- start) 0); [|lia].
  rewrite length_skipn. lia.
Qed.

Section Loop.

Variables (y0 : net_state net) (cycle_steps sr : Z).
Variables (inp_indices : list Z) (sigma : R) (n : nat).

Hypothesis sr_pos : (0 < sr)%Z.
Hypothesis steps_pos : (0 < round_div cycle_steps sr)%Z.
Hypothesis enough_samples :
  forall st inp out st',
    rect (nrows inp) (Z.to_nat N) inp ->
    (Z.to_nat cycle_steps <= nrows inp)%nat ->
    net_run net st inp sr = (Ok out, st') ->
    exists c, (0 < c)%nat /\ rect (nrows out) c out
              /\ (Z.to_nat (round_div cycle_steps sr) <= nrows out)%nat.

Lemma trials_steps_entries (stim_onsets : list Z) :
  Forall (fun stim => (0 <= stim)%Z) stim_onsets ->
  forall (i : nat) (st st' : net_state net) signals inputs evs,
    trials net filt N stim_width alpha y0 cycle_steps sr
           (round_div cycle_steps sr) inp_indices sigma n i stim_onsets st
    = (Ok (signals, inputs), st', evs) ->
    Forall (fun s => ncols s = Z.to_nat (round_div cycle_steps sr)) signals
    /\ Forall (fun tr => length tr = Z.to_nat (round_div cycle_steps sr)) inputs
    /\ length signals = length stim_onsets
    /\ length inputs = length stim_onsets.
Proof.
  induction 1 as [|stim rest Hstim _ IH]; intros i st st' signals inputs evs H.
  - cbn [trials] in H. injection H as <- <- _ _. repeat split; constructor.
  - cbn [trials] in H. unfold trial in H.
    destruct (stimulus N stim_width alpha stim cycle_steps inp_indices) as [M|e] eqn:HM;
      [|discriminate].
    destruct (net_run net (net_reset net st y0) (gaussian_filter1d filt sigma M) sr)
      as [[out|e] st2] eqn:Hrun; [|discriminate].
    destruct (input_trace N (gaussian_filter1d filt sigma M) sr
                (round_div cycle_steps sr) inp_indices) as [trace|e] eqn:Htr;
      [|discriminate].
    destruct (trials net filt N stim_width alpha y0 cycle_steps sr
                (round_div cycle_steps sr) inp_indices sigma n (S i) rest st2)
      as [[[[sigs ins]|e] st3] evs'] eqn:Hrest; [|discriminate].
    injection H as <- <- _ _.
    destruct (IH _ _ _ _ _ _ Hrest) as (H1 & H2 & H3 & H4).
    pose proof (gaussian_filter1d_rect filt sigma (stimulus_shape _ _ _ HM)) as Hinp.
    assert (Hrows : (Z.to_nat cycle_steps
                     <= nrows (gaussian_filter1d filt sigma M))%nat)
      by (rewrite (rect_nrows Hinp); lia).
    rewrite <- (rect_nrows Hinp) in Hinp at 1.
    destruct (enough_samples _ Hinp Hrows Hrun) as (c & Hc & Hrect & Hlen).
    split; [|split; [|split; [simpl; now rewrite H3 | simpl; now rewrite H4]]].
    + constructor; [|exact H1].
      pose proof (gaussian_filter1d_rect filt sigma
                    (last_rows_rect steps_pos Hlen Hrect)) as Hf.
      unfold transpose. rewrite (rect_nrows Hf), (rect_ncols Hf) by lia.
      now apply ncols_mat_init.
    + constructor; [|exact H2].
      unfold input_trace in Htr.
      apply bind_ok in Htr as (j0 & _ & Htr). apply bind_ok in Htr as (j & _ & Htr).
      apply bind_ok in Htr as (rows & Hrows' & Htr). injection Htr as <-.
      unfold py_stride in Hrows'.
      destruct (Z.eqb_spec sr 0); [lia|].
      destruct (Z.ltb_spec 0 sr); [|lia]. injection Hrows' as <-.
      apply py_slice_from_last_length; [exact steps_pos|].
      rewrite length_map. now apply stride_keeps_steps.
Qed.

End Loop.

(** X13. When [sr > 0], [steps >= 1], the onsets are not negative and the
    simulator returns at least [steps] samples (of at least one channel) for
    every input of at least [cycle_steps] rows, every recorded signal has
    exactly [steps] time columns and every recorded input trace exactly
    [steps] entries, one of each per onset. *)
Theorem recorded_arrays_have_steps_entries
    (stim_onsets : list Z) (cycle_steps sr : Z) (y0 st st' : net_state net)
    (inp_indices : list Z) (sigma : R) signals inputs evs :
  (0 < sr)%Z -> (0 < round_div cycle_steps sr)%Z ->
  Forall (fun stim => (0 <= stim)%Z) stim_onsets ->
  (forall st inp out st',
      rect (nrows inp) (Z.to_nat N) inp ->
      (Z.to_nat cycle_steps <= nrows inp)%nat ->
      net_run net st inp sr = (Ok out, st') ->
      exists c, (0 < c)%nat /\ rect (nrows out) c out
                /\ (Z.to_nat (round_div cycle_steps sr) <= nrows out)%nat) ->
  get_signals net filt N stim_width alpha stim_onsets cycle_steps sr y0
              inp_indices sigma st
  = (Ok (signals, inputs), st', evs) ->
  Forall (fun s => ncols s = Z.to_nat (round_div cycle_steps sr)) signals
  /\ Forall (fun tr => length tr = Z.to_nat (round_div cycle_steps sr)) inputs
  /\ length signals = length stim_onsets
  /\ length inputs = length stim_onsets.
Proof.
  intros Hsr Hst Hon Hrun H. unfold get_signals in H.
  destruct (Z.eqb_spec sr 0); [lia|].
  eapply trials_steps_entries; eassumption.
Qed.

End GetSignalsFacts.

(** The network that echoes its sub-sampled input returns enough samples. *)
Lemma echo_net_enough_samples (N cycle_steps sr : Z) :
  (0 < N)%Z -> (0 < sr)%Z -> (0 < round_div cycle_steps sr)%Z ->
  forall (st : net_state echo_net) inp out (st' : net_state echo_net),
    rect (nrows inp) (Z.to_nat N) inp ->
    (Z.to_nat cycle_steps <= nrows inp)%nat ->
    net_run echo_net st inp sr = (Ok out, st') ->
    exists c, (0 < c)%nat /\ rect (nrows out) c out
              /\ (Z.to_nat (round_div cycle_steps sr) <= nrows out)%nat.
Proof.
  intros HN Hsr Hst st inp out st' [_ Hrows] Hlen H.
  cbn [net_run echo_net] in H. unfold echo_run, py_stride in H.
  destruct (Z.eqb_spec sr 0); [lia|]. destruct (Z.ltb_spec 0 sr); [|lia].
  injection H as <- _. exists (Z.to_nat N). split; [lia|]. split.
  - split; [reflexivity | now apply Forall_take_every].
  - now apply stride_keeps_steps.
Qed.

Lemma recorded_arrays_have_steps_entries_witness :
  Forall (fun s => ncols s = Z.to_nat (round_div 2 1)) [[[1; 0]]; [[1; 0]]]
  /\ Forall (fun tr => length tr = Z.to_nat (round_div 2 1)) [[1; 0]; [1; 0]]
  /\ length [[[1; 0]]; [[1; 0]]] = length [10%Z; 0%Z]
  /\ length [[1; 0]; [1; 0]] = length [10%Z; 0%Z].
Proof.
  apply (@recorded_arrays_have_steps_entries echo_net no_smoothing 1 1 1
           [10%Z; 0%Z] 2 1 tt tt tt [0%Z] 1 [[[1; 0]]; [[1; 0]]] [[1; 0]; [1; 0]]
           [CallReset;
            CallRun [[0]; [0]; [0]; [0]; [0]; [0]; [0]; [0]; [0]; [0]; [1]; [0]] 1;
            Printed 1 2;
            CallReset; CallRun [[1]; [0]] 1; Printed 2 2]).
  - lia.
  - reflexivity.
  - repeat constructor; lia.
  - apply echo_net_enough_samples; [lia | lia | reflexivity].
  - reflexivity.
Defined.

(* --------------------------------------------------------------------- *)
(** ** Resets, failures and the order of events *)
(* --------------------------------------------------------------------- *)

Section EventFacts.

Variable net : Network.
Variable filt : Smoother.
Variable N : Z.
Variable stim_width : Z.
Variable alpha : R.

Lemma run_after_reset_nil (y0 : net_state net) (sr : Z) :
  run_after_reset net y0 sr [].
Proof. intros pre before inp sr' post H. now destruct pre. Qed.

Lemma run_after_reset_app (y0 : net_state net) (sr : Z)
    (l1 l2 : list (call (net_state net))) :
  run_after_reset net y0 sr l1 -> run_after_reset net y0 sr l2 ->
  run_after_reset net y0 sr (l1 ++ l2).
Proof.
  intros H1 H2 pre before inp sr' post H.
  apply app_eq_app in H as [l [[E1 E2]|[E1 E2]]].
  - destruct l as [|c l].
    + cbn [app] in E2. rewrite app_nil_r in E1. subst pre.
      destruct (H2 [] before inp sr' post (eq_sym E2)) as [_ (pre' & s & Hp & _)].
      now destruct pre'.
    + cbn [app] in E2. injection E2 as <- ->.
      apply (H1 pre before inp sr' l). exact E1.
  - destruct (H2 l before inp sr' post E2) as [Hs (pre' & s & -> & Hb)].
    split; [exact Hs|]. exists (l1 ++ pre'), s.
    split; [now rewrite E1, app_assoc | exact Hb].
Qed.

Lemma run_after_reset_block (y0 s : net_state net) (sr : Z) (inp : matrix) :
  run_after_reset net y0 sr [DidReset y0; DidRun (net_reset net s y0) inp sr].
Proof.
  intros pre before inp' sr' post H.
  destruct pre as [|c0 pre]; [discriminate|]. injection H as <- H.
  destruct pre as [|c1 pre].
  - injection H as <- <- <- _. split; [reflexivity|]. now exists [], s.
  - injection H as _ H. now destruct pre.
Qed.

(** The calls that one pass through the loop body makes. *)
Lemma trial_recording (y0 s : net_state net) (l0 log : list (call (net_state net)))
    (cycle_steps sr start : Z) (inp_indices : list Z) (sigma : R) (i n : nat)
    (stim : Z) :
  trial (recording net) filt N stim_width alpha (y0, l0) cycle_steps sr start
        inp_indices sigma i n stim (s, log)
  = (fst (fst (trial net filt N stim_width alpha y0 cycle_steps sr start
                     inp_indices sigma i n stim s)),
     (snd (fst (trial net filt N stim_width alpha y0 cycle_steps sr start
                      inp_indices sigma i n stim s)),
      log ++ match stimulus N stim_width alpha stim cycle_steps inp_indices with
             | Ok M => [DidReset y0;
                        DidRun (net_reset net s y0)
                               (gaussian_filter1d filt sigma M) sr]
             | Raise _ => []
             end),
     snd (trial net filt N stim_width alpha y0 cycle_steps sr start
                inp_indices sigma i n stim s)).
Proof.
  unfold trial.
  destruct (stimulus N stim_width alpha stim cycle_steps inp_indices) as [M|e].
  - cbn [recording net_reset net_run fst snd].
    destruct (net_run net (net_reset net s y0) (gaussian_filter1d filt sigma M) sr)
      as [[out|e] st2]; rewrite <- app_assoc; cbn [app fst snd]; [|reflexivity].
    now destruct (input_trace N (gaussian_filter1d filt sigma M) sr start inp_indices).
  - cbn [fst snd]. now rewrite app_nil_r.
Qed.

Lemma trials_recording (y0 : net_state net) (l0 : list (call (net_state net)))
    (cycle_steps sr start : Z) (inp_indices : list Z) (sigma : R) (n : nat)
    (stim_onsets : list Z) :
  forall (i : nat) (s : net_state net) (log : list (call (net_state net))),
    run_after_reset net y0 sr log ->
    fst (fst (trials (recording net) filt N stim_width alpha (y0, l0) cycle_steps
                     sr start inp_indices sigma n i stim_onsets (s, log)))
    = fst (fst (trials net filt N stim_width alpha y0 cycle_steps sr start
                       inp_indices sigma n i stim_onsets s))
    /\ fst (snd (fst (trials (recording net) filt N stim_width alpha (y0, l0)
                             cycle_steps sr start inp_indices sigma n i
                             stim_onsets (s, log))))
       = snd (fst (trials net filt N stim_width alpha y0 cycle_steps sr start
                          inp_indices sigma n i stim_onsets s))
    /\ run_after_reset net y0 sr
         (snd (snd (fst (trials (recording net) filt N stim_width alpha (y0, l0)
                                cycle_steps sr start inp_indices sigma n i
                                stim_onsets (s, log))))).
Proof.
  induction stim_onsets as [|stim rest IH]; intros i s log Hlog.
  - simpl. split; [reflexivity|]. split; [reflexivity | exact Hlog].
  - cbn [trials]. rewrite trial_recording.
    assert (Hlog' : run_after_reset net y0 sr
              (log ++ match stimulus N stim_width alpha stim cycle_steps inp_indices with
                      | Ok M => [DidReset y0;
                                 DidRun (net_reset net s y0)
                                        (gaussian_filter1d filt sigma M) sr]
                      | Raise _ => []
                      end)).
    { apply run_after_reset_app; [exact Hlog|].
      destruct (stimulus N stim_width alpha stim cycle_steps inp_indices);
        [apply run_after_reset_block | apply run_after_reset_nil]. }
    destruct (trial net filt N stim_width alpha y0 cycle_steps sr start
                inp_indices sigma i n stim s) as [[[[sig tr]|e] s1] evs1];
      cbn [fst snd];
      [|split; [reflexivity|]; split; [reflexivity | exact Hlog']].
    destruct (IH (S i) s1 _ Hlog') as (H1 & H2 & H3).
    destruct (trials (recording net) filt N stim_width alpha (y0, l0) cycle_steps
                sr start inp_indices sigma n (S i) rest _)
      as [[r' [s2' log2]] evs2'].
    destruct (trials net filt N stim_width alpha y0 cycle_steps sr start
                inp_indices sigma n (S i) rest s1) as [[r s2] evs2].
    cbn [fst snd] in H1, H2, H3. subst r' s2'.
    destruct r as [[sigs ins]|e]; cbn [fst snd];
      (split; [reflexivity|]; split; [reflexivity | exact H3]).
Qed.

(** X14. Whatever its arguments and outcome, [get_signals] never runs the
    simulator without resetting it to [y0] immediately before, always runs
    it from the state that this reset has produced, and always with the
    sampling stride [sr].  The calls are those that the network receives:
    on a network that records them, [get_signals] returns the same result
    and leaves the same state as on the network itself, and every [run] in
    the record directly follows a [reset] with the argument [y0]. *)
Theorem every_run_follows_a_reset
    (stim_onsets : list Z) (cycle_steps sr : Z) (y0 st : net_state net)
    (inp_indices : list Z) (sigma : R) :
  fst (fst (get_signals (recording net) filt N stim_width alpha stim_onsets
                        cycle_steps sr (y0, []) inp_indices sigma (st, [])))
  = fst (fst (get_signals net filt N stim_width alpha stim_onsets cycle_steps sr
                          y0 inp_indices sigma st))
  /\ fst (snd (fst (get_signals (recording net) filt N stim_width alpha
                                stim_onsets cycle_steps sr (y0, []) inp_indices
                                sigma (st, []))))
     = snd (fst (get_signals net filt N stim_width alpha stim_onsets cycle_steps
                             sr y0 inp_indices sigma st))
  /\ (forall pre before inp sr' post,
         snd (snd (fst (get_signals (recording net) filt N stim_width alpha
                                    stim_onsets cycle_steps sr (y0, [])
                                    inp_indices sigma (st, []))))
         = pre ++ DidRun before inp sr' :: post ->
         sr' = sr
         /\ exists pre' s,
              pre = pre' ++ [DidReset y0] /\ before = net_reset net s y0).
Proof.
  unfold get_signals. destruct (sr =? 0)%Z.
  - cbn [fst snd]. split; [reflexivity|]. split; [reflexivity|].
    intros pre before inp sr' post H. now destruct pre.
  - apply trials_recording. apply run_after_reset_nil.
Qed.

Lemma norm_index_out_of_range (idx : Z) :
  (idx < - N \/ N <= idx)%Z -> norm_index N idx = Raise IndexError.
Proof.
  intros H. unfold norm_index.
  destruct (Z.ltb_spec idx 0).
  - destruct (Z.leb_spec 0 (idx + N)); [|reflexivity].
    destruct (Z.ltb_spec (idx + N) N); [lia | reflexivity].
  - destruct (Z.leb_spec 0 idx); [|reflexivity].
    destruct (Z.ltb_spec idx N); [lia | reflexivity].
Qed.

Lemma norm_index_error (idx : Z) (e : exn) :
  norm_index N idx = Raise e -> e = IndexError.
Proof.
  unfold norm_index.
  destruct ((0 <=? (if (idx <? 0)%Z then (idx + N)%Z else idx))
            && ((if (idx <? 0)%Z then (idx + N)%Z else idx) <? N))%Z;
    [discriminate | now intros [= <-]].
Qed.

Lemma mapM_norm_index_error (idxs : list Z) :
  Exists (fun idx => (idx < - N \/ N <= idx)%Z) idxs ->
  mapM (norm_index N) idxs = Raise IndexError.
Proof.
  induction 1 as [idx idxs H|idx idxs _ IH]; cbn [mapM].
  - now rewrite (norm_index_out_of_range H).
  - destruct (norm_index N idx) as [k|e] eqn:E; cbn [bind].
    + now rewrite IH.
    + now rewrite (norm_index_error _ E).
Qed.

(** X15. A channel index outside [-N .. N-1] makes [get_signals] raise
    [IndexError] in the first trial before the simulator is reset or run,
    and the simulator's state is left as it was. *)
Theorem bad_channel_index_fails_before_simulation
    (stim : Z) (rest : list Z) (cycle_steps sr : Z) (y0 st : net_state net)
    (inp_indices : list Z) (sigma : R) :
  sr <> 0%Z -> (0 <= stim + cycle_steps)%Z -> (0 <= N)%Z ->
  Exists (fun idx => (idx < - N \/ N <= idx)%Z) inp_indices ->
  get_signals net filt N stim_width alpha (stim :: rest) cycle_steps sr y0
              inp_indices sigma st
  = (Raise IndexError, st, []).
Proof.
  intros Hsr Hrows HN Hbad. unfold get_signals.
  destruct (Z.eqb_spec sr 0); [contradiction|].
  cbn [trials]. unfold trial, stimulus.
  replace ((stim + cycle_steps <? 0) || (N <? 0))%Z with false
    by (symmetry; apply orb_false_iff; split; apply Z.ltb_ge; lia).
  now rewrite (mapM_norm_index_error Hbad).
Qed.

(** X16. With an empty [inp_indices] the stimulus is all zero and the first
    trial is still simulated; the [IndexError] of [inp_indices[0]] is only
    raised after that simulation, and no further trial is run. *)
Theorem empty_indices_fail_after_simulation
    (stim : Z) (rest : list Z) (cycle_steps sr : Z) (y0 st st2 : net_state net)
    (sigma : R) (out : matrix) :
  sr <> 0%Z -> (0 <= stim + cycle_steps)%Z -> (0 <= N)%Z ->
  net_run net (net_reset net st y0)
          (gaussian_filter1d filt sigma
             (np_zeros2 (Z.to_nat (stim + cycle_steps)) (Z.to_nat N))) sr
  = (Ok out, st2) ->
  get_signals net filt N stim_width alpha (stim :: rest) cycle_steps sr y0
              [] sigma st
  = (Raise IndexError, st2,
     [CallReset;
      CallRun (gaussian_filter1d filt sigma
                 (np_zeros2 (Z.to_nat (stim + cycle_steps)) (Z.to_nat N))) sr]).
Proof.
  intros Hsr Hrows HN Hrun. unfold get_signals.
  destruct (Z.eqb_spec sr 0); [contradiction|].
  cbn [trials]. unfold trial, stimulus.
  replace ((stim + cycle_steps <? 0) || (N <? 0))%Z with false
    by (symmetry; apply orb_false_iff; split; apply Z.ltb_ge; lia).
  cbn [mapM bind existsb].
  rewrite (@mat_init_ext _ _ _ (fun _ _ => 0))
    by (intros i j _ _; now rewrite andb_false_r).
  fold (np_zeros2 (Z.to_nat (stim + cycle_steps)) (Z.to_nat N)).
  rewrite Hrun. reflexivity.
Qed.

End EventFacts.

Lemma bad_channel_index_fails_before_simulation_witness :
  get_signals echo_net no_smoothing 2 1 1 [0%Z; 5%Z] 3 1 tt [1%Z; 2%Z] 1 tt
  = (Raise IndexError, tt, []).
Proof.
  apply (@bad_channel_index_fails_before_simulation echo_net no_smoothing 2 1 1
           0 [5%Z] 3 1 tt tt [1%Z; 2%Z] 1).
  - lia.
  - lia.
  - lia.
  - apply Exists_cons_tl. apply Exists_cons_hd. lia.
Defined.

Lemma empty_indices_fail_after_simulation_witness :
  get_signals echo_net no_smoothing 1 1 1 [1%Z; 4%Z] 2 1 tt [] 1 tt
  = (Raise IndexError, tt,
     [CallReset;
      CallRun (gaussian_filter1d no_smoothing 1
                 (np_zeros2 (Z.to_nat (1 + 2)) (Z.to_nat 1))) 1]).
Proof.
  apply (@empty_indices_fail_after_simulation echo_net no_smoothing 1 1 1
           1 [4%Z] 2 1 tt tt tt 1 [[0]; [0]; [0]]).
  - lia.
  - lia.
  - lia.
  - reflexivity.
Defined.

(* --------------------------------------------------------------------- *)
(** ** Independence of the trials *)
(* --------------------------------------------------------------------- *)

Section TrialIndependence.

Variable net : Network.
Variable filt : Smoother.
Variable N : Z.
Variable stim_width : Z.
Variable alpha : R.

Variables (y0 : net_state net) (cycle_steps sr start : Z).
Variables (inp_indices : list Z) (sigma : R).

(** The trial counters only show in the printed message. *)
Lemma trial_counters (i n i' n' : nat) (stim : Z) (st : net_state net) :
  fst (trial net filt N stim_width alpha y0 cycle_steps sr start
             inp_indices sigma i n stim st)
  = fst (trial net filt N stim_width alpha y0 cycle_steps sr start
               inp_indices sigma i' n' stim st)
  /\ run_inputs (snd (trial net filt N stim_width alpha y0 cycle_steps sr start
                            inp_indices sigma i n stim st))
     = run_inputs (snd (trial net filt N stim_width alpha y0 cycle_steps sr start
                              inp_indices sigma i' n' stim st)).
Proof.
  unfold trial.
  destruct (stimulus N stim_width alpha stim cycle_steps inp_indices) as [M|e];
    [|now split].
  destruct (net_run net (net_reset net st y0) (gaussian_filter1d filt sigma M) sr)
    as [[out|e] st2]; [|now split].
  destruct (input_trace N (gaussian_filter1d filt sigma M) sr start inp_indices);
    now split.
Qed.

(** After a reset that does not depend on the state it replaces, neither
    does the outcome of a trial. *)
Lemma trial_state (i n : nat) (stim : Z) (st st0 : net_state net) :
  (forall s s', net_reset net s y0 = net_reset net s' y0) ->
  fst (fst (trial net filt N stim_width alpha y0 cycle_steps sr start
                  inp_indices sigma i n stim st))
  = fst (fst (trial net filt N stim_width alpha y0 cycle_steps sr start
                    inp_indices sigma i n stim st0)).
Proof.
  intros Hreset. unfold trial. rewrite (Hreset st st0).
  now destruct (stimulus N stim_width alpha stim cycle_steps inp_indices).
Qed.

Lemma trials_independent (stim_onsets : list Z) :
  (forall s s', net_reset net s y0 = net_reset net s' y0) ->
  forall (n i : nat) (st st' : net_state net) signals inputs evs,
    trials net filt N stim_width alpha y0 cycle_steps sr start
           inp_indices sigma n i stim_onsets st
    = (Ok (signals, inputs), st', evs) ->
    forall (k : nat) (stim : Z) (n0 i0 : nat) (st0 : net_state net),
      nth_error stim_onsets k = Some stim ->
      exists signal trace,
        fst (fst (trial net filt N stim_width alpha y0 cycle_steps sr start
                        inp_indices sigma i0 n0 stim st0))
        = Ok (signal, trace)
        /\ nth_error signals k = Some signal
        /\ nth_error inputs k = Some trace.
Proof.
  intros Hreset.
  induction stim_onsets as [|s rest IH];
    intros n i st st' signals inputs evs H k stim n0 i0 st0 Hk;
    [now destruct k|].
  cbn [trials] in H.
  destruct (trial net filt N stim_width alpha y0 cycle_steps sr start
              inp_indices sigma i n s st) as [[[[sig tr]|e] st1] evs1] eqn:Ht;
    [|discriminate].
  destruct (trials net filt N stim_width alpha y0 cycle_steps sr start
              inp_indices sigma n (S i) rest st1)
    as [[[[sigs ins]|e] st2] evs2] eqn:Hr; [|discriminate].
  injection H as <- <- _ _.
  destruct k as [|k].
  - injection Hk as <-. exists sig, tr.
    rewrite (trial_state i0 n0 s st0 st Hreset).
    rewrite <- (proj1 (trial_counters i n i0 n0 s st)), Ht. now split.
  - cbn [nth_error] in Hk.
    destruct (IH _ _ _ _ _ _ _ Hr k stim n0 i0 st0 Hk) as (signal & trace & H1 & H2 & H3).
    now exists signal, trace.
Qed.

End TrialIndependence.

Section TrialIndependenceMain.

Variable net : Network.
Variable filt : Smoother.
Variable N : Z.
Variable stim_width : Z.
Variable alpha : R.

(** X17. If resetting to [y0] gives a state that does not depend on the
    state before the reset, the trials do not influence each other: in a
    completed call, the signal and input trace recorded for any onset are
    those that a call for that onset alone records, from any simulator
    state. *)
Theorem trials_do_not_interact
    (stim_onsets : list Z) (cycle_steps sr : Z) (y0 st st' : net_state net)
    (inp_indices : list Z) (sigma : R) signals inputs evs :
  (forall s s', net_reset net s y0 = net_reset net s' y0) ->
  get_signals net filt N stim_width alpha stim_onsets cycle_steps sr y0
              inp_indices sigma st
  = (Ok (signals, inputs), st', evs) ->
  forall (k : nat) (stim : Z) (st0 : net_state net),
    nth_error stim_onsets k = Some stim ->
    exists signal trace,
      fst (fst (get_signals net filt N stim_width alpha [stim] cycle_steps sr y0
                            inp_indices sigma st0))
      = Ok ([signal], [trace])
      /\ nth_error signals k = Some signal
      /\ nth_error inputs k = Some trace.
Proof.
  intros Hreset H k stim st0 Hk. unfold get_signals in *.
  destruct (sr =? 0)%Z; [discriminate|].
  destruct (@trials_independent net filt N stim_width alpha y0 cycle_steps sr
              (round_div cycle_steps sr) inp_indices sigma stim_onsets Hreset
              _ _ _ _ _ _ _ H k stim 1%nat 0%nat st0 Hk)
    as (signal & trace & H1 & H2 & H3).
  exists signal, trace. split; [|now split].
  cbn [trials length].
  destruct (trial net filt N stim_width alpha y0 cycle_steps sr
              (round_div cycle_steps sr) inp_indices sigma 0 1 stim st0)
    as [[[[sg tr]|e] st1] evs1]; cbn [fst] in H1; [|discriminate].
  now injection H1 as -> ->.
Qed.

Lemma trials_abort (finished : list Z) (stim : Z) (rest : list Z)
    (cycle_steps sr start : Z) (y0 : net_state net) (inp_indices : list Z)
    (sigma : R) (M : matrix) (e : exn) (st2 : net_state net) :
  stimulus N stim_width alpha stim cycle_steps inp_indices = Ok M ->
  forall (n0 i0 n i : nat) (st st1 : net_state net) signals inputs evs1,
    trials net filt N stim_width alpha y0 cycle_steps sr start inp_indices sigma
           n0 i0 finished st
    = (Ok (signals, inputs), st1, evs1) ->
    net_run net (net_reset net st1 y0) (gaussian_filter1d filt sigma M) sr
    = (Raise e, st2) ->
    exists evs,
      trials net filt N stim_width alpha y0 cycle_steps sr start inp_indices sigma
             n i (finished ++ stim :: rest) st
      = (Raise e, st2, evs)
      /\ run_inputs evs = run_inputs evs1 ++ [gaussian_filter1d filt sigma M].
Proof.
  intros HM.
  induction finished as [|d finished IH];
    intros n0 i0 n i st st1 signals inputs evs1 H Hrun.
  - cbn [trials] in H. injection H as _ _ <- <-.
    cbn [app trials]. unfold trial. rewrite HM, Hrun.
    eexists. split; reflexivity.
  - cbn [trials] in H.
    destruct (trial net filt N stim_width alpha y0 cycle_steps sr start
                inp_indices sigma i0 n0 d st) as [[[[sig tr]|e0] sta] evsa] eqn:Ht;
      [|discriminate].
    destruct (trials net filt N stim_width alpha y0 cycle_steps sr start
                inp_indices sigma n0 (S i0) finished sta)
      as [[[[sigs ins]|e0] stb] evsb] eqn:Hr; [|discriminate].
    injection H as _ _ <- <-.
    destruct (IH n0 (S i0) n (S i) sta stb sigs ins evsb Hr Hrun)
      as (evs & Hevs & Hinputs).
    destruct (trial_counters net filt N stim_width alpha y0 cycle_steps sr start
                inp_indices sigma i n i0 n0 d st) as [Hf Hi].
    rewrite Ht in Hf, Hi. cbn [fst snd] in Hf, Hi.
    cbn [app trials].
    destruct (trial net filt N stim_width alpha y0 cycle_steps sr start
                inp_indices sigma i n d st) as [[r sta'] evsa'].
    cbn [fst snd] in Hf, Hi. injection Hf as -> ->.
    rewrite Hevs. eexists. split; [reflexivity|].
    now rewrite !run_inputs_app, Hi, Hinputs, app_assoc.
Qed.

(** X18. An exception of the simulator propagates out of [get_signals]
    unchanged and ends the loop: when the trials of the onsets before [stim] complete and
    the simulator raises [e] on the input for [stim], the call raises [e],
    the simulator's state is the one it had when it failed, and the inputs
    it has been run on are those of the completed trials followed by the one
    for [stim]; no later onset is simulated. *)
Theorem simulator_error_ends_the_loop
    (finished : list Z) (stim : Z) (rest : list Z) (cycle_steps sr : Z)
    (y0 st st1 st2 : net_state net) (inp_indices : list Z) (sigma : R)
    (M : matrix) (e : exn) signals inputs evs1 :
  get_signals net filt N stim_width alpha finished cycle_steps sr y0
              inp_indices sigma st
  = (Ok (signals, inputs), st1, evs1) ->
  stimulus N stim_width alpha stim cycle_steps inp_indices = Ok M ->
  net_run net (net_reset net st1 y0) (gaussian_filter1d filt sigma M) sr
  = (Raise e, st2) ->
  exists evs,
    get_signals net filt N stim_width alpha (finished ++ stim :: rest)
                cycle_steps sr y0 inp_indices sigma st
    = (Raise e, st2, evs)
    /\ run_inputs evs = run_inputs evs1 ++ [gaussian_filter1d filt sigma M].
Proof.
  intros H HM Hrun. unfold get_signals in *.
  destruct (sr =? 0)%Z; [discriminate|].
  eapply trials_abort; eassumption.
Qed.

End TrialIndependenceMain.

Lemma trials_do_not_interact_witness :
  exists signal trace,
    fst (fst (get_signals echo_net no_smoothing 1 1 1 [2%Z] 1 2 tt [0%Z] 1 tt))
    = Ok ([signal], [trace])
    /\ nth_error [[[1]]; [[0; 1]]] 1 = Some signal
    /\ nth_error [[1]; [0; 1]] 1 = Some trace.
Proof.
  apply (@trials_do_not_interact echo_net no_smoothing 1 1 1
           [0%Z; 2%Z] 1 2 tt tt tt [0%Z] 1 [[[1]]; [[0; 1]]] [[1]; [0; 1]]
           [CallReset; CallRun [[1]] 2; Printed 1 2;
            CallReset; CallRun [[0]; [0]; [1]] 2; Printed 2 2]).
  - reflexivity.
  - reflexivity.
  - reflexivity.
Defined.

Lemma simulator_error_ends_the_loop_witness :
  exists evs,
    get_signals (bounded_net 3) no_smoothing 1 1 1 ([0%Z] ++ 5%Z :: [1%Z])
                2 1 tt [0%Z] 1 tt
    = (Raise (ValueError "too many time steps"), tt, evs)
    /\ run_inputs evs
       = run_inputs [CallReset; CallRun [[1]; [0]] 1; Printed 1 1]
         ++ [gaussian_filter1d no_smoothing 1
               [[0]; [0]; [0]; [0]; [0]; [1]; [0]]].
Proof.
  apply (@simulator_error_ends_the_loop (bounded_net 3) no_smoothing 1 1 1
           [0%Z] 5 [1%Z] 2 1 tt tt tt tt [0%Z] 1
           [[0]; [0]; [0]; [0]; [0]; [1]; [0]]
           (ValueError "too many time steps") [[[1; 0]]] [[1; 0]]
           [CallReset; CallRun [[1]; [0]] 1; Printed 1 1]).
  - reflexivity.
  - reflexivity.
  - reflexivity.
Defined.

(* --------------------------------------------------------------------- *)
(** ** The read-out, the report and its failures *)
(* --------------------------------------------------------------------- *)

Section ReadoutFacts.

Variable linalg_inv : matrix -> result matrix.
Variable network_dim : matrix -> result pyfloat.

Lemma matmul_ok (A B C : matrix) :
  matmul A B = Ok C ->
  ncols A = nrows B
  /\ C = mat_init (nrows A) (ncols B)
           (fun i j => bigsum (ncols A) (fun k => get A i k * get B k j)).
Proof.
  unfold matmul. destruct (Nat.eqb_spec (ncols A) (nrows B)); [|discriminate].
  now intros [= <-].
Qed.

Lemma matvec_ok (A : matrix) (v u : vector) :
  matvec A v = Ok u ->
  u = map (fun i => bigsum (ncols A) (fun k => get A i k * nth k v 0))
          (seq 0 (nrows A)).
Proof.
  unfold matvec. destruct (Nat.eqb (ncols A) (length v)); [|discriminate].
  now intros [= <-].
Qed.

(** X19. The training prediction is the read-out applied to the mean
    training signal: for a completed estimate and evaluation,
    [w_readout @ s_mean] succeeds and equals [K @ target]. *)
Theorem train_prediction_is_readout_of_mean
    (train_signals cs test_signals : list matrix) (target : vector)
    (k : kernel) (e : target_eval) :
  estimate_kernel linalg_inv train_signals cs = Ok k ->
  evaluate_target k test_signals target = Ok e ->
  vecmat (readout e) (s_mean k) = Ok (train_prediction e).
Proof.
  unfold estimate_kernel, evaluate_target. intros Hk He.
  apply bind_ok in Hk as (sm & _ & Hk).
  apply bind_ok in Hk as (sv & _ & Hk).
  apply bind_ok in Hk as (Cm & _ & Hk).
  apply bind_ok in Hk as (Ci & _ & Hk).
  apply bind_ok in Hk as (w0 & Hw & Hk).
  apply bind_ok in Hk as (K0 & HK & Hk).
  apply bind_ok in Hk as (G0 & _ & Hk).
  injection Hk as <-. cbn [K G w s_mean] in *.
  apply bind_ok in He as (tp & Htp & He).
  apply bind_ok in He as (td & _ & He).
  apply bind_ok in He as (wr & Hwr & He).
  apply bind_ok in He as (preds & _ & He).
  apply bind_ok in He as (ms & _ & He).
  injection He as <-. cbn [readout train_prediction].
  apply matmul_ok in Hw as [HCi Hw0].
  apply matmul_ok in HK as [Hdim HK0].
  apply matvec_ok in Htp. apply matvec_ok in Hwr.
  assert (Hrows_w : nrows w0 = nrows Ci) by (rewrite Hw0; apply nrows_mat_init).
  assert (Hlen : length wr = nrows w0)
    by (rewrite Hwr; now rewrite length_map, length_seq).
  assert (HrowsK : nrows K0 = ncols sm).
  { rewrite HK0, nrows_mat_init. unfold transpose. apply nrows_mat_init. }
  unfold vecmat. rewrite Hlen.
  destruct (ncols sm) as [|T] eqn:HT.
  - (* no time steps: everything is empty *)
    assert (Hw_empty : nrows w0 = 0%nat).
    { rewrite <- Hdim. unfold transpose. now rewrite HT. }
    assert (HCi_empty : Ci = []).
    { rewrite Hrows_w in Hw_empty. now destruct Ci. }
    rewrite HCi_empty in HCi. cbn in HCi.
    rewrite Hw_empty, <- HCi. cbn [Nat.eqb seq map].
    rewrite Htp, HrowsK. reflexivity.
  - assert (Hsm : nrows sm = nrows w0).
    { rewrite <- Hdim. unfold transpose. rewrite ncols_mat_init by lia.
      reflexivity. }
    rewrite Hsm, Nat.eqb_refl. f_equal.
    rewrite Htp, HrowsK. apply map_ext_in. intros i Hi. apply in_seq in Hi.
    assert (HcolsK : ncols K0 = ncols w0).
    { rewrite HK0. apply ncols_mat_init. unfold transpose.
      rewrite nrows_mat_init. lia. }
    rewrite HcolsK. symmetry.
    transitivity
      (bigsum (nrows w0)
         (fun a => bigsum (ncols w0)
                     (fun c => get sm a i * get w0 a c * nth c target 0))).
    + rewrite (bigsum_swap (nrows w0) (ncols w0)). apply bigsum_ext. intros c Hc.
      rewrite HK0, get_mat_init;
        [|unfold transpose; rewrite nrows_mat_init; lia|assumption].
      rewrite Hdim, <- bigsum_scal_r. apply bigsum_ext. intros a Ha.
      unfold transpose. rewrite get_mat_init by lia. reflexivity.
    + apply bigsum_ext. intros a Ha.
      rewrite Hwr, (nth_map_seq _ _ Ha), <- bigsum_scal_r.
      apply bigsum_ext. intros c Hc. ring.
Qed.

Lemma mapM_length {A B : Type} (f : A -> result B) (l : list A) (bs : list B) :
  mapM f l = Ok bs -> length bs = length l.
Proof.
  revert bs. induction l as [|a l IH]; intros bs H; cbn [mapM] in H.
  - now injection H as <-.
  - apply bind_ok in H as (b & _ & H). apply bind_ok in H as (bs' & Hbs & H).
    injection H as <-. cbn [length]. now rewrite (IH _ Hbs).
Qed.

Lemma mapM_Forall {A B : Type} (P : B -> Prop) (f : A -> result B) (l : list A)
    (bs : list B) :
  (forall a b, f a = Ok b -> P b) -> mapM f l = Ok bs -> Forall P bs.
Proof.
  intros HP. revert bs. induction l as [|a l IH]; intros bs H; cbn [mapM] in H.
  - injection H as <-. constructor.
  - apply bind_ok in H as (b & Hb & H). apply bind_ok in H as (bs' & Hbs & H).
    injection H as <-. constructor; [now apply (HP a) | now apply IH].
Qed.

(** X20. The report of a completed analysis has one dimensionality per
    training trial and one evaluation per target, and every evaluation has
    one test prediction and one MSE per test trial. *)
Theorem report_lengths
    (signals : list matrix) (train_trials test_trials : list Z)
    (targets : list vector) (gamma : R) (r : report) :
  analysis linalg_inv network_dim signals train_trials test_trials targets gamma
  = Ok r ->
  length (dims r) = length train_trials
  /\ length (evals r) = length targets
  /\ Forall (fun e => length (test_prediction e) = length test_trials
                      /\ length (mses e) = length test_trials) (evals r).
Proof.
  unfold analysis. intros H.
  apply bind_ok in H as (ts & Hts & H).
  apply bind_ok in H as (tests & Htests & H).
  apply bind_ok in H as (dcs & Hdcs & H).
  apply bind_ok in H as (k & _ & H).
  apply bind_ok in H as (ev & Hev & H).
  injection H as <-. cbn [dims evals].
  apply mapM_length in Hts, Htests. unfold covariances in Hdcs.
  split; [|split].
  - rewrite length_map, (mapM_length _ _ Hdcs). assumption.
  - apply (mapM_length _ _ Hev).
  - refine (mapM_Forall _ _ _ _ Hev). intros target e He.
    unfold evaluate_target in He.
    apply bind_ok in He as (tp & _ & He).
    apply bind_ok in He as (td & _ & He).
    apply bind_ok in He as (wr & _ & He).
    apply bind_ok in He as (preds & Hpreds & He).
    apply bind_ok in He as (ms & Hms & He).
    injection He as <-. cbn [test_prediction mses].
    rewrite (mapM_length _ _ Hpreds), (mapM_length _ _ Hms). now split.
Qed.

Lemma py_index_out_of_range {A : Type} (l : list A) (idx : Z) :
  (idx < - Z.of_nat (length l) \/ Z.of_nat (length l) <= idx)%Z ->
  py_index l idx = Raise IndexError.
Proof.
  intros H. unfold py_index.
  destruct (Z.ltb_spec idx 0).
  - destruct (Z.leb_spec 0 (idx + Z.of_nat (length l))); [|reflexivity].
    destruct (Z.ltb_spec (idx + Z.of_nat (length l)) (Z.of_nat (length l)));
      [lia | reflexivity].
  - destruct (Z.leb_spec 0 idx); [|reflexivity].
    destruct (Z.ltb_spec idx (Z.of_nat (length l))); [lia | reflexivity].
Qed.

Lemma py_index_error {A : Type} (l : list A) (idx : Z) (e : exn) :
  py_index l idx = Raise e -> e = IndexError.
Proof.
  unfold py_index.
  destruct ((0 <=? (if (idx <? 0)%Z then (idx + Z.of_nat (length l))%Z else idx))
            && ((if (idx <? 0)%Z then (idx + Z.of_nat (length l))%Z else idx)
                <? Z.of_nat (length l)))%Z.
  - destruct (nth_error l _); [discriminate | now intros [= <-]].
  - now intros [= <-].
Qed.

Lemma mapM_py_index_error {A : Type} (l : list A) (idxs : list Z) :
  Exists (fun idx => (idx < - Z.of_nat (length l) \/ Z.of_nat (length l) <= idx)%Z)
         idxs ->
  mapM (py_index l) idxs = Raise IndexError.
Proof.
  induction 1 as [idx idxs H|idx idxs _ IH]; cbn [mapM].
  - now rewrite (py_index_out_of_range l H).
  - destruct (py_index l idx) as [k|e] eqn:E; cbn [bind].
    + now rewrite IH.
    + now rewrite (py_index_error _ _ E).
Qed.

Lemma mapM_py_index_outcome {A : Type} (l : list A) (idxs : list Z) :
  (exists bs, mapM (py_index l) idxs = Ok bs)
  \/ mapM (py_index l) idxs = Raise IndexError.
Proof.
  induction idxs as [|idx idxs IH]; cbn [mapM]; [left; now eexists|].
  destruct (py_index l idx) as [k|e] eqn:E; cbn [bind].
  - destruct IH as [[bs ->]| ->]; cbn [bind]; [left; now eexists | now right].
  - right. now rewrite (py_index_error _ _ E).
Qed.

(** X21. A training or test trial index outside the recorded signals ends
    the analysis with [IndexError], whatever the signals, the targets and
    the outcomes of the library routines are. *)
Theorem trial_index_out_of_range
    (signals : list matrix) (train_trials test_trials : list Z)
    (targets : list vector) (gamma : R) :
  Exists (fun idx => (idx < - Z.of_nat (length signals)
                      \/ Z.of_nat (length signals) <= idx)%Z)
         (train_trials ++ test_trials) ->
  analysis linalg_inv network_dim signals train_trials test_trials targets gamma
  = Raise IndexError.
Proof.
  intros H. unfold analysis. apply Exists_app in H as [H|H].
  - now rewrite (mapM_py_index_error _ H).
  - destruct (mapM_py_index_outcome signals train_trials) as [[ts ->]| ->];
      cbn [bind]; [|reflexivity].
    now rewrite (mapM_py_index_error _ H).
Qed.

End ReadoutFacts.

Lemma example_evaluate :
  evaluate_target example_kernel [I2] [1; 2]
  = Ok {| train_prediction := [1 / 2; 1];
          train_distortion := [0; 0];
          readout := [1 / 2; 1];
          test_prediction := [[1 / 2; 1]];
          mses := [Finite (3 / 8)] |}.
Proof.
  unfold evaluate_target. cbn [mapM bind].
  unfold example_kernel at 1 2 3. cbn [K G w].
  assert (E1 : matvec [[1 / 2; 0]; [0; 1 / 2]] [1; 2] = Ok [1 / 2; 1]) by by_evaluation.
  assert (E2 : matvec [[0; 0]; [0; 0]] [1; 2] = Ok [0; 0]) by by_evaluation.
  assert (E3 : vecmat [1 / 2; 1] I2 = Ok [1 / 2; 1]) by by_evaluation.
  rewrite E1, E2. cbn [bind]. rewrite E3, example_mse_a. reflexivity.
Qed.

Lemma train_prediction_is_readout_of_mean_witness :
  vecmat [1 / 2; 1] I2 = Ok [1 / 2; 1].
Proof.
  apply (@train_prediction_is_readout_of_mean np_linalg_inv
           [I2] [[[2; 0]; [0; 2]]] [I2] [1; 2] example_kernel
           {| train_prediction := [1 / 2; 1];
              train_distortion := [0; 0];
              readout := [1 / 2; 1];
              test_prediction := [[1 / 2; 1]];
              mses := [Finite (3 / 8)] |}).
  - apply example_estimate.
  - apply example_evaluate.
Defined.

Lemma report_lengths_witness :
  length (dims example_report_a) = length [0%Z]
  /\ length (evals example_report_a) = length [[1; 2]]
  /\ Forall (fun e => length (test_prediction e) = length [1%Z]
                      /\ length (mses e) = length [1%Z])
            (evals example_report_a).
Proof.
  apply (@report_lengths np_linalg_inv example_dim [I2; I2] [0%Z] [1%Z]
           [[1; 2]] 1 example_report_a).
  apply example_run_a.
Defined.

Lemma trial_index_out_of_range_witness :
  analysis np_linalg_inv example_dim [I2; I2] [0%Z] [2%Z] [[1; 2]] 1
  = Raise IndexError.
Proof.
  apply (@trial_index_out_of_range np_linalg_inv example_dim [I2; I2]
           [0%Z] [2%Z] [[1; 2]] 1).
  apply Exists_cons_tl. apply Exists_cons_hd. right. cbn. lia.
Defined.

(* --------------------------------------------------------------------- *)
(** ** The stimulated channels *)
(* --------------------------------------------------------------------- *)

Section InputChannelFacts.

Lemma np_arange_from_In (start stop idx : Z) :
  In idx (np_arange_from start stop) <-> (start <= idx < stop)%Z.
Proof.
  unfold np_arange_from. rewrite in_map_iff. split.
  - intros (i & <- & Hi). apply in_seq in Hi. lia.
  - intros H. exists (Z.to_nat (idx - start)). split; [lia|].
    apply in_seq. lia.
Qed.

Lemma np_arange_from_length (start stop : Z) :
  length (np_arange_from start stop) = Z.to_nat (stop - start).
Proof. unfold np_arange_from. now rewrite length_map, length_seq. Qed.

Lemma np_arange_from_NoDup (start stop : Z) : NoDup (np_arange_from start stop).
Proof.
  unfold np_arange_from. apply NoDup_map_inj; [|apply seq_NoDup].
  intros i j _ _ H. lia.
Qed.

(** X22. For [0 <= n_inputs <= N <= 2^53], where the float products
    [N*0.5] and [0.5*n_inputs] are exact, the input indices of the script
    are the block [N/2 - n_inputs/2 .. N/2 + n_inputs/2 - 1] (integer
    quotients): valid channel numbers in [0 .. N-1], without repetition,
    [n_inputs] of them for an even [n_inputs] and [n_inputs - 1] for an
    odd one. *)
Theorem inp_indices_are_valid_channels (N n_inputs : Z) :
  (0 <= n_inputs <= N)%Z -> (N <= 2 ^ 53)%Z ->
  Forall (fun idx => (0 <= idx < N)%Z) (Script.inp_indices N n_inputs)
  /\ (forall idx, In idx (Script.inp_indices N n_inputs)
                  <-> (N / 2 - n_inputs / 2 <= idx < N / 2 + n_inputs / 2)%Z)
  /\ NoDup (Script.inp_indices N n_inputs)
  /\ Z.of_nat (length (Script.inp_indices N n_inputs))
     = (if Z.even n_inputs then n_inputs else n_inputs - 1)%Z.
Proof.
  intros H _. unfold Script.inp_indices, Script.center.
  rewrite !Z.quot_div_nonneg by lia.
  assert (HN : (N = 2 * (N / 2) + N mod 2)%Z) by (apply Z.div_mod; lia).
  assert (Hn : (n_inputs = 2 * (n_inputs / 2) + n_inputs mod 2)%Z)
    by (apply Z.div_mod; lia).
  pose proof (Z.mod_pos_bound N 2 ltac:(lia)) as HN2.
  pose proof (Z.mod_pos_bound n_inputs 2 ltac:(lia)) as Hn2.
  split; [|split; [|split]].
  - apply Forall_forall. intros idx Hidx. apply np_arange_from_In in Hidx. lia.
  - intros idx. apply np_arange_from_In.
  - apply np_arange_from_NoDup.
  - rewrite np_arange_from_length.
    rewrite Zmod_even in Hn. destruct (Z.even n_inputs); lia.
Qed.

End InputChannelFacts.

Lemma inp_indices_are_valid_channels_witness :
  Forall (fun idx => (0 <= idx < 10)%Z) (Script.inp_indices 10 5)
  /\ (forall idx, In idx (Script.inp_indices 10 5)
                  <-> (10 / 2 - 5 / 2 <= idx < 10 / 2 + 5 / 2)%Z)
  /\ NoDup (Script.inp_indices 10 5)
  /\ Z.of_nat (length (Script.inp_indices 10 5))
     = (if Z.even 5 then 5 else 5 - 1)%Z.
Proof.
  apply (@inp_indices_are_valid_channels 10 5); [lia | now vm_compute].
Defined.

(* --------------------------------------------------------------------- *)
(** ** The trials of the script *)
(* --------------------------------------------------------------------- *)

Section ScriptTrials.

Variable net : Network.
Variable filt : Smoother.
Variable N : Z.
Variable stim_width : Z.
Variable alpha : R.





(** C4. In the script every recorded signal has exactly [steps] time
    columns.  The script builds [target_1] (lines 140-142) from the same
    [cycle_steps] and [sr] before it calls [get_signals]; that succeeds only
    for [steps > delay], so that [get_signals] is reached with
    [steps >= 1].  Then, for non-negative onsets, [sr > 0] and a simulator
    that returns at least [steps] samples (of at least one channel) for
    every input of at least [cycle_steps] rows, each trial appends a signal
    of exactly [steps] columns, whatever its onset, and [steps] is also the
    length of the target. *)
Theorem script_signals_have_steps_columns
    (stim_onsets : list Z) (cycle_steps sr : Z) (y0 st st' : net_state net)
    (inp_indices : list Z) (sigma : R) (target : vector) signals inputs evs :
  target_1 cycle_steps sr = Ok target ->
  (0 < sr)%Z ->
  Forall (fun stim => (0 <= stim)%Z) stim_onsets ->
  (forall st inp out st',
      rect (nrows inp) (Z.to_nat N) inp ->
      (Z.to_nat cycle_steps <= nrows inp)%nat ->
      net_run net st inp sr = (Ok out, st') ->
      exists c, (0 < c)%nat /\ rect (nrows out) c out
                /\ (Z.to_nat (round_div cycle_steps sr) <= nrows out)%nat) ->
  get_signals net filt N stim_width alpha stim_onsets cycle_steps sr y0
              inp_indices sigma st
  = (Ok (signals, inputs), st', evs) ->
  (delay < round_div cycle_steps sr)%Z
  /\ length target = Z.to_nat (round_div cycle_steps sr)
  /\ length signals = length stim_onsets
  /\ Forall (fun s => ncols s = Z.to_nat (round_div cycle_steps sr)) signals.
Proof.
  intros Ht Hsr Hon Hrun H.
  unfold target_1 in Ht. destruct (Z.eqb_spec sr 0); [lia|].
  destruct (Z.ltb_spec (round_div cycle_steps sr) 0); [discriminate|].
  apply bind_ok in Ht as (k & Hk & Ht). injection Ht as <-.
  assert (Hsteps : (delay < round_div cycle_steps sr)%Z).
  { unfold norm_index, delay in *. cbn [Z.ltb Z.compare] in Hk.
    destruct (Z.leb_spec 0 1500); [|lia].
    destruct (Z.ltb_spec 1500 (round_div cycle_steps sr)); [lia | discriminate]. }
  unfold get_signals in H. destruct (Z.eqb_spec sr 0); [lia|].
  assert (Hpos : (0 < round_div cycle_steps sr)%Z) by (unfold delay in Hsteps; lia).
  destruct (@trials_steps_entries net filt N stim_width alpha y0 cycle_steps sr
              inp_indices sigma (length stim_onsets) Hsr Hpos Hrun stim_onsets Hon
              _ _ _ _ _ _ H) as (H1 & _ & H3 & _).
  split; [exact Hsteps|]. split; [now rewrite length_map, length_seq|].
  split; assumption.
Qed.

End ScriptTrials.

Lemma script_signals_have_steps_columns_witness :
  exists target signals inputs evs,
    target_1 1501 1 = Ok target
    /\ get_signals echo_net no_smoothing 1 1 1 [0%Z; 2%Z] 1501 1 tt [0%Z] 1 tt
       = (Ok (signals, inputs), tt, evs)
    /\ (delay < round_div 1501 1)%Z
    /\ length target = Z.to_nat (round_div 1501 1)
    /\ length signals = length [0%Z; 2%Z]
    /\ Forall (fun s => ncols s = Z.to_nat (round_div 1501 1)) signals.
Proof.
  assert (Ht : exists target, target_1 1501 1 = Ok target)
    by (eexists; vm_compute; reflexivity).
  assert (Hs : exists signals inputs evs,
             get_signals echo_net no_smoothing 1 1 1 [0%Z; 2%Z] 1501 1 tt [0%Z] 1 tt
             = (Ok (signals, inputs), tt, evs))
    by (eexists _, _, _; vm_compute; reflexivity).
  destruct Ht as [target Ht]. destruct Hs as (signals & inputs & evs & Hs).
  exists target, signals, inputs, evs.
  split; [exact Ht|]. split; [exact Hs|].
  apply (@script_signals_have_steps_columns echo_net no_smoothing 1 1 1
           [0%Z; 2%Z] 1501 1 tt tt tt [0%Z] 1 target signals inputs evs Ht).
  - lia.
  - repeat constructor; lia.
  - apply echo_net_enough_samples; [lia | lia | reflexivity].
  - exact Hs.
Defined.

